(** * Search structures over passenger records: a verified model

    The development embeds the four search strategies of [main.cpp]
    (linear scan, unbalanced binary search tree, red-black tree with parent
    links, chained hash table), the data generator and the CSV report, and
    proves the properties the specification states about them.

    Conventions.
    - A [std::string] is a [string]; [operator==] is [String.eqb] and
      [operator<] is [String.ltb] (lexicographic on unsigned bytes).
    - A [const Passenger*] stored in a payload is the index of the record in
      the data vector it points into.
    - A [size_t] is a [Z] in the range [0, 2^64); arithmetic that can leave
      the range is reduced explicitly.  Whether plain [char] is signed is a
      parameter of the hash table.
    - [new] and [push_back] are taken to succeed.
    - The red-black tree keeps its nodes in a heap addressed by [ptr]; a
      null pointer is [None]; dereferencing a null or dangling pointer, and
      a loop that runs out of fuel, yield no result ([None]). *)

From Stdlib Require Import ZArith String Ascii List Lia OrderedTypeEx Sorted.
From stdpp Require Import base option list gmap strings sorting pretty.

(* ===================================================================== *)
(** * Keys: the order of [std::string]                                   *)
(* ===================================================================== *)

Definition key_lt (a b : string) : Prop := String.ltb a b = true.

Global Instance key_lt_dec a b : Decision (key_lt a b).
Proof. unfold key_lt. apply _. Defined.

(* ===================================================================== *)
(** * Records                                                            *)
(* ===================================================================== *)

Record Passenger := mkPassenger {
  fullName : string;
  cabinNumber : Z;
  cabinType : string;
  destinationPort : string
}.

(** A [const Passenger*] into the data vector: the index of the element. *)
Definition PassengerPtr : Type := nat.

(** The references [&data[0]], [&data[1]], ... paired with the records they
    point to, in the order a [for (const auto& p : data)] loop visits them. *)
Definition refs_from (start : nat) (data : list Passenger)
  : list (PassengerPtr * Passenger) :=
  zip (seq start (length data)) data.

Definition refs (data : list Passenger) : list (PassengerPtr * Passenger) :=
  refs_from 0 data.

(** ** Entries

    Every keyed structure stores one entry per distinct key: the key and the
    references of the records inserted under it, in insertion order. *)

(** The payload stored under [key] in a list of entries; empty when there is
    no entry for [key]. *)
Fixpoint assoc (key : string) (es : list (string * list PassengerPtr))
  : list PassengerPtr :=
  match es with
  | [] => []
  | (k, pl) :: es => if String.eqb key k then pl else assoc key es
  end.

(** The references of the records whose key is [key], in order. *)
Fixpoint matches (key : string) (ps : list (PassengerPtr * Passenger))
  : list PassengerPtr :=
  match ps with
  | [] => []
  | (ref, p) :: ps =>
      if String.eqb (fullName p) key then ref :: matches key ps
      else matches key ps
  end.

(* ===================================================================== *)
(** * Linear search                                                      *)
(* ===================================================================== *)

(** The [for] loop of [linearSearch], entered at index [i] with the
    elements [arr[i..]] still to visit and [idx] collected so far. *)
Fixpoint linearSearch_from (i : nat) (arr : list Passenger) (key : string)
    (idx : list nat) : list nat :=
  match arr with
  | [] => idx
  | p :: arr =>
      linearSearch_from (S i) arr key
        (if String.eqb (fullName p) key then idx ++ [i] else idx)
  end.

Definition linearSearch (arr : list Passenger) (key : string) : list nat :=
  linearSearch_from 0 arr key [].

(** The indices whose record has the key, as a filter of [0 .. size-1]. *)
Definition has_key (data : list Passenger) (key : string) (i : nat) : bool :=
  match data !! i with
  | Some p => String.eqb (fullName p) key
  | None => false
  end.

(** The records a list of indices or references points to. *)
Definition records_at (data : list Passenger) (idx : list nat)
  : list Passenger :=
  omap (λ i, data !! i) idx.

(* ===================================================================== *)
(** * Unbalanced binary search tree                                      *)
(* ===================================================================== *)

Module Bst.

(** A [BSTNode*]: null, or a node that owns its two subtrees. *)
Inductive BSTNode :=
| Null
| Node (key : string) (payload : list PassengerPtr) (left right : BSTNode).

(** The object: its [root] member. *)
Definition BST : Type := BSTNode.

Definition empty : BST := Null.

Fixpoint height (t : BSTNode) : nat :=
  match t with
  | Null => 0
  | Node _ _ l r => S (height l `max` height r)
  end.

(** [if (!link) link = new BSTNode{name}]: the link the cursor moves to. *)
Definition or_new (link : BSTNode) (name : string) : BSTNode :=
  match link with
  | Null => Node name [] Null Null
  | _ => link
  end.

(** The [while (true)] loop of [insert] with the cursor at [cur]; the result
    is the subtree at [cur] after the loop has returned.  One unit of fuel
    per iteration. *)
Fixpoint insert_loop (fuel : nat) (name : string) (ref : PassengerPtr)
    (cur : BSTNode) : option BSTNode :=
  match fuel with
  | O => None
  | S fuel =>
    match cur with
    | Null => None
    | Node k pl l r =>
      if String.eqb name k then Some (Node k (pl ++ [ref]) l r)
      else if String.ltb name k then
        l' ← insert_loop fuel name ref (or_new l name);
        Some (Node k pl l' r)
      else
        r' ← insert_loop fuel name ref (or_new r name);
        Some (Node k pl l r')
    end
  end.

Definition insert (ref : PassengerPtr) (p : Passenger) (t : BST) : option BST :=
  match t with
  | Null => Some (Node (fullName p) ([] ++ [ref]) Null Null)
  | _ => insert_loop (S (S (height t))) (fullName p) ref t
  end.

(** The [while (cur)] loop of [search]. *)
Fixpoint search (t : BST) (key : string) : list PassengerPtr :=
  match t with
  | Null => []
  | Node k pl l r =>
      if String.eqb key k then pl
      else if String.ltb key k then search l key else search r key
  end.

(** [for (const auto& p : data) bst.insert(p)] *)
Fixpoint insert_all (ps : list (PassengerPtr * Passenger)) (t : BST)
  : option BST :=
  match ps with
  | [] => Some t
  | (ref, p) :: ps => t' ← insert ref p t; insert_all ps t'
  end.

Definition build (data : list Passenger) : option BST :=
  insert_all (refs data) empty.

(** Where the loop of [insert] leaves the subtree at a link, written by
    recursion on the tree. *)
Fixpoint insert_at (link : BSTNode) (name : string) (ref : PassengerPtr)
  : BSTNode :=
  match link with
  | Null => Node name [ref] Null Null
  | Node k pl l r =>
      if String.eqb name k then Node k (pl ++ [ref]) l r
      else if String.ltb name k then Node k pl (insert_at l name ref) r
      else Node k pl l (insert_at r name ref)
  end.

(** In-order list of the entries (key, payload). *)
Fixpoint entries (t : BSTNode) : list (string * list PassengerPtr) :=
  match t with
  | Null => []
  | Node k pl l r => entries l ++ (k, pl) :: entries r
  end.

Definition keys (t : BSTNode) : list string := (entries t).*1.

(** Left subtree keys < node key < right subtree keys, at every node. *)
Fixpoint ordered (t : BSTNode) : Prop :=
  match t with
  | Null => True
  | Node k _ l r =>
      ordered l ∧ ordered r
      ∧ Forall (λ k', key_lt k' k) (keys l)
      ∧ Forall (λ k', key_lt k k') (keys r)
  end.

(** The tree whose nodes hang in one chain of [right] links, in the order
    of the entries. *)
Fixpoint spine (es : list (string * list PassengerPtr)) : BSTNode :=
  match es with
  | [] => Null
  | (k, pl) :: es => Node k pl Null (spine es)
  end.

End Bst.

(* ===================================================================== *)
(** * Red-black tree                                                     *)
(* ===================================================================== *)

Module Rbt.

Inductive Color := RED | BLACK.

Global Instance Color_eq_dec : EqDecision Color.
Proof. solve_decision. Defined.

Definition ptr : Type := nat.

Record RBTNode := mkRBTNode {
  key : string;
  payload : list PassengerPtr;
  color : Color;
  parent : option ptr;
  left : option ptr;
  right : option ptr
}.

(** The object: the [root] member and the nodes allocated with [new]. *)
Record RBTree := mkRBTree {
  root : option ptr;
  heap : gmap nat RBTNode
}.

Definition empty : RBTree := mkRBTree None ∅.

(** ** The monad of member functions: state [RBTree], failure on undefined
    behaviour *)

Definition M (A : Type) : Type := RBTree → option (A * RBTree).

Global Instance M_ret : MRet M := λ A a T, Some (a, T).
Global Instance M_bind : MBind M := λ A B k m T,
  match m T with
  | Some (a, T') => k a T'
  | None => None
  end.

Definition fail {A} : M A := λ _, None.

(** [*x] *)
Definition load (x : ptr) : M RBTNode := λ T,
  match heap T !! x with
  | Some nd => Some (nd, T)
  | None => None
  end.

(** [*x = nd] *)
Definition store (x : ptr) (nd : RBTNode) : M unit := λ T,
  Some (tt, mkRBTree (root T) (<[x := nd]> (heap T))).

(** A pointer that is about to be dereferenced. *)
Definition deref (o : option ptr) : M ptr :=
  match o with
  | Some x => mret x
  | None => fail
  end.

Definition get_root : M (option ptr) := λ T, Some (root T, T).
Definition set_root (r : option ptr) : M unit := λ T,
  Some (tt, mkRBTree r (heap T)).

Definition get_key (x : ptr) : M string := nd ← load x; mret (key nd).
Definition get_payload (x : ptr) : M (list PassengerPtr) :=
  nd ← load x; mret (payload nd).
Definition get_color (x : ptr) : M Color := nd ← load x; mret (color nd).
Definition get_parent (x : ptr) : M (option ptr) := nd ← load x; mret (parent nd).
Definition get_left (x : ptr) : M (option ptr) := nd ← load x; mret (left nd).
Definition get_right (x : ptr) : M (option ptr) := nd ← load x; mret (right nd).

Definition set_key (x : ptr) (k : string) : M unit :=
  nd ← load x;
  store x (mkRBTNode k (payload nd) (color nd) (parent nd) (left nd) (right nd)).
Definition push_payload (x : ptr) (p : PassengerPtr) : M unit :=
  nd ← load x;
  store x (mkRBTNode (key nd) (payload nd ++ [p]) (color nd) (parent nd)
             (left nd) (right nd)).
Definition set_color (x : ptr) (c : Color) : M unit :=
  nd ← load x;
  store x (mkRBTNode (key nd) (payload nd) c (parent nd) (left nd) (right nd)).
Definition set_parent (x : ptr) (v : option ptr) : M unit :=
  nd ← load x;
  store x (mkRBTNode (key nd) (payload nd) (color nd) v (left nd) (right nd)).
Definition set_left (x : ptr) (v : option ptr) : M unit :=
  nd ← load x;
  store x (mkRBTNode (key nd) (payload nd) (color nd) (parent nd) v (right nd)).
Definition set_right (x : ptr) (v : option ptr) : M unit :=
  nd ← load x;
  store x (mkRBTNode (key nd) (payload nd) (color nd) (parent nd) (left nd) v).

(** [new RBTNode]: a fresh address holding a default-initialised node
    (empty key and payload, [color = RED], null links).  Allocation is taken
    to succeed. *)
Definition new_node : M ptr := λ T,
  let z := fresh (dom (heap T)) in
  Some (z, mkRBTree (root T)
             (<[z := mkRBTNode EmptyString [] RED None None None]> (heap T))).

(** ** Rotations *)

Definition rotateLeft (x : ptr) : M unit :=
  y ← get_right x ≫= deref;                 (* RBTNode* y = x->right; *)
  yl ← get_left y; set_right x yl;;          (* x->right = y->left; *)
  yl ← get_left y;                           (* if (y->left) *)
  match yl with
  | Some b => set_parent b (Some x)          (*   y->left->parent = x; *)
  | None => mret tt
  end;;
  xp ← get_parent x; set_parent y xp;;       (* y->parent = x->parent; *)
  xp ← get_parent x;
  match xp with
  | None => set_root (Some y)                (* if (!x->parent) root = y; *)
  | Some p =>
      pl ← get_left p;                       (* else if (x == x->parent->left) *)
      if decide (Some x = pl) then set_left p (Some y)
      else set_right p (Some y)
  end;;
  set_left y (Some x);;                      (* y->left = x; *)
  set_parent x (Some y).                     (* x->parent = y; *)

Definition rotateRight (y : ptr) : M unit :=
  x ← get_left y ≫= deref;                  (* RBTNode* x = y->left; *)
  xr ← get_right x; set_left y xr;;          (* y->left = x->right; *)
  xr ← get_right x;                          (* if (x->right) *)
  match xr with
  | Some b => set_parent b (Some y)          (*   x->right->parent = y; *)
  | None => mret tt
  end;;
  yp ← get_parent y; set_parent x yp;;       (* x->parent = y->parent; *)
  yp ← get_parent y;
  match yp with
  | None => set_root (Some x)                (* if (!y->parent) root = x; *)
  | Some p =>
      pl ← get_left p;                       (* else if (y == y->parent->left) *)
      if decide (Some y = pl) then set_left p (Some x)
      else set_right p (Some x)
  end;;
  set_right x (Some y);;                     (* x->right = y; *)
  set_parent y (Some x).                     (* y->parent = x; *)

(** ** Rebalancing after an insertion *)

(** [y && y->color == RED] *)
Definition is_red (y : option ptr) : M bool :=
  match y with
  | Some u =>
      c ← get_color u;
      mret (match c with RED => true | BLACK => false end)
  | None => mret false
  end.

(** [z->parent] and [z->parent->parent], dereferenced on the way. *)
Definition parent_of (z : ptr) : M ptr := get_parent z ≫= deref.
Definition grandparent_of (z : ptr) : M ptr :=
  p ← parent_of z; get_parent p ≫= deref.

(** The [while] loop of [fixInsert]; one unit of fuel per iteration. *)
Fixpoint fixInsert_loop (fuel : nat) (z : ptr) : M unit :=
  match fuel with
  | O => fail
  | S fuel =>
    zp ← get_parent z;              (* while (z->parent && *)
    match zp with
    | None => mret tt
    | Some p =>
      pc ← get_color p;             (*        z->parent->color == RED) *)
      match pc with
      | BLACK => mret tt
      | RED =>
        g ← grandparent_of z;
        gl ← get_left g;
        if decide (Some p = gl) then  (* z->parent == z->parent->parent->left *)
          y ← get_right g;            (* the uncle *)
          yred ← is_red y;
          if (yred : bool) then
            p' ← parent_of z; set_color p' BLACK;;
            u ← deref y; set_color u BLACK;;
            g' ← grandparent_of z; set_color g' RED;;
            z' ← grandparent_of z;    (* z = z->parent->parent; *)
            fixInsert_loop fuel z'
          else
            pr ← get_right p;         (* if (z == z->parent->right) *)
            z' ← ((if decide (Some z = pr) then
                    z1 ← parent_of z; rotateLeft z1;; mret z1
                  else mret z) : M ptr);
            p' ← parent_of z'; set_color p' BLACK;;
            g' ← grandparent_of z'; set_color g' RED;;
            g'' ← grandparent_of z'; rotateRight g'';;
            fixInsert_loop fuel z'
        else
          y ← get_left g;             (* the uncle *)
          yred ← is_red y;
          if (yred : bool) then
            p' ← parent_of z; set_color p' BLACK;;
            u ← deref y; set_color u BLACK;;
            g' ← grandparent_of z; set_color g' RED;;
            z' ← grandparent_of z;    (* z = z->parent->parent; *)
            fixInsert_loop fuel z'
          else
            pl ← get_left p;          (* if (z == z->parent->left) *)
            z' ← ((if decide (Some z = pl) then
                    z1 ← parent_of z; rotateRight z1;; mret z1
                  else mret z) : M ptr);
            p' ← parent_of z'; set_color p' BLACK;;
            g' ← grandparent_of z'; set_color g' RED;;
            g'' ← grandparent_of z'; rotateLeft g'';;
            fixInsert_loop fuel z'
      end
    end
  end.

(** Fuel for every loop that walks a path of the tree: more than the
    number of allocated nodes. *)
Definition path_fuel : M nat := λ T, Some (S (size (heap T)), T).

Definition fixInsert (z : ptr) : M unit :=
  fuel ← path_fuel;
  fixInsert_loop fuel z;;
  r ← get_root ≫= deref;           (* root->color = BLACK; *)
  set_color r BLACK.

(** ** Insertion *)

(** The descent of [insert]: [inl tt] when the key was found and the record
    appended (the early [return]), [inr y] when [x] became null with [y] the
    last node visited. *)
Fixpoint insert_descend (fuel : nat) (name : string) (ref : PassengerPtr)
    (y x : option ptr) : M (unit + option ptr) :=
  match x with
  | None => mret (inr y)
  | Some xa =>
    match fuel with
    | O => fail
    | S fuel =>
      k ← get_key xa;
      if String.eqb name k then      (* p.fullName == x->key *)
        push_payload xa ref;; mret (inl tt)
      else                           (* x = (p.fullName < x->key) ? ... *)
        x' ← (if String.ltb name k then get_left xa else get_right xa);
        insert_descend fuel name ref (Some xa) x'
    end
  end.

Definition insert (ref : PassengerPtr) (p : Passenger) : M unit :=
  fuel ← path_fuel;
  x ← get_root;
  res ← insert_descend fuel (fullName p) ref None x;
  match res with
  | inl _ => mret tt
  | inr y =>
    z ← new_node;                    (* RBTNode* z = new RBTNode; *)
    set_key z (fullName p);;         (* z->key = p.fullName; *)
    push_payload z ref;;             (* z->payload.push_back(&p); *)
    set_parent z y;;                 (* z->parent = y; *)
    match y with
    | None => set_root (Some z)      (* if (!y) root = z; *)
    | Some ya =>
      yk ← get_key ya;               (* else if (p.fullName < y->key) *)
      if String.ltb (fullName p) yk then set_left ya (Some z)
      else set_right ya (Some z)
    end;;
    set_color z RED;;                (* z->color = RED; *)
    fixInsert z
  end.

(** ** Search *)

Fixpoint search_loop (fuel : nat) (name : string) (cur : option ptr)
  : M (list PassengerPtr) :=
  match cur with
  | None => mret []
  | Some c =>
    match fuel with
    | O => fail
    | S fuel =>
      k ← get_key c;
      if String.eqb name k then get_payload c
      else
        cur' ← (if String.ltb name k then get_left c else get_right c);
        search_loop fuel name cur'
    end
  end.

Definition search (name : string) : M (list PassengerPtr) :=
  fuel ← path_fuel;
  cur ← get_root;
  search_loop fuel name cur.

(** [for (const auto& p : data) rbt.insert(p)] *)
Fixpoint insert_all (ps : list (PassengerPtr * Passenger)) : M unit :=
  match ps with
  | [] => mret tt
  | (ref, p) :: ps => insert ref p;; insert_all ps
  end.

Definition build (data : list Passenger) : option RBTree :=
  snd <$> insert_all (refs data) empty.

(** ** Destruction *)

(** [delete n]: the node is freed; freeing what is not allocated is
    undefined. *)
Definition delete_node (x : ptr) : M unit := λ T,
  match heap T !! x with
  | Some _ => Some (tt, mkRBTree (root T) (base.delete x (heap T)))
  | None => None
  end.

(** [destroy(n)]; one unit of fuel per nested call. *)
Fixpoint destroy (fuel : nat) (n : option ptr) : M unit :=
  match fuel with
  | O => fail
  | S fuel =>
    match n with
    | None => mret tt                        (* if (!n) return; *)
    | Some a =>
        l ← get_left a; destroy fuel l;;     (* destroy(n->left); *)
        r ← get_right a; destroy fuel r;;    (* destroy(n->right); *)
        delete_node a                        (* delete n; *)
    end
  end.

(** [~RBTree()] *)
Definition destructor : M unit :=
  fuel ← path_fuel;
  r ← get_root;
  destroy fuel r.

(** ** The tree a heap represents *)

(** The shape reachable from [root] through [left] and [right], with the
    address, key, payload and colour of every node. *)
Inductive tree :=
| Leaf
| Node (c : Color) (l : tree) (a : ptr) (k : string)
       (pl : list PassengerPtr) (r : tree).

Definition tptr (t : tree) : option ptr :=
  match t with
  | Leaf => None
  | Node _ _ a _ _ _ => Some a
  end.

(** A null link counts as black. *)
Definition tcolor (t : tree) : Color :=
  match t with
  | Leaf => BLACK
  | Node c _ _ _ _ _ => c
  end.

Fixpoint addrs (t : tree) : list ptr :=
  match t with
  | Leaf => []
  | Node _ l a _ _ r => addrs l ++ a :: addrs r
  end.

(** In-order list of the entries (key, payload). *)
Fixpoint entries (t : tree) : list (string * list PassengerPtr) :=
  match t with
  | Leaf => []
  | Node _ l _ k pl r => entries l ++ (k, pl) :: entries r
  end.

Definition keys (t : tree) : list string := (entries t).*1.

Fixpoint height (t : tree) : nat :=
  match t with
  | Leaf => 0
  | Node _ l _ _ _ r => S (height l `max` height r)
  end.

(** [repr h par t]: in heap [h] the node at the root of [t] has parent link
    [par], and every node of [t] holds exactly the fields [t] records, its
    children linking back to it. *)
Fixpoint repr (h : gmap nat RBTNode) (par : option ptr) (t : tree) : Prop :=
  match t with
  | Leaf => True
  | Node c l a k pl r =>
      h !! a = Some (mkRBTNode k pl c par (tptr l) (tptr r))
      ∧ repr h (Some a) l ∧ repr h (Some a) r
  end.

(** The object represents [t]. *)
Definition abstracts (T : RBTree) (t : tree) : Prop :=
  root T = tptr t ∧ repr (heap T) None t ∧ NoDup (addrs t).

(** ** The invariants of the specification, on the represented tree *)

(** (a) left subtree keys < node key < right subtree keys, at every node. *)
Fixpoint ordered (t : tree) : Prop :=
  match t with
  | Leaf => True
  | Node _ l _ k _ r =>
      ordered l ∧ ordered r
      ∧ Forall (λ k', key_lt k' k) (keys l)
      ∧ Forall (λ k', key_lt k k') (keys r)
  end.

(** (d) no red node has a red child (equivalently, a red parent). *)
Fixpoint no_red_red (t : tree) : Prop :=
  match t with
  | Leaf => True
  | Node c l _ _ _ r =>
      (c = RED → tcolor l = BLACK ∧ tcolor r = BLACK)
      ∧ no_red_red l ∧ no_red_red r
  end.

(** (e) every path from the root of [t] to a null link passes through [n]
    black nodes, and the same holds at every node below. *)
Fixpoint black_height (t : tree) (n : nat) : Prop :=
  match t with
  | Leaf => n = 0
  | Node RED l _ _ _ r => black_height l n ∧ black_height r n
  | Node BLACK l _ _ _ r =>
      match n with
      | O => False
      | S m => black_height l m ∧ black_height r m
      end
  end.

Definition red_black (t : tree) : Prop :=
  ordered t ∧ tcolor t = BLACK ∧ no_red_red t ∧ ∃ n, black_height t n.

(** The invariants of the object. *)
Definition RB_invariants (T : RBTree) : Prop :=
  ∃ t, abstracts T t ∧ red_black t.

(** ** Contexts: the path from a node up to the root *)

Inductive ctx :=
| Top
| InL (c : Color) (a : ptr) (k : string) (pl : list PassengerPtr)
      (r : tree) (up : ctx)     (* the hole is the left child of [a] *)
| InR (c : Color) (l : tree) (a : ptr) (k : string)
      (pl : list PassengerPtr) (up : ctx).  (* the hole is the right child *)

Fixpoint plug (C : ctx) (t : tree) : tree :=
  match C with
  | Top => t
  | InL c a k pl r up => plug up (Node c t a k pl r)
  | InR c l a k pl up => plug up (Node c l a k pl t)
  end.

(** The parent of the hole. *)
Definition cptr (C : ctx) : option ptr :=
  match C with
  | Top => None
  | InL _ a _ _ _ _ => Some a
  | InR _ _ a _ _ _ => Some a
  end.

(** The colour of the parent of the hole; a hole at the root has none, which
    counts as red so that a red node is never accepted there. *)
Definition ccolor (C : ctx) : Color :=
  match C with
  | Top => RED
  | InL c _ _ _ _ _ => c
  | InR c _ _ _ _ _ => c
  end.

Fixpoint caddrs (C : ctx) : list ptr :=
  match C with
  | Top => []
  | InL _ a _ _ r up => a :: addrs r ++ caddrs up
  | InR _ l a _ _ up => a :: addrs l ++ caddrs up
  end.

Fixpoint depth (C : ctx) : nat :=
  match C with
  | Top => 0
  | InL _ _ _ _ _ up => S (depth up)
  | InR _ _ _ _ _ up => S (depth up)
  end.

(** The root pointer of [plug C t] when the hole holds pointer [hole]. *)
Fixpoint croot (C : ctx) (hole : option ptr) : option ptr :=
  match C with
  | Top => hole
  | InL _ a _ _ _ up => croot up (Some a)
  | InR _ _ a _ _ up => croot up (Some a)
  end.

Fixpoint repr_ctx (h : gmap nat RBTNode) (C : ctx) (hole : option ptr) : Prop :=
  match C with
  | Top => True
  | InL c a k pl r up =>
      h !! a = Some (mkRBTNode k pl c (cptr up) hole (tptr r))
      ∧ repr h (Some a) r ∧ repr_ctx h up (Some a)
  | InR c l a k pl up =>
      h !! a = Some (mkRBTNode k pl c (cptr up) (tptr l) hole)
      ∧ repr h (Some a) l ∧ repr_ctx h up (Some a)
  end.

(** Entries to the left and to the right of the hole. *)
Fixpoint cleft (C : ctx) : list (string * list PassengerPtr) :=
  match C with
  | Top => []
  | InL _ _ _ _ _ up => cleft up
  | InR _ l _ k pl up => cleft up ++ entries l ++ [(k, pl)]
  end.

Fixpoint cright (C : ctx) : list (string * list PassengerPtr) :=
  match C with
  | Top => []
  | InL _ _ k pl r up => (k, pl) :: entries r ++ cright up
  | InR _ _ _ _ _ up => cright up
  end.

(** What the colours of a context must satisfy for [plug C t] to be a
    red-black tree whenever [t] has black height [n]: at every node on the
    path the sibling subtree is balanced with the matching black height, and
    a red node on the path has a black sibling child and a black parent. *)
Fixpoint ctx_inv (C : ctx) (n : nat) : Prop :=
  match C with
  | Top => True
  | InL c _ _ _ r up =>
      no_red_red r ∧ black_height r n ∧
      match c with
      | RED => tcolor r = BLACK ∧ ccolor up = BLACK ∧ ctx_inv up n
      | BLACK => ctx_inv up (S n)
      end
  | InR c l _ _ _ up =>
      no_red_red l ∧ black_height l n ∧
      match c with
      | RED => tcolor l = BLACK ∧ ccolor up = BLACK ∧ ctx_inv up n
      | BLACK => ctx_inv up (S n)
      end
  end.

(** The object represents [plug C t], seen from the subtree [t]. *)
Definition at_focus (T : RBTree) (C : ctx) (t : tree) : Prop :=
  root T = croot C (tptr t)
  ∧ repr_ctx (heap T) C (tptr t)
  ∧ repr (heap T) (cptr C) t
  ∧ NoDup (addrs t ++ caddrs C).

(** The key [name] belongs in the hole of [C]: it lies above every key to
    the left of the hole and below every key to its right. *)
Definition bounds (name : string) (C : ctx) : Prop :=
  Forall (λ e, key_lt e.1 name) (cleft C)
  ∧ Forall (λ e, key_lt name e.1) (cright C).

(** The search loop, on the represented tree. *)
Fixpoint tsearch (t : tree) (name : string) : list PassengerPtr :=
  match t with
  | Leaf => []
  | Node _ l _ k pl r =>
      if String.eqb name k then pl
      else if String.ltb name k then tsearch l name else tsearch r name
  end.

(** ** Specifications of member functions

    [wp m T Q]: run on the object [T], the member function [m] returns a
    value [a] and leaves an object [T'] with [Q a T']; in particular it does
    not fail. *)
Definition wp {A} (m : M A) (T : RBTree) (Q : A → RBTree → Prop) : Prop :=
  ∃ a T', m T = Some (a, T') ∧ Q a T'.

(** What [fixInsert]'s loop establishes: the object represents a tree with
    the given entries, free of red-red edges and balanced; only its root may
    still be red. *)
Definition fix_post (es : list (string * list PassengerPtr))
    (_ : unit) (T' : RBTree) : Prop :=
  ∃ t', abstracts T' t' ∧ no_red_red t' ∧ (∃ m, black_height t' m)
        ∧ entries t' = es.

(** What the descent of [insert] returns: either the key was found at
    some node, whose payload grew by [ref]; or the descent fell off the tree
    at a null link where [name] belongs. *)
Definition descend_post (name : string) (ref : PassengerPtr) (T : RBTree)
    (t : tree) (res : unit + option ptr) (T' : RBTree) : Prop :=
  match res with
  | inl _ =>
      ∃ C c l a pl r,
        t = plug C (Node c l a name pl r)
        ∧ T' = mkRBTree (root T)
                 (<[a := mkRBTNode name (pl ++ [ref]) c (cptr C) (tptr l) (tptr r)]>
                    (heap T))
        ∧ abstracts T' (plug C (Node c l a name (pl ++ [ref]) r))
  | inr y => T' = T ∧ ∃ C, t = plug C Leaf ∧ y = cptr C ∧ bounds name C
  end.

(** What one call of [insert] does to the represented tree. *)
Definition insert_post (t : tree) (ref : PassengerPtr) (name : string)
    (T' : RBTree) : Prop :=
  ∃ t', abstracts T' t' ∧ red_black t'
        ∧ ∀ key, assoc key (entries t')
                 = assoc key (entries t)
                   ++ (if String.eqb name key then [ref] else []).

(** The member function [m] allocates and frees nothing. *)
Definition keeps_nodes {A} (m : M A) : Prop :=
  ∀ T a T', m T = Some (a, T') → dom (heap T') = dom (heap T).

(** The object represents [t] and has no node allocated outside it. *)
Definition owns (T : RBTree) (t : tree) : Prop :=
  abstracts T t ∧ size (heap T) = length (addrs t).

End Rbt.


(* ===================================================================== *)
(** * Chained hash table                                                 *)
(* ===================================================================== *)

Module Hash.

(** [size_t] arithmetic: 64 bits, wrapping. *)
Definition size_t_modulus : Z := 2 ^ 64.
Definition wrap (z : Z) : Z := z mod size_t_modulus.
Global Arguments wrap : simpl never.

(** A chain node; the [next] link is the rest of the list it heads. *)
Record Bucket := mkBucket {
  key : string;
  payload : list PassengerPtr
}.

(** A [Bucket*] heading a chain: the list of its nodes; [nullptr] is []. *)
Abbreviation Chain := (list Bucket).

Record HashTable := mkHashTable {
  table : list Chain;
  collisions : Z
}.

(** [HashTable(nBuckets)] *)
Definition new (nBuckets : nat) : HashTable :=
  mkHashTable (replicate nBuckets []) 0.

(** The scan of [insert] along a non-empty chain: append to the entry of
    [name], or link a new entry after the last node. *)
Fixpoint chain_insert (cur : Chain) (name : string) (ref : PassengerPtr)
  : Chain :=
  match cur with
  | [] => [mkBucket name ([] ++ [ref])]
  | b :: rest =>
      if String.eqb (key b) name then mkBucket (key b) (payload b ++ [ref]) :: rest
      else b :: chain_insert rest name ref
  end.

(** The scan of [search]. *)
Fixpoint chain_search (cur : Chain) (name : string) : list PassengerPtr :=
  match cur with
  | [] => []
  | b :: rest =>
      if String.eqb (key b) name then payload b else chain_search rest name
  end.

Section with_char.
(** Whether plain [char] is signed is implementation-defined (it is on
    x86, it is not on ARM); the table is modelled for both. *)
Variable char_signed : bool.

(** [static_cast<size_t>(c)] *)
Definition char_to_size_t (c : ascii) : Z :=
  let b := Z.of_N (N_of_ascii c) in
  if char_signed && (128 <=? b)%Z then wrap (b - 256) else b.

(** One step of the loop of [hashStr]. *)
Definition hash_step (md : Z) (h : Z) (c : ascii) : Z :=
  (wrap (h * 31 + char_to_size_t c) mod md)%Z.

(** [hashStr(s, mod)].  The loop body runs once per character; the
    remainder by zero it would take for [mod = 0] is undefined. *)
Definition hashStr (s : string) (md : Z) : option Z :=
  match s with
  | EmptyString => Some 0%Z
  | String _ _ =>
      if (md =? 0)%Z then None
      else Some (fold_left (hash_step md) (list_ascii_of_string s) 0%Z)
  end.

(** [hashStr(name, table.size())] followed by [table[idx]]. *)
Definition bucket_of (name : string) (ht : HashTable)
  : option (nat * Chain) :=
  idx ← hashStr name (Z.of_nat (length (table ht)));
  cur ← table ht !! Z.to_nat idx;
  Some (Z.to_nat idx, cur).

Definition insert (ref : PassengerPtr) (p : Passenger) (ht : HashTable)
  : option HashTable :=
  '(idx, cur) ← bucket_of (fullName p) ht;
  match cur with
  | [] =>
      Some (mkHashTable
              (<[idx := [mkBucket (fullName p) ([] ++ [ref])]]> (table ht))
              (collisions ht))
  | _ :: _ =>
      Some (mkHashTable
              (<[idx := chain_insert cur (fullName p) ref]> (table ht))
              (wrap (collisions ht + 1)))
  end.

Definition search (name : string) (ht : HashTable)
  : option (list PassengerPtr) :=
  '(idx, cur) ← bucket_of name ht;
  Some (chain_search cur name).

Definition collisionCount (ht : HashTable) : Z := collisions ht.

(** [for (const auto& p : data) ht.insert(p)] *)
Fixpoint insert_all (ps : list (PassengerPtr * Passenger)) (ht : HashTable)
  : option HashTable :=
  match ps with
  | [] => Some ht
  | (ref, p) :: ps => ht' ← insert ref p ht; insert_all ps ht'
  end.

Definition build (nBuckets : nat) (data : list Passenger)
  : option HashTable :=
  insert_all (refs data) (new nBuckets).

(** Every entry lies in the chain of the bucket its key hashes to, and no
    chain holds a key twice. *)
Definition chains_ok (ht : HashTable) : Prop :=
  ∀ i c, table ht !! i = Some c →
    NoDup (key <$> c)
    ∧ ∀ k, k ∈ key <$> c →
           hashStr k (Z.of_nat (length (table ht))) = Some (Z.of_nat i).
End with_char.

(** Whether a bucket heads a chain, and the number of buckets that do. *)
Definition occupied_bucket (c : list Bucket) : bool :=
  match c with
  | [] => false
  | _ :: _ => true
  end.

Definition occupied (ht : HashTable) : nat :=
  length (List.filter occupied_bucket (table ht)).

(** The hash function as the specification words it: a polynomial rolling
    hash over the bytes of the key, multiplier 31, reduced modulo the bucket
    count at each step, on unbounded integers. *)
Definition hash_spec (s : string) (bucketCount : Z) : Z :=
  fold_left (λ h c, ((h * 31 + Z.of_N (N_of_ascii c)) mod bucketCount)%Z)
            (list_ascii_of_string s) 0%Z.

(** The entries of the table: the keys along every chain. *)
Definition entry_keys (ht : HashTable) : list (list string) :=
  (λ c : list Bucket, key <$> c) <$> table ht.

(** Number of entries in the table. *)
Definition entry_count (ht : HashTable) : nat :=
  length (concat (table ht)).

End Hash.

(* ===================================================================== *)
(** * Data generator                                                     *)
(* ===================================================================== *)

Section Generator.
(** [std::mt19937]: the state of the engine.  [rng()] returns the next
    32-bit output and advances the engine. *)
Context {Rng : Type}.
Variable rng_next : Rng → Z * Rng.

(** [std::uniform_int_distribution(lo, hi)(rng)]: how the distribution
    maps engine outputs to [lo .. hi] is left to the library. *)
Variable uniform_int : Z → Z → Rng → Z * Rng.

(** ['a' .. 'z'] *)
Fixpoint randomString (len : nat) (rng : Rng) : string * Rng :=
  match len with
  | O => (EmptyString, rng)
  | S len =>
      let '(c, rng) := uniform_int 97 122 rng in
      let '(s, rng) := randomString len rng in
      (String (ascii_of_N (Z.to_N c)) s, rng)
  end.

(** [std::max<size_t>(10, n / 20)] *)
Definition uniqueCnt (n : nat) : nat := 10 `max` (n / 20).

(** The first loop of [makeData]: [cnt] strings of length 10. *)
Fixpoint fill_pool (cnt : nat) (rng : Rng) : list string * Rng :=
  match cnt with
  | O => ([], rng)
  | S cnt =>
      let '(s, rng) := randomString 10 rng in
      let '(pool, rng) := fill_pool cnt rng in
      (s :: pool, rng)
  end.

Definition types : list string := ["Lux"; "1"; "2"; "3"]%string.

(** The body of the second loop: one record.  Indexing [pool] or [types]
    out of range is undefined. *)
Definition make_passenger (pool : list string) (rng : Rng)
  : option (Passenger * Rng) :=
  let '(r, rng) := rng_next rng in
  name ← pool !! Z.to_nat (r mod Z.of_nat (length pool));
  let '(cabin, rng) := uniform_int 1 1000 rng in
  let '(ti, rng) := uniform_int 0 3 rng in
  ty ← types !! Z.to_nat ti;
  let '(port, rng) := randomString 6 rng in
  Some (mkPassenger name cabin ty port, rng).

Fixpoint fill_data (n : nat) (pool : list string) (rng : Rng)
  : option (list Passenger * Rng) :=
  match n with
  | O => Some ([], rng)
  | S n =>
      '(p, rng) ← make_passenger pool rng;
      '(v, rng) ← fill_data n pool rng;
      Some (p :: v, rng)
  end.

Definition makeData (n : nat) (rng : Rng) : option (list Passenger * Rng) :=
  let '(pool, rng) := fill_pool (uniqueCnt n) rng in
  fill_data n pool rng.
End Generator.

(* ===================================================================== *)
(** * The benchmark and its report                                       *)
(* ===================================================================== *)

Module Bench.

Record ResultRow := mkResultRow {
  size : Z;
  tLinear : Z;
  tBST : Z;
  tRBT : Z;
  tHash : Z;
  tMultimap : Z;
  collisions : Z
}.

(** The sizes [main] iterates over. *)
Definition sizes : list Z :=
  [100; 1000; 5000; 10000; 50000; 100000; 200000; 500000; 750000; 1000000]%Z.

Definition csv_header : string :=
  "size,linear_us,bst_us,rbt_us,hash_us,multimap_us,collisions".

Section Main.
Context {Rng : Type}.
Variable rng_next : Rng → Z * Rng.
Variable uniform_int : Z → Z → Rng → Z * Rng.
Variable char_signed : bool.

(** [std::chrono::steady_clock]: the value, in nanoseconds, of the [i]-th
    reading of the clock since the program started. *)
Variable clock : nat → Z.

(** [operator<<] for a [double] holding a nanosecond count. *)
Variable show_double : Z → string.

(** What [main] changes: the engine, the number of clock readings made,
    and the text written to [search_times.csv]. *)
Record World := mkWorld {
  w_rng : Rng;
  w_ticks : nat;
  w_csv : string
}.

(** [timeIt(f)]: two readings of the clock around the call; their
    difference in nanoseconds. *)
Definition timeIt (w : World) : Z * World :=
  (clock (S (w_ticks w)) - clock (w_ticks w),
   mkWorld (w_rng w) (S (S (w_ticks w))) (w_csv w))%Z.

(** The body of the loop over [sizes]. *)
Definition measure (n : Z) (w : World) : option (ResultRow * World) :=
  '(data, rng) ← makeData rng_next uniform_int (Z.to_nat n) (w_rng w);
  let '(i, rng) := uniform_int 0 (n - 1) rng in
  p ← data !! Z.to_nat i;
  let key := fullName p in
  let w := mkWorld rng (w_ticks w) (w_csv w) in
  let _ := linearSearch data key in
  let '(tLin, w) := timeIt w in
  bst ← Bst.build data;
  let _ := Bst.search bst key in
  let '(tBST, w) := timeIt w in
  rbt ← Rbt.build data;
  _ ← Rbt.search key rbt;
  let '(tRBT, w) := timeIt w in
  ht ← Hash.build char_signed (Z.to_nat (n * 2 + 1)) data;
  _ ← Hash.search char_signed key ht;
  let '(tHash, w) := timeIt w in
  let colls := Hash.collisionCount ht in
  let '(tMulti, w) := timeIt w in
  Some (mkResultRow n tLin tBST tRBT tHash tMulti colls, w).

Fixpoint measure_all (ns : list Z) (w : World)
  : option (list ResultRow * World) :=
  match ns with
  | [] => Some ([], w)
  | n :: ns =>
      '(r, w) ← measure n w;
      '(rows, w) ← measure_all ns w;
      Some (r :: rows, w)
  end.

(** One line of the report. *)
Definition row_line (r : ResultRow) : string :=
  pretty (size r) +:+ "," +:+ show_double (tLinear r) +:+ ","
  +:+ show_double (tBST r) +:+ "," +:+ show_double (tRBT r) +:+ ","
  +:+ show_double (tHash r) +:+ "," +:+ show_double (tMultimap r) +:+ ","
  +:+ pretty (collisions r) +:+ String "010" EmptyString.

(** The stream [csv] after the header and the rows have been written to
    it, [out] being what it held before. *)
Definition write_csv (rows : list ResultRow) (out : string) : string :=
  fold_left (λ out r, out +:+ row_line r) rows
            (out +:+ csv_header +:+ String "010" EmptyString).

(** The text of the report for given rows: the header line, then one
    line per row. *)
Definition csv_text (rows : list ResultRow) : string :=
  csv_header +:+ String "010" EmptyString
  +:+ foldr (λ r s, row_line r +:+ s) EmptyString rows.

(** The five measurements of a row against the readings of the clock,
    the first of which is reading number [t]. *)
Definition measured (t : nat) (r : ResultRow) : Prop :=
  (tLinear r = clock (t + 1) - clock t
   ∧ tBST r = clock (t + 3) - clock (t + 2)
   ∧ tRBT r = clock (t + 5) - clock (t + 4)
   ∧ tHash r = clock (t + 7) - clock (t + 6)
   ∧ tMultimap r = clock (t + 9) - clock (t + 8))%Z.

(** What a row of the report records for size [n], the clock having been
    read [t] times before: the size, the five measurements, and the
    collision count of the hash table built from the data of that size. *)
Definition row_ok (t : nat) (n : Z) (r : ResultRow) : Prop :=
  size r = n ∧ measured t r
  ∧ ∃ data ht, length data = Z.to_nat n
               ∧ Hash.build char_signed (Z.to_nat (n * 2 + 1)) data = Some ht
               ∧ collisions r = Hash.collisionCount ht.

(** The row the loop body pushes for size [n] when the clock has been
    read [t] times before and the table counted [colls] collisions. *)
Definition row_at (t : nat) (n colls : Z) : ResultRow :=
  (mkResultRow n
     (clock (t + 1) - clock t)
     (clock (t + 3) - clock (t + 2))
     (clock (t + 5) - clock (t + 4))
     (clock (t + 7) - clock (t + 6))
     (clock (t + 9) - clock (t + 8))
     colls)%Z.

(** [rows] are the rows of the loop over [ns] entered with engine [rng]
    after [t] readings of the clock: for each size the data are those
    [makeData] returns on the engine as the loop has left it, the table is
    built from these data with [2n+1] buckets, and [pick(rng)] advances the
    engine once more. *)
Fixpoint loop_rows (ns : list Z) (rng : Rng) (t : nat)
    (rows : list ResultRow) : Prop :=
  match ns, rows with
  | [], [] => True
  | n :: ns, r :: rows =>
      ∃ data rng1 ht,
        makeData rng_next uniform_int (Z.to_nat n) rng = Some (data, rng1)
        ∧ Hash.build char_signed (Z.to_nat (n * 2 + 1)) data = Some ht
        ∧ r = row_at t n (Hash.collisionCount ht)
        ∧ loop_rows ns (uniform_int 0 (n - 1) rng1).2 (t + 10) rows
  | _, _ => False
  end.

(** [main]; opening [search_times.csv] for writing empties it. *)
Definition main (w : World) : option World :=
  '(rows, w) ← measure_all sizes w;
  Some (mkWorld (w_rng w) (w_ticks w) (write_csv rows EmptyString)).
End Main.

End Bench.


(* ===================================================================== *)
(** * Printing a [double]                                                *)
(* ===================================================================== *)

(** [timeIt] returns the nanosecond count, a 64-bit integer, as a
    [double], and [main] writes it with [operator<<] and the stream's
    defaults: the conversion [%g] with precision 6.  Both are modelled on
    integers, which is what the values are. *)

(** [q + r/d] rounded to the nearest integer, a tie going to the even
    one. *)
Definition round_half_even (q r d : Z) : Z :=
  (if 2 * r <? d then q
   else if d <? 2 * r then q + 1
   else if Z.even q then q else q + 1)%Z.

(** The value of the [double] nearest to the integer [z]: [z] itself below
    [2^53], otherwise [z] rounded to 53 significant bits. *)
Definition double_of_count (z : Z) : Z :=
  (let a := Z.abs z in
   if a <? 2 ^ 53 then z
   else
     let d := 2 ^ (Z.log2 a - 52) in
     Z.sgn z * (round_half_even (a / d) (a mod d) d * d))%Z.

(** The decimal exponent of [v >= 1]: the number of its digits less one. *)
Fixpoint exp10 (fuel : nat) (v : Z) : Z :=
  match fuel with
  | O => 0
  | S fuel => if (v <? 10)%Z then 0%Z else (1 + exp10 fuel (v / 10))%Z
  end.

Definition exponent (v : Z) : Z := exp10 (S (Z.to_nat (Z.log2 v))) v.

(** [v >= 10^6] rounded to six significant digits: the six digits as a
    number, and the decimal exponent of the first of them. *)
Definition six_digits (v : Z) : Z * Z :=
  (let e := exponent v in
   let d := 10 ^ (e - 5) in
   let m := round_half_even (v / d) (v mod d) d in
   if m =? 10 ^ 6 then (10 ^ 5, e + 1) else (m, e))%Z.

(** The last [width] digits of [f], leading zeros included. *)
Fixpoint fixed_digits (width : nat) (f : Z) : string :=
  match width with
  | O => EmptyString
  | S width => fixed_digits width (f / 10) +:+ pretty (f mod 10)%Z
  end.

(** [%g] drops the zeros that end the fraction. *)
Fixpoint strip_zeros (width : nat) (f : Z) : nat * Z :=
  match width with
  | O => (O, f)
  | S w => if (f mod 10 =? 0)%Z then strip_zeros w (f / 10)%Z else (width, f)
  end.

(** Style [e]: one digit, the fraction if any is left, and the exponent
    with its sign and at least two digits. *)
Definition scientific (m e : Z) : string :=
  (let '(w, f) := strip_zeros 5 (m mod 10 ^ 5) in
   pretty (m / 10 ^ 5)
   +:+ (match w with O => EmptyString | S _ => "." +:+ fixed_digits w f end)
   +:+ "e+" +:+ (if e <? 10 then "0" else EmptyString) +:+ pretty e)%Z.

(** [%g] with precision 6 on a [double] of integer value [v >= 0]: style
    [f] with nothing after the point while the exponent is below 6, style
    [e] otherwise. *)
Definition put_nonneg (v : Z) : string :=
  (if v <? 10 ^ 6 then pretty v
   else let '(m, e) := six_digits v in scientific m e)%Z.

(** [csv << t] for a time field holding the count [t]. *)
Definition put_double (t : Z) : string :=
  (let v := double_of_count t in
   if v <? 0 then "-" +:+ put_nonneg (- v) else put_nonneg v)%Z.
(* ===================================================================== *)
(** * Sample inputs                                                      *)
(* ===================================================================== *)

Definition alice : Passenger := mkPassenger "alice" 7 "Lux" "riga".
Definition bob : Passenger := mkPassenger "bob" 12 "2" "oslo".
Definition alice' : Passenger := mkPassenger "alice" 40 "3" "kiel".

(** The end-to-end scenario of the specification. *)
Definition sample_data : list Passenger := [alice; bob; alice'].

(** A red-black tree with one node, and the tree it represents. *)
Definition one_node : Rbt.RBTree :=
  Rbt.mkRBTree (Some 0)
    {[ 0 := Rbt.mkRBTNode "alice" [0] Rbt.BLACK None None None ]}.

Definition one_node_tree : Rbt.tree :=
  Rbt.Node Rbt.BLACK Rbt.Leaf 0 "alice" [0] Rbt.Leaf.

(** An engine whose outputs repeat, with a distribution that returns the
    low end of its range. *)
Definition stuck_next (g : unit) : Z * unit := (0%Z, g).
Definition stuck_uniform (lo hi : Z) (g : unit) : Z * unit := (lo, g).


(* ===================================================================== *)
(** * Sorted entry lists                                                 *)
(* ===================================================================== *)

(** Adding a reference under [name] to a list of entries sorted by key:
    appended to the payload of the entry of [name] when there is one, a new
    entry at the place of [name] in the order otherwise. *)
Fixpoint entries_insert (name : string) (ref : PassengerPtr)
    (es : list (string * list PassengerPtr))
  : list (string * list PassengerPtr) :=
  match es with
  | [] => [(name, [ref])]
  | (k, pl) :: es' =>
      if String.eqb name k then (k, pl ++ [ref]) :: es'
      else if String.ltb name k then (name, [ref]) :: (k, pl) :: es'
      else (k, pl) :: entries_insert name ref es'
  end.

(** The entries of a data vector: what inserting its records one after the
    other leaves in an empty list. *)
Definition entries_of (ps : list (PassengerPtr * Passenger))
  : list (string * list PassengerPtr) :=
  fold_left (λ es rp, entries_insert (fullName rp.2) rp.1 es) ps [].

(** A character in ['a' .. 'z']. *)
Definition lowercase (c : ascii) : Prop :=
  (97 ≤ Z.of_N (N_of_ascii c) ≤ 122)%Z.

(** What every generated record satisfies, its key apart: a cabin number
    in [1 .. 1000], one of the four cabin types, a port of six lowercase
    letters. *)
Definition record_ok (p : Passenger) : Prop :=
  (1 ≤ cabinNumber p ≤ 1000)%Z
  ∧ cabinType p ∈ types
  ∧ String.length (destinationPort p) = 6
  ∧ Forall lowercase (list_ascii_of_string (destinationPort p)).

(** A red-black tree with a black root and a red right child, and the tree
    it represents. *)
Definition two_nodes : Rbt.RBTree :=
  Rbt.mkRBTree (Some 0)
    (<[ 0 := Rbt.mkRBTNode "alice" [0] Rbt.BLACK None None (Some 1) ]>
       {[ 1 := Rbt.mkRBTNode "bob" [1] Rbt.RED (Some 0) None None ]}).

Definition two_nodes_tree : Rbt.tree :=
  Rbt.Node Rbt.BLACK Rbt.Leaf 0 "alice" [0]
    (Rbt.Node Rbt.RED Rbt.Leaf 1 "bob" [1] Rbt.Leaf).

(** The same two nodes after a left rotation at the root. *)
Definition two_nodes_rotated : Rbt.RBTree :=
  Rbt.mkRBTree (Some 1)
    (<[ 0 := Rbt.mkRBTNode "alice" [0] Rbt.BLACK (Some 1) None None ]>
       {[ 1 := Rbt.mkRBTNode "bob" [1] Rbt.RED None (Some 0) None ]}).

Definition two_nodes_rotated_tree : Rbt.tree :=
  Rbt.Node Rbt.RED
    (Rbt.Node Rbt.BLACK Rbt.Leaf 0 "alice" [0] Rbt.Leaf) 1 "bob" [1] Rbt.Leaf.
(* ===================================================================== *)
(** * Facts about keys                                                    *)
(* ===================================================================== *)

Lemma ltb_compare a b : String.ltb a b = true ↔ String.compare a b = Lt.
Proof. unfold String.ltb. destruct (String.compare a b); split; congruence. Qed.

Lemma key_lt_OT a b : key_lt a b ↔ String_as_OT.lt a b.
Proof. unfold key_lt. rewrite ltb_compare. apply String_as_OT.cmp_lt. Qed.

Lemma key_lt_trans a b c : key_lt a b → key_lt b c → key_lt a c.
Proof. rewrite !key_lt_OT. apply String_as_OT.lt_trans. Qed.

Lemma key_lt_irrefl a : ¬ key_lt a a.
Proof. rewrite key_lt_OT. intros H. by apply String_as_OT.lt_not_eq in H. Qed.

Lemma key_lt_ne a b : key_lt a b → a ≠ b.
Proof. intros H ->. by apply key_lt_irrefl in H. Qed.

Lemma key_ltb_false a b : a ≠ b → String.ltb a b = false → key_lt b a.
Proof.
  intros Hne Hf. unfold key_lt. rewrite ltb_compare.
  rewrite String.compare_antisym.
  unfold String.ltb in Hf. destruct (String.compare a b) eqn:E; try done.
  by apply String.compare_eq_iff in E.
Qed.

Lemma key_lt_asym a b : key_lt a b → String.ltb b a = false.
Proof.
  intros H. destruct (String.ltb b a) eqn:E; [|done].
  exfalso. apply (key_lt_irrefl a). by eapply key_lt_trans.
Qed.

Lemma eqb_false_ne a b : String.eqb a b = false → a ≠ b.
Proof. by intros H%String.eqb_neq. Qed.

(* ===================================================================== *)
(** * Facts about entry lists                                             *)
(* ===================================================================== *)

Lemma assoc_notin key es : key ∉ es.*1 → assoc key es = [].
Proof.
  induction es as [|[k pl] es IH]; cbn; [done|].
  rewrite not_elem_of_cons. intros [Hne Hn].
  apply String.eqb_neq in Hne. rewrite Hne. auto.
Qed.

Lemma assoc_app_notin key l1 l2 :
  key ∉ l1.*1 → assoc key (l1 ++ l2) = assoc key l2.
Proof.
  induction l1 as [|[k pl] l1 IH]; cbn; [done|].
  rewrite not_elem_of_cons. intros [Hne Hn].
  apply String.eqb_neq in Hne. rewrite Hne. auto.
Qed.

Lemma assoc_app_in key l1 l2 :
  key ∈ l1.*1 → assoc key (l1 ++ l2) = assoc key l1.
Proof.
  induction l1 as [|[k pl] l1 IH]; cbn; [by intros ?%elem_of_nil|].
  rewrite elem_of_cons. destruct (String.eqb_spec key k); [done|].
  intros [?|?]; [done|auto].
Qed.

(** Appending a reference to the payload of the entry of [name]. *)
Lemma assoc_push name ref pl el er key :
  name ∉ el.*1 →
  assoc key (el ++ (name, pl ++ [ref]) :: er)
  = assoc key (el ++ (name, pl) :: er)
    ++ (if String.eqb name key then [ref] else []).
Proof.
  intros Hn. destruct (String.eqb_spec name key) as [<-|Hne].
  - rewrite !assoc_app_notin by done. cbn. by rewrite String.eqb_refl.
  - rewrite app_nil_r. induction el as [|[k' pl'] el IH]; cbn.
    + apply not_eq_sym, String.eqb_neq in Hne. by rewrite Hne.
    + cbn in Hn. rewrite not_elem_of_cons in Hn. destruct Hn as [_ Hn].
      destruct (String.eqb key k'); auto.
Qed.

(** Adding an entry for a key that has none. *)
Lemma assoc_new name ref el er key :
  name ∉ (el ++ er).*1 →
  assoc key (el ++ (name, [ref]) :: er)
  = assoc key (el ++ er) ++ (if String.eqb name key then [ref] else []).
Proof.
  intros Hn. destruct (String.eqb_spec name key) as [<-|Hne].
  - rewrite (assoc_notin _ _ Hn).
    rewrite fmap_app, not_elem_of_app in Hn. destruct Hn as [Hl Hr].
    rewrite assoc_app_notin by done. cbn. by rewrite String.eqb_refl.
  - rewrite app_nil_r. clear Hn. induction el as [|[k' pl'] el IH]; cbn.
    + apply not_eq_sym, String.eqb_neq in Hne. by rewrite Hne.
    + destruct (String.eqb key k'); auto.
Qed.

Lemma matches_app key ps qs :
  matches key (ps ++ qs) = matches key ps ++ matches key qs.
Proof.
  induction ps as [|[ref p] ps IH]; cbn; [done|].
  destruct (String.eqb (fullName p) key); cbn; by rewrite IH.
Qed.

Lemma matches_snoc key ps ref p :
  matches key (ps ++ [(ref, p)])
  = matches key ps ++ (if String.eqb (fullName p) key then [ref] else []).
Proof. rewrite matches_app. cbn. by destruct (String.eqb (fullName p) key). Qed.

Lemma matches_absent key ps : key ∉ (fullName ∘ snd) <$> ps → matches key ps = [].
Proof.
  induction ps as [|[ref p] ps IH]; cbn; [done|].
  rewrite not_elem_of_cons. intros [Hne Hn].
  apply not_eq_sym, String.eqb_neq in Hne. rewrite Hne. auto.
Qed.

(** Sorted key lists. *)
Lemma sorted_insert (cl cr : list string) name :
  StronglySorted key_lt (cl ++ cr) →
  Forall (λ k, key_lt k name) cl → Forall (λ k, key_lt name k) cr →
  StronglySorted key_lt (cl ++ name :: cr).
Proof.
  rewrite !StronglySorted_app, StronglySorted_cons, !Forall_forall.
  intros (Hx & Hl & Hr) Hcl Hcr. split_and!; try done.
  intros x1 x2 H1 [->|H2]%elem_of_cons; auto.
Qed.

Lemma sorted_middle (l r : list string) k :
  StronglySorted key_lt (l ++ k :: r) ↔
  StronglySorted key_lt l ∧ StronglySorted key_lt r
  ∧ Forall (λ k', key_lt k' k) l ∧ Forall (λ k', key_lt k k') r.
Proof.
  rewrite StronglySorted_app, StronglySorted_cons, !Forall_forall. split.
  - intros (Hx & Hl & Hkr & Hr). split_and!; try done.
    intros x Hxl. apply Hx; [done|]. by left.
  - intros (Hl & Hr & Hlk & Hkr). split_and!; try done.
    intros x1 x2 H1 [->|H2]%elem_of_cons; [by auto|].
    eapply key_lt_trans; eauto.
Qed.

Lemma sorted_notin (cl cr : list string) name :
  Forall (λ k, key_lt k name) cl → Forall (λ k, key_lt name k) cr →
  name ∉ cl ++ cr.
Proof.
  rewrite !Forall_forall. intros Hl Hr [H|H]%elem_of_app.
  - by apply Hl, key_lt_irrefl in H.
  - by apply Hr, key_lt_irrefl in H.
Qed.

Lemma sorted_NoDup (l : list string) : StronglySorted key_lt l → NoDup l.
Proof.
  induction 1 as [|x l Hs IH Hx]; constructor; [|done].
  rewrite Forall_forall in Hx. by intros ?%Hx%key_lt_irrefl.
Qed.

(* ===================================================================== *)
(** * Facts about linear search                                          *)
(* ===================================================================== *)

Lemma linearSearch_from_matches arr : ∀ i key idx,
  linearSearch_from i arr key idx = idx ++ matches key (refs_from i arr).
Proof.
  induction arr as [|p arr IH]; intros i key idx; cbn.
  - by rewrite app_nil_r.
  - rewrite IH. fold (refs_from (S i) arr).
    destruct (String.eqb (fullName p) key); [|done].
    by rewrite <-app_assoc.
Qed.

Lemma linearSearch_matches arr key :
  linearSearch arr key = matches key (refs arr).
Proof. apply (linearSearch_from_matches arr 0 key []). Qed.

Lemma matches_filter arr : ∀ i key,
  matches key (refs_from i arr)
  = List.filter (λ j, has_key arr key (j - i)) (seq i (length arr)).
Proof.
  induction arr as [|p arr IH]; intros i key; cbn; [done|].
  fold (refs_from (S i) arr). rewrite IH, Nat.sub_diag.
  change (has_key (p :: arr) key 0) with (String.eqb (fullName p) key).
  assert (List.filter (λ j, has_key arr key (j - S i)) (seq (S i) (length arr))
          = List.filter (λ j, has_key (p :: arr) key (j - i)) (seq (S i) (length arr)))
    as ->; [|done].
  apply List.filter_ext_in. intros j [Hj _]%in_seq.
  unfold has_key. replace (j - i) with (S (j - S i)) by lia. done.
Qed.

Lemma linearSearch_filter arr key :
  linearSearch arr key = List.filter (has_key arr key) (seq 0 (length arr)).
Proof.
  rewrite linearSearch_matches. unfold refs. rewrite matches_filter.
  apply List.filter_ext. intros j. by rewrite Nat.sub_0_r.
Qed.

Lemma matches_absent_data key data :
  key ∉ fullName <$> data → matches key (refs data) = [].
Proof.
  intros Hn. apply matches_absent. intros Hin. apply Hn.
  apply list_elem_of_fmap in Hin as ([ref p] & -> & Hin).
  cbn. apply list_elem_of_fmap_2. unfold refs, refs_from in Hin.
  apply list_elem_of_lookup in Hin as [i Hi].
  apply lookup_zip_with_Some in Hi as (x & y & [= <- <-] & _ & Hy).
  by eapply list_elem_of_lookup_2.
Qed.

(* ===================================================================== *)
(** * Facts about the unbalanced tree                                    *)
(* ===================================================================== *)

Module BstFacts.
Import Bst.

Lemma height_insert_at t name ref : height (insert_at t name ref) ≤ S (height t).
Proof.
  induction t as [|k pl l IHl r IHr]; cbn; [lia|].
  destruct (String.eqb name k); cbn; [lia|].
  destruct (String.ltb name k); cbn; lia.
Qed.

(** The loop from a link that [or_new] has filled, against the recursion. *)
Lemma insert_loop_or_new fuel : ∀ name ref link,
  height link < fuel →
  insert_loop fuel name ref (or_new link name) = Some (insert_at link name ref).
Proof.
  induction fuel as [|fuel IH]; intros name ref link Hf; [lia|].
  destruct link as [|k pl l r]; cbn [or_new insert_loop insert_at].
  - by rewrite String.eqb_refl.
  - cbn in Hf. destruct (String.eqb name k); [done|].
    destruct (String.ltb name k).
    + rewrite IH by lia. done.
    + rewrite IH by lia. done.
Qed.

(** [insert] always returns, with the tree the recursion describes. *)
Lemma insert_total ref p t :
  insert ref p t = Some (insert_at t (fullName p) ref).
Proof.
  destruct t as [|k pl l r]; [done|]. unfold insert.
  apply (insert_loop_or_new _ _ _ (Node k pl l r)). lia.
Qed.

Lemma search_insert_at t name ref key :
  search (insert_at t name ref) key
  = search t key ++ (if String.eqb name key then [ref] else []).
Proof.
  induction t as [|k pl l IHl r IHr]; cbn.
  - rewrite (String.eqb_sym key name).
    by destruct (String.eqb name key), (String.ltb key name).
  - destruct (String.eqb_spec name k) as [->|Hnk]; cbn.
    + rewrite (String.eqb_sym k key).
      destruct (String.eqb key k); [done|].
      destruct (String.ltb key k); by rewrite app_nil_r.
    + destruct (String.ltb name k) eqn:Hlt; cbn.
      * destruct (String.eqb_spec key k) as [->|Hkk].
        { apply String.eqb_neq in Hnk. by rewrite Hnk, app_nil_r. }
        destruct (String.ltb key k) eqn:Hlt'; [done|].
        destruct (String.eqb_spec name key) as [->|]; [congruence|].
        by rewrite app_nil_r.
      * destruct (String.eqb_spec key k) as [->|Hkk].
        { apply String.eqb_neq in Hnk. by rewrite Hnk, app_nil_r. }
        destruct (String.ltb key k) eqn:Hlt'; [|done].
        destruct (String.eqb_spec name key) as [->|]; [congruence|].
        by rewrite app_nil_r.
Qed.

Lemma bst_insert_all_spec ps : ∀ t,
  ∃ t', insert_all ps t = Some t'
        ∧ ∀ key, search t' key = search t key ++ matches key ps.
Proof.
  induction ps as [|[ref p] ps IH]; intros t; cbn [insert_all].
  - exists t. split; [done|]. intros key. cbn. by rewrite app_nil_r.
  - rewrite insert_total. cbn.
    destruct (IH (insert_at t (fullName p) ref)) as (t' & Hrun & Hs).
    exists t'. split; [done|]. intros key.
    rewrite Hs, search_insert_at, <-app_assoc. f_equal. cbn.
    by destruct (String.eqb (fullName p) key).
Qed.

Lemma bst_build_spec data :
  ∃ t, build data = Some t ∧ ∀ key, search t key = matches key (refs data).
Proof.
  destruct (bst_insert_all_spec (refs data) empty) as (t & Hrun & Hs).
  exists t. split; [done|]. intros key. by rewrite Hs.
Qed.

End BstFacts.

Module RbtFacts.
Import Rbt.

(** *** Running the monad *)

Lemma bind_run {A B} (m : M A) (k : A → M B) T a T' :
  m T = Some (a, T') → (m ≫= k) T = k a T'.
Proof. intros H. unfold mbind, M_bind. by rewrite H. Qed.

Lemma load_run T x nd : heap T !! x = Some nd → load x T = Some (nd, T).
Proof. intros H. unfold load. by rewrite H. Qed.

(** *** Structure of plugged trees *)

Lemma tptr_plug C t : tptr (plug C t) = croot C (tptr t).
Proof. revert t. induction C; intros t; simpl; auto; by rewrite IHC. Qed.

Lemma addrs_plug C t : addrs (plug C t) ≡ₚ addrs t ++ caddrs C.
Proof.
  revert t. induction C as [|c a k pl r up IH|c l a k pl up IH]; intros t; simpl.
  - by rewrite app_nil_r.
  - rewrite IH. simpl. by rewrite <-app_assoc.
  - rewrite IH. simpl. rewrite <-!app_assoc. simpl.
    rewrite <-!Permutation_middle. apply perm_skip.
    apply Permutation_app_swap_app.
Qed.

Lemma entries_plug C t : entries (plug C t) = cleft C ++ entries t ++ cright C.
Proof.
  revert t. induction C as [|c a k pl r up IH|c l a k pl up IH]; intros t; simpl.
  - by rewrite app_nil_r.
  - rewrite IH. simpl. by rewrite <-!app_assoc.
  - rewrite IH. simpl. by rewrite <-!app_assoc.
Qed.

Lemma repr_plug h C t :
  repr h None (plug C t) ↔ repr h (cptr C) t ∧ repr_ctx h C (tptr t).
Proof.
  revert t. induction C as [|c a k pl r up IH|c l a k pl up IH]; intros t; simpl.
  - tauto.
  - rewrite IH. simpl. tauto.
  - rewrite IH. simpl. tauto.
Qed.

Lemma abstracts_focus T C t : abstracts T (plug C t) ↔ at_focus T C t.
Proof.
  unfold abstracts, at_focus.
  rewrite tptr_plug, repr_plug, addrs_plug. tauto.
Qed.

(** Moving the focus one node up or down does not change what is
    represented. *)
Lemma focus_up_l T c a k pl r up t :
  at_focus T (InL c a k pl r up) t ↔ at_focus T up (Node c t a k pl r).
Proof.
  split; intros H%abstracts_focus; apply abstracts_focus; exact H.
Qed.

Lemma focus_up_r T c l a k pl up t :
  at_focus T (InR c l a k pl up) t ↔ at_focus T up (Node c l a k pl t).
Proof.
  split; intros H%abstracts_focus; apply abstracts_focus; exact H.
Qed.

(** *** Frame lemmas *)

Lemma repr_frame h par t x nd :
  x ∉ addrs t → repr h par t → repr (<[x := nd]> h) par t.
Proof.
  revert par. induction t as [|c l IHl a k pl r IHr]; intros par Hx; simpl; [done|].
  intros (Ha & Hl & Hr). simpl in Hx.
  rewrite not_elem_of_app, not_elem_of_cons in Hx. destruct Hx as (? & ? & ?).
  split_and!; [by rewrite lookup_insert_ne| by apply IHl | by apply IHr].
Qed.

Lemma repr_ctx_frame h C hole x nd :
  x ∉ caddrs C → repr_ctx h C hole → repr_ctx (<[x := nd]> h) C hole.
Proof.
  revert hole. induction C as [|c a k pl r up IH|c l a k pl up IH];
    intros hole Hx; simpl; [done|..].
  - intros (Ha & Hr & Hup). simpl in Hx.
    rewrite not_elem_of_cons, not_elem_of_app in Hx. destruct Hx as (? & ? & ?).
    split_and!; [by rewrite lookup_insert_ne| by apply repr_frame | by apply IH].
  - intros (Ha & Hr & Hup). simpl in Hx.
    rewrite not_elem_of_cons, not_elem_of_app in Hx. destruct Hx as (? & ? & ?).
    split_and!; [by rewrite lookup_insert_ne| by apply repr_frame | by apply IH].
Qed.

Lemma croot_not_top C h1 h2 : C ≠ Top → croot C h1 = croot C h2.
Proof. by destruct C. Qed.

Lemma repr_lookup h par t x :
  repr h par t → x ∈ addrs t → is_Some (h !! x).
Proof.
  revert par. induction t as [|c l IHl a k pl r IHr]; intros par; simpl.
  - by intros _ ?%elem_of_nil.
  - intros (Ha & Hl & Hr). rewrite elem_of_app, elem_of_cons.
    intros [?|[->|?]]; eauto.
Qed.


(** *** Reading and writing the node in focus *)

Ltac split_nodup H :=
  simpl in H;
  repeat (rewrite NoDup_app in H || rewrite NoDup_cons in H).

Lemma focus_lookup T C c l a k pl r :
  at_focus T C (Node c l a k pl r) →
  heap T !! a = Some (mkRBTNode k pl c (cptr C) (tptr l) (tptr r)).
Proof. by intros (_ & _ & (Ha & _) & _). Qed.

Lemma focus_load T C c l a k pl r :
  at_focus T C (Node c l a k pl r) →
  load a T = Some (mkRBTNode k pl c (cptr C) (tptr l) (tptr r), T).
Proof. intros H. apply load_run. by eapply focus_lookup. Qed.

(** Replacing colour and payload of the node in focus. *)
Lemma focus_store T C c l a k pl r c' pl' :
  at_focus T C (Node c l a k pl r) →
  at_focus
    (mkRBTree (root T)
       (<[a := mkRBTNode k pl' c' (cptr C) (tptr l) (tptr r)]> (heap T)))
    C (Node c' l a k pl' r).
Proof.
  intros (Hroot & Hctx & (Ha & Hl & Hr) & Hnd).
  assert (Hnd' := Hnd). split_nodup Hnd'.
  unfold at_focus; simpl. split_and!; try done.
  - apply repr_ctx_frame; [set_solver|done].
  - by rewrite lookup_insert_eq.
  - apply repr_frame; [set_solver|done].
  - apply repr_frame; [set_solver|done].
Qed.

Lemma set_color_spec T C c l a k pl r c' :
  at_focus T C (Node c l a k pl r) →
  ∃ T', set_color a c' T = Some (tt, T')
        ∧ at_focus T' C (Node c' l a k pl r).
Proof.
  intros H. eexists. split.
  - unfold set_color. erewrite bind_run by (eapply focus_load; eassumption). reflexivity.
  - simpl. eapply focus_store. eassumption.
Qed.

Lemma push_payload_spec T C c l a k pl r ref :
  at_focus T C (Node c l a k pl r) →
  push_payload a ref T
  = Some (tt, mkRBTree (root T)
                (<[a := mkRBTNode k (pl ++ [ref]) c (cptr C) (tptr l) (tptr r)]>
                   (heap T)))
  ∧ at_focus
      (mkRBTree (root T)
         (<[a := mkRBTNode k (pl ++ [ref]) c (cptr C) (tptr l) (tptr r)]>
            (heap T)))
      C (Node c l a k (pl ++ [ref]) r).
Proof.
  intros H. split.
  - unfold push_payload. erewrite bind_run by (eapply focus_load; eassumption). reflexivity.
  - eapply focus_store. eassumption.
Qed.


(** *** Rotations *)

Lemma get_key_run T x nd :
  heap T !! x = Some nd → get_key x T = Some (key nd, T).
Proof. intros H. unfold get_key. by erewrite bind_run by by apply load_run. Qed.
Lemma get_payload_run T x nd :
  heap T !! x = Some nd → get_payload x T = Some (payload nd, T).
Proof. intros H. unfold get_payload. by erewrite bind_run by by apply load_run. Qed.
Lemma get_color_run T x nd :
  heap T !! x = Some nd → get_color x T = Some (color nd, T).
Proof. intros H. unfold get_color. by erewrite bind_run by by apply load_run. Qed.
Lemma get_parent_run T x nd :
  heap T !! x = Some nd → get_parent x T = Some (parent nd, T).
Proof. intros H. unfold get_parent. by erewrite bind_run by by apply load_run. Qed.
Lemma get_left_run T x nd :
  heap T !! x = Some nd → get_left x T = Some (left nd, T).
Proof. intros H. unfold get_left. by erewrite bind_run by by apply load_run. Qed.
Lemma get_right_run T x nd :
  heap T !! x = Some nd → get_right x T = Some (right nd, T).
Proof. intros H. unfold get_right. by erewrite bind_run by by apply load_run. Qed.

Lemma set_key_run T x nd v :
  heap T !! x = Some nd →
  set_key x v T
  = Some (tt, mkRBTree (root T)
                (<[x := mkRBTNode v (payload nd) (color nd) (parent nd)
                          (left nd) (right nd)]> (heap T))).
Proof. intros H. unfold set_key. by erewrite bind_run by by apply load_run. Qed.
Lemma push_payload_run T x nd v :
  heap T !! x = Some nd →
  push_payload x v T
  = Some (tt, mkRBTree (root T)
                (<[x := mkRBTNode (key nd) (payload nd ++ [v]) (color nd)
                          (parent nd) (left nd) (right nd)]> (heap T))).
Proof. intros H. unfold push_payload. by erewrite bind_run by by apply load_run. Qed.
Lemma set_color_run T x nd v :
  heap T !! x = Some nd →
  set_color x v T
  = Some (tt, mkRBTree (root T)
                (<[x := mkRBTNode (key nd) (payload nd) v (parent nd)
                          (left nd) (right nd)]> (heap T))).
Proof. intros H. unfold set_color. by erewrite bind_run by by apply load_run. Qed.
Lemma set_parent_run T x nd v :
  heap T !! x = Some nd →
  set_parent x v T
  = Some (tt, mkRBTree (root T)
                (<[x := mkRBTNode (key nd) (payload nd) (color nd) v
                          (left nd) (right nd)]> (heap T))).
Proof. intros H. unfold set_parent. by erewrite bind_run by by apply load_run. Qed.
Lemma set_left_run T x nd v :
  heap T !! x = Some nd →
  set_left x v T
  = Some (tt, mkRBTree (root T)
                (<[x := mkRBTNode (key nd) (payload nd) (color nd) (parent nd)
                          v (right nd)]> (heap T))).
Proof. intros H. unfold set_left. by erewrite bind_run by by apply load_run. Qed.
Lemma set_right_run T x nd v :
  heap T !! x = Some nd →
  set_right x v T
  = Some (tt, mkRBTree (root T)
                (<[x := mkRBTNode (key nd) (payload nd) (color nd) (parent nd)
                          (left nd) v]> (heap T))).
Proof. intros H. unfold set_right. by erewrite bind_run by by apply load_run. Qed.

(** Facts read off a duplicate-free list of addresses. *)
Lemma nodup_sub (L l : list ptr) : NoDup L → l ⊆+ L → NoDup l.
Proof.
  intros HL (k & Hk)%submseteq_Permutation. rewrite Hk in HL.
  by apply NoDup_app in HL as (? & _).
Qed.

Lemma nodup_notin (L : list ptr) x l : NoDup L → x :: l ⊆+ L → x ∉ l.
Proof. intros HL Hs. by apply (nodup_sub _ _ HL), NoDup_cons in Hs as [? _]. Qed.

Lemma nodup_ne (L : list ptr) x y : NoDup L → [x; y] ⊆+ L → x ≠ y.
Proof. intros HL Hs%(nodup_notin _ _ _ HL). set_solver. Qed.

(** A left child pointer that differs from the hole of a right context. *)
Lemma tptr_ne x (l : tree) : x ∉ addrs l → Some x ≠ tptr l.
Proof. destruct l; simpl; [done|]. intros H [= ->]. set_solver. Qed.

Ltac nd :=
  lazymatch goal with
  | |- ?x ∉ ?l =>
      match goal with
      | H : NoDup ?L |- _ => apply (nodup_notin L x l H); solve_submseteq
      end
  | |- Some ?x ≠ tptr ?l => apply tptr_ne; nd
  | |- ?x ≠ ?y =>
      match goal with
      | H : NoDup ?L |- _ => apply (nodup_ne L x y H); solve_submseteq
      end
  | |- NoDup ?l =>
      match goal with
      | H : NoDup ?L |- _ => apply (nodup_sub L l H); solve_submseteq
      end
  end.

Ltac look :=
  repeat (rewrite lookup_insert_eq || rewrite lookup_insert_ne by nd).

Ltac mred :=
  cbv beta;
  cbn [heap root key payload color parent left right tptr cptr croot].

Ltac mlookup := mred; look; first [eassumption | reflexivity].

(** Run a member function on a heap whose relevant cells are known. *)
Ltac mrun :=
  mred;
  lazymatch goal with
  | |- (?m ≫= ?k) ?T = _ => etrans; [eapply bind_run; mrun | mrun]
  | |- get_key _ _ = _ => eapply get_key_run; mlookup
  | |- get_payload _ _ = _ => eapply get_payload_run; mlookup
  | |- get_color _ _ = _ => eapply get_color_run; mlookup
  | |- get_parent _ _ = _ => eapply get_parent_run; mlookup
  | |- get_left _ _ = _ => eapply get_left_run; mlookup
  | |- get_right _ _ = _ => eapply get_right_run; mlookup
  | |- set_key _ _ _ = _ => eapply set_key_run; mlookup
  | |- push_payload _ _ _ = _ => eapply push_payload_run; mlookup
  | |- set_color _ _ _ = _ => eapply set_color_run; mlookup
  | |- set_parent _ _ _ = _ => eapply set_parent_run; mlookup
  | |- set_left _ _ _ = _ => eapply set_left_run; mlookup
  | |- set_right _ _ _ = _ => eapply set_right_run; mlookup
  | |- (if decide (Some ?a = ?b) then _ else _) _ = _ =>
      first [ rewrite (decide_True (P := Some a = b)) by reflexivity
            | rewrite (decide_False (P := Some a = b)) by nd ];
      mrun
  | |- _ => reflexivity
  end.

Ltac frames :=
  repeat ((apply repr_frame || apply repr_ctx_frame); [nd|]); assumption.

Ltac focus_goal :=
  unfold at_focus; cbn [repr repr_ctx addrs caddrs]; mred; look;
  split_and!; first [frames | nd | done].

Lemma rotateLeft_spec T C cx A x kx px cy B y ky py G :
  at_focus T C (Node cx A x kx px (Node cy B y ky py G)) →
  ∃ T', rotateLeft x T = Some (tt, T')
        ∧ at_focus T' C (Node cy (Node cx A x kx px B) y ky py G).
Proof.
  destruct T as [rt h].
  intros (Hroot & Hctx & (Hx & HA & (Hy & HB & HG)) & Hnd).
  destruct B as [|cb Bl b kb pb Br];
    destruct C as [|cp p kp pp r up|cp l p kp pp up];
    cbn [repr repr_ctx addrs caddrs tptr cptr croot heap root] in *;
    destruct_and?;
    (eexists; split; [unfold rotateLeft; mrun|]); focus_goal.
Qed.

Lemma rotateRight_spec T C cy cx A x kx px B y ky py G :
  at_focus T C (Node cy (Node cx A x kx px B) y ky py G) →
  ∃ T', rotateRight y T = Some (tt, T')
        ∧ at_focus T' C (Node cx A x kx px (Node cy B y ky py G)).
Proof.
  destruct T as [rt h].
  intros (Hroot & Hctx & (Hy & (Hx & HA & HB) & HG) & Hnd).
  destruct B as [|cb Bl b kb pb Br];
    destruct C as [|cp p kp pp r up|cp l p kp pp up];
    cbn [repr repr_ctx addrs caddrs tptr cptr croot heap root] in *;
    destruct_and?;
    (eexists; split; [unfold rotateRight; mrun|]); focus_goal.
Qed.

(** *** Rules of the specification logic *)

Lemma wp_ret {A} (a : A) T Q : Q a T → wp (mret a) T Q.
Proof. intros H. by exists a, T. Qed.

Lemma wp_bind {A B} (m : M A) (k : A → M B) T Q :
  wp m T (λ a T', wp (k a) T' Q) → wp (m ≫= k) T Q.
Proof.
  intros (a & T' & Hm & b & T'' & Hk & HQ). exists b, T''.
  split; [|done]. by rewrite (bind_run _ _ _ _ _ Hm).
Qed.

Lemma wp_mono {A} (m : M A) T (Q Q' : A → RBTree → Prop) :
  wp m T Q → (∀ a T', Q a T' → Q' a T') → wp m T Q'.
Proof. intros (a & T' & Hm & HQ) H. exists a, T'. eauto. Qed.

Lemma wp_run {A} (m : M A) T a T' (Q : A → RBTree → Prop) :
  m T = Some (a, T') → Q a T' → wp m T Q.
Proof. intros Hm HQ. by exists a, T'. Qed.

Lemma wp_deref x T Q : Q x T → wp (deref (Some x)) T Q.
Proof. apply wp_ret. Qed.

Lemma wp_get_root T Q : Q (root T) T → wp get_root T Q.
Proof. intros H. by exists (root T), T. Qed.

Lemma wp_path_fuel T Q : Q (S (size (heap T))) T → wp path_fuel T Q.
Proof. intros H. by exists (S (size (heap T))), T. Qed.

Section at_node.
Context (T : RBTree) (C : ctx) (c : Color) (l : tree) (a : ptr)
        (k : string) (pl : list PassengerPtr) (r : tree).
Hypothesis H : abstracts T (plug C (Node c l a k pl r)).

Lemma abs_lookup :
  heap T !! a = Some (mkRBTNode k pl c (cptr C) (tptr l) (tptr r)).
Proof. apply abstracts_focus in H. by eapply focus_lookup. Qed.

Lemma wp_get_key Q : Q k T → wp (get_key a) T Q.
Proof. intros HQ. eexists _, _. split; [|exact HQ]. by rewrite (get_key_run _ _ _ abs_lookup). Qed.
Lemma wp_get_payload Q : Q pl T → wp (get_payload a) T Q.
Proof. intros HQ. eexists _, _. split; [|exact HQ]. by rewrite (get_payload_run _ _ _ abs_lookup). Qed.
Lemma wp_get_color Q : Q c T → wp (get_color a) T Q.
Proof. intros HQ. eexists _, _. split; [|exact HQ]. by rewrite (get_color_run _ _ _ abs_lookup). Qed.
Lemma wp_get_parent Q : Q (cptr C) T → wp (get_parent a) T Q.
Proof. intros HQ. eexists _, _. split; [|exact HQ]. by rewrite (get_parent_run _ _ _ abs_lookup). Qed.
Lemma wp_get_left Q : Q (tptr l) T → wp (get_left a) T Q.
Proof. intros HQ. eexists _, _. split; [|exact HQ]. by rewrite (get_left_run _ _ _ abs_lookup). Qed.
Lemma wp_get_right Q : Q (tptr r) T → wp (get_right a) T Q.
Proof. intros HQ. eexists _, _. split; [|exact HQ]. by rewrite (get_right_run _ _ _ abs_lookup). Qed.

Lemma wp_set_color c' Q :
  (∀ T', abstracts T' (plug C (Node c' l a k pl r)) → Q tt T') →
  wp (set_color a c') T Q.
Proof.
  intros HQ. apply abstracts_focus in H.
  destruct (set_color_spec _ _ _ _ _ _ _ _ c' H) as (T' & Hrun & HT').
  exists tt, T'. split; [done|]. by apply HQ, abstracts_focus.
Qed.

Lemma wp_push_payload ref Q :
  (∀ T', abstracts T' (plug C (Node c l a k (pl ++ [ref]) r)) →
         T' = mkRBTree (root T)
                (<[a := mkRBTNode k (pl ++ [ref]) c (cptr C) (tptr l) (tptr r)]>
                   (heap T)) →
         Q tt T') →
  wp (push_payload a ref) T Q.
Proof.
  intros HQ. apply abstracts_focus in H.
  destruct (push_payload_spec _ _ _ _ _ _ _ _ ref H) as (Hrun & HT').
  eexists tt, _. split; [done|]. apply HQ; [by apply abstracts_focus|done].
Qed.
End at_node.

Lemma wp_rotateLeft T C cx A x kx px cy B y ky py G Q :
  abstracts T (plug C (Node cx A x kx px (Node cy B y ky py G))) →
  (∀ T', abstracts T' (plug C (Node cy (Node cx A x kx px B) y ky py G)) →
         Q tt T') →
  wp (rotateLeft x) T Q.
Proof.
  intros H%abstracts_focus HQ.
  destruct (rotateLeft_spec _ _ _ _ _ _ _ _ _ _ _ _ _ H) as (T' & Hrun & HT').
  exists tt, T'. split; [done|]. by apply HQ, abstracts_focus.
Qed.

Lemma wp_rotateRight T C cy cx A x kx px B y ky py G Q :
  abstracts T (plug C (Node cy (Node cx A x kx px B) y ky py G)) →
  (∀ T', abstracts T' (plug C (Node cx A x kx px (Node cy B y ky py G))) →
         Q tt T') →
  wp (rotateRight y) T Q.
Proof.
  intros H%abstracts_focus HQ.
  destruct (rotateRight_spec _ _ _ _ _ _ _ _ _ _ _ _ _ H) as (T' & Hrun & HT').
  exists tt, T'. split; [done|]. by apply HQ, abstracts_focus.
Qed.

Lemma abs_nodup T C t : abstracts T (plug C t) → NoDup (addrs t ++ caddrs C).
Proof. by intros (_ & _ & _ & ?)%abstracts_focus. Qed.

(** Find the node with address [a] in the tree [t] under context [C]. *)
Ltac find_focus a C t k :=
  lazymatch t with
  | Node ?c ?l a ?kk ?pl ?r => k C t
  | Node ?c ?l ?b ?kk ?pl ?r =>
      first [ find_focus a (InL c b kk pl r C) l k
            | find_focus a (InR c l b kk pl C) r k ]
  end.

Ltac with_focus a k :=
  match goal with
  | H : abstracts ?T ?tt |- wp _ ?T _ =>
      lazymatch tt with
      | plug ?C0 ?t0 => find_focus a C0 t0 ltac:(fun C t => k H C t)
      | _ => find_focus a Top tt ltac:(fun C t => k H C t)
      end
  end.

Ltac nd_abs :=
  match goal with
  | H : abstracts ?T ?tt |- _ =>
      let Hnd := fresh "Hnd" in
      lazymatch tt with
      | plug ?C0 ?t0 => pose proof (abs_nodup T C0 t0 H) as Hnd
      | _ => pose proof (abs_nodup T Top tt H) as Hnd
      end;
      cbn [addrs caddrs tptr] in Hnd |- *;
      lazymatch goal with
      | |- Some ?x ≠ Some ?y => assert (x ≠ y) by nd; congruence
      | |- Some _ ≠ None => done
      | |- _ => nd
      end
  end.

Ltac wstep :=
  lazymatch goal with
  | |- wp (_ ≫= _) _ _ => apply wp_bind
  | |- wp (mret _) _ _ => apply wp_ret
  | |- wp (deref (Some _)) _ _ => apply wp_deref
  | |- wp (parent_of _) _ _ => unfold parent_of
  | |- wp (grandparent_of _) _ _ => unfold grandparent_of
  | |- wp (is_red _) _ _ => unfold is_red
  | |- wp get_root _ _ => apply wp_get_root
  | |- wp path_fuel _ _ => apply wp_path_fuel
  | |- wp (get_key ?a) ?T _ =>
      with_focus a ltac:(fun H C t =>
        lazymatch t with Node ?c ?l _ ?k ?pl ?r =>
          apply (wp_get_key T C c l a k pl r H) end)
  | |- wp (get_payload ?a) ?T _ =>
      with_focus a ltac:(fun H C t =>
        lazymatch t with Node ?c ?l _ ?k ?pl ?r =>
          apply (wp_get_payload T C c l a k pl r H) end)
  | |- wp (get_color ?a) ?T _ =>
      with_focus a ltac:(fun H C t =>
        lazymatch t with Node ?c ?l _ ?k ?pl ?r =>
          apply (wp_get_color T C c l a k pl r H) end)
  | |- wp (get_parent ?a) ?T _ =>
      with_focus a ltac:(fun H C t =>
        lazymatch t with Node ?c ?l _ ?k ?pl ?r =>
          apply (wp_get_parent T C c l a k pl r H) end)
  | |- wp (get_left ?a) ?T _ =>
      with_focus a ltac:(fun H C t =>
        lazymatch t with Node ?c ?l _ ?k ?pl ?r =>
          apply (wp_get_left T C c l a k pl r H) end)
  | |- wp (get_right ?a) ?T _ =>
      with_focus a ltac:(fun H C t =>
        lazymatch t with Node ?c ?l _ ?k ?pl ?r =>
          apply (wp_get_right T C c l a k pl r H) end)
  | |- wp (push_payload ?a ?ref) ?T _ =>
      with_focus a ltac:(fun H C t =>
        lazymatch t with Node ?c ?l _ ?k ?pl ?r =>
          apply (wp_push_payload T C c l a k pl r H ref) end)
  | |- wp (set_color ?a ?c') ?T _ =>
      with_focus a ltac:(fun H C t =>
        lazymatch t with Node ?c ?l _ ?k ?pl ?r =>
          apply (wp_set_color T C c l a k pl r H c');
          clear H; intros ? H; cbn [plug] in H end)
  | |- wp (rotateLeft ?x) ?T _ =>
      with_focus x ltac:(fun H C t =>
        lazymatch t with Node ?cx ?A _ ?kx ?px (Node ?cy ?B ?y ?ky ?py ?G) =>
          apply (wp_rotateLeft T C cx A x kx px cy B y ky py G _ H);
          clear H; intros ? H; cbn [plug] in H end)
  | |- wp (rotateRight ?y) ?T _ =>
      with_focus y ltac:(fun H C t =>
        lazymatch t with Node ?cy (Node ?cx ?A ?x ?kx ?px ?B) _ ?ky ?py ?G =>
          apply (wp_rotateRight T C cy cx A x kx px B y ky py G _ H);
          clear H; intros ? H; cbn [plug] in H end)
  | |- wp (if decide (Some ?a = ?b) then _ else _) ?T _ =>
      first [ rewrite (decide_True (P := Some a = b)) by reflexivity
            | rewrite (decide_False (P := Some a = b)) by nd_abs ]
  end;
  cbv beta; cbn [cptr tptr].

Ltac wsteps := repeat wstep.

(** Stepping on a heap whose cells are known explicitly. *)
Ltac hstep :=
  lazymatch goal with
  | |- wp (_ ≫= _) _ _ => apply wp_bind
  | |- wp (mret _) _ _ => apply wp_ret
  | |- wp (get_key _) _ _ => eapply wp_run; [eapply get_key_run; mlookup|]
  | |- wp (set_key _ _) _ _ => eapply wp_run; [eapply set_key_run; mlookup|]
  | |- wp (push_payload _ _) _ _ =>
      eapply wp_run; [eapply push_payload_run; mlookup|]
  | |- wp (set_color _ _) _ _ => eapply wp_run; [eapply set_color_run; mlookup|]
  | |- wp (set_parent _ _) _ _ => eapply wp_run; [eapply set_parent_run; mlookup|]
  | |- wp (set_left _ _) _ _ => eapply wp_run; [eapply set_left_run; mlookup|]
  | |- wp (set_right _ _) _ _ => eapply wp_run; [eapply set_right_run; mlookup|]
  | |- wp (set_root _) _ _ => eapply wp_run; [reflexivity|]
  end;
  mred.

(** *** Colour invariants of plugged trees *)

Lemma plug_decompose C : ∀ t m,
  no_red_red (plug C t) → tcolor (plug C t) = BLACK →
  black_height (plug C t) m →
  no_red_red t ∧
  ∃ n, black_height t n ∧ ctx_inv C n ∧ (tcolor t = RED → ccolor C = BLACK).
Proof.
  induction C as [|c a k pl r up IH|c l a k pl up IH]; intros t m; cbn [plug].
  - intros Hn Hc Hb. split; [done|]. exists m. split_and!; [done|done|].
    intros Hr. congruence.
  - intros Hn Hc Hb.
    destruct (IH _ _ Hn Hc Hb) as ((Hcc & Ht & Hr) & n & Hbh & Hctx & Hup).
    split; [done|]. destruct c; cbn in *.
    + destruct (Hcc eq_refl) as [? ?]. exists n.
      destruct Hbh. split_and!; try done; [by auto|congruence].
    + destruct n as [|n]; [done|]. exists n. destruct Hbh. split_and!; done.
  - intros Hn Hc Hb.
    destruct (IH _ _ Hn Hc Hb) as ((Hcc & Hl & Ht) & n & Hbh & Hctx & Hup).
    split; [done|]. destruct c; cbn in *.
    + destruct (Hcc eq_refl) as [? ?]. exists n.
      destruct Hbh. split_and!; try done; [by auto|congruence].
    + destruct n as [|n]; [done|]. exists n. destruct Hbh. split_and!; done.
Qed.

Lemma plug_compose C : ∀ t n,
  ctx_inv C n → no_red_red t → black_height t n →
  (tcolor t = RED → ccolor C = BLACK) →
  no_red_red (plug C t) ∧ tcolor (plug C t) = BLACK
  ∧ ∃ m, black_height (plug C t) m.
Proof.
  induction C as [|c a k pl r up IH|c l a k pl up IH]; intros t n; cbn [plug].
  - intros _ Hn Hb Hc. split_and!; [done| |by eauto].
    cbn in Hc. destruct (tcolor t); [by specialize (Hc eq_refl)|done].
  - intros (Hnr & Hbr & Hctx) Hn Hb Hc. destruct c; cbn in Hc.
    + destruct Hctx as (Hcr & Hcu & Hctx). apply (IH _ n); cbn; try done.
      split_and!; try done. intros _. split; [|done].
      destruct (tcolor t); [by specialize (Hc eq_refl)|done].
    + apply (IH _ (S n)); cbn; try done; split_and!; done.
  - intros (Hnr & Hbr & Hctx) Hn Hb Hc. destruct c; cbn in Hc.
    + destruct Hctx as (Hcr & Hcu & Hctx). apply (IH _ n); cbn; try done.
      split_and!; try done. intros _. split; [done|].
      destruct (tcolor t); [by specialize (Hc eq_refl)|done].
    + apply (IH _ (S n)); cbn; try done; split_and!; done.
Qed.

(** *** The rebalancing loop *)


Lemma fix_post_plug es T C t n :
  abstracts T (plug C t) → ctx_inv C n → no_red_red t → black_height t n →
  (tcolor t = RED → ccolor C = BLACK) → entries (plug C t) = es →
  fix_post es tt T.
Proof.
  intros H Hctx Hn Hb Hc Hes.
  destruct (plug_compose _ _ _ Hctx Hn Hb Hc) as (? & ? & ?).
  by exists (plug C t).
Qed.

Ltac rb_solve := cbn in *; intuition congruence.

Ltac entries_eq :=
  rewrite ?entries_plug; cbn [entries cleft cright];
  repeat (rewrite <-app_assoc; cbn [app]); reflexivity.

Lemma fixInsert_loop_spec fuel : ∀ C T l z k pl r n,
  depth C < fuel →
  abstracts T (plug C (Node RED l z k pl r)) →
  ctx_inv C n → no_red_red l → no_red_red r →
  black_height l n → black_height r n →
  tcolor l = BLACK → tcolor r = BLACK →
  wp (fixInsert_loop fuel z) T
     (fix_post (entries (plug C (Node RED l z k pl r)))).
Proof.
  induction fuel as [|f IH]; intros C T l z k pl r n Hd H Hctx Hnl Hnr Hbl Hbr Hcl Hcr;
    [lia|].
  cbn [fixInsert_loop].
  destruct C as [|cp p kp pp sib up|cp sib p kp pp up]; cbn [plug] in H.
  - (* z is the root *)
    wsteps. exists (Node RED l z k pl r). split_and!; cbn; eauto.
  - (* z is a left child *)
    wsteps. destruct cp.
    + cbn in Hctx. destruct Hctx as (Hns & Hbs & Hcs & Hcu & Hctx).
      destruct up as [|cg g kg pg uncle up'|cg uncle g kg pg up'];
        cbn in Hcu; [done|subst cg..]; cbn [plug] in H;
        cbn in Hctx; destruct Hctx as (Hnu & Hbu & Hctx); cbn in Hd.
      * (* parent is a left child *)
        wsteps.
        destruct uncle as [|[] ul u ku pu ur]; cbn [tptr].
        -- wsteps. destruct f as [|f]; [lia|]. cbn [fixInsert_loop]. wsteps.
           eapply (fix_post_plug _ _ up' _ (S n)); [exact H|done|..];
             [rb_solve|rb_solve|done|entries_eq].
        -- wsteps.
           destruct Hbu as [? ?]. destruct Hnu as (_ & ? & ?).
           replace (entries (plug (InL RED p kp pp sib (InL BLACK g kg pg
                      (Node RED ul u ku pu ur) up')) (Node RED l z k pl r)))
             with (entries (plug up' (Node RED
                      (Node BLACK (Node RED l z k pl r) p kp pp sib) g kg pg
                      (Node BLACK ul u ku pu ur)))) by entries_eq.
           eapply (IH up' _ _ _ _ _ _ (S n)); try done; [lia|rb_solve..].
        -- wsteps. destruct f as [|f]; [lia|]. cbn [fixInsert_loop]. wsteps.
           eapply (fix_post_plug _ _ up' _ (S n)); [exact H|done|..];
             [rb_solve|rb_solve|done|entries_eq].
      * (* parent is a right child *)
        wsteps.
        destruct uncle as [|[] ul u ku pu ur]; cbn [tptr].
        -- wsteps. destruct f as [|f]; [lia|]. cbn [fixInsert_loop]. wsteps.
           eapply (fix_post_plug _ _ up' _ (S n)); [exact H|done|..];
             [rb_solve|rb_solve|done|entries_eq].
        -- wsteps.
           destruct Hbu as [? ?]. destruct Hnu as (_ & ? & ?).
           replace (entries (plug (InL RED p kp pp sib (InR BLACK
                      (Node RED ul u ku pu ur) g kg pg up')) (Node RED l z k pl r)))
             with (entries (plug up' (Node RED (Node BLACK ul u ku pu ur) g kg pg
                      (Node BLACK (Node RED l z k pl r) p kp pp sib))))
             by entries_eq.
           eapply (IH up' _ _ _ _ _ _ (S n)); try done; [lia|rb_solve..].
        -- wsteps. destruct f as [|f]; [lia|]. cbn [fixInsert_loop]. wsteps.
           eapply (fix_post_plug _ _ up' _ (S n)); [exact H|done|..];
             [rb_solve|rb_solve|done|entries_eq].
    + wsteps.
      eapply (fix_post_plug _ _ (InL BLACK p kp pp sib up) _ n);
        [exact H|done|rb_solve|rb_solve|done|done].
  - (* z is a right child *)
    wsteps. destruct cp.
    + cbn in Hctx. destruct Hctx as (Hns & Hbs & Hcs & Hcu & Hctx).
      destruct up as [|cg g kg pg uncle up'|cg uncle g kg pg up'];
        cbn in Hcu; [done|subst cg..]; cbn [plug] in H;
        cbn in Hctx; destruct Hctx as (Hnu & Hbu & Hctx); cbn in Hd.
      * wsteps.
        destruct uncle as [|[] ul u ku pu ur]; cbn [tptr].
        -- wsteps. destruct f as [|f]; [lia|]. cbn [fixInsert_loop]. wsteps.
           eapply (fix_post_plug _ _ up' _ (S n)); [exact H|done|..];
             [rb_solve|rb_solve|done|entries_eq].
        -- wsteps.
           destruct Hbu as [? ?]. destruct Hnu as (_ & ? & ?).
           replace (entries (plug (InR RED sib p kp pp (InL BLACK g kg pg
                      (Node RED ul u ku pu ur) up')) (Node RED l z k pl r)))
             with (entries (plug up' (Node RED
                      (Node BLACK sib p kp pp (Node RED l z k pl r)) g kg pg
                      (Node BLACK ul u ku pu ur)))) by entries_eq.
           eapply (IH up' _ _ _ _ _ _ (S n)); try done; [lia|rb_solve..].
        -- wsteps. destruct f as [|f]; [lia|]. cbn [fixInsert_loop]. wsteps.
           eapply (fix_post_plug _ _ up' _ (S n)); [exact H|done|..];
             [rb_solve|rb_solve|done|entries_eq].
      * wsteps.
        destruct uncle as [|[] ul u ku pu ur]; cbn [tptr].
        -- wsteps. destruct f as [|f]; [lia|]. cbn [fixInsert_loop]. wsteps.
           eapply (fix_post_plug _ _ up' _ (S n)); [exact H|done|..];
             [rb_solve|rb_solve|done|entries_eq].
        -- wsteps.
           destruct Hbu as [? ?]. destruct Hnu as (_ & ? & ?).
           replace (entries (plug (InR RED sib p kp pp (InR BLACK
                      (Node RED ul u ku pu ur) g kg pg up')) (Node RED l z k pl r)))
             with (entries (plug up' (Node RED (Node BLACK ul u ku pu ur) g kg pg
                      (Node BLACK sib p kp pp (Node RED l z k pl r)))))
             by entries_eq.
           eapply (IH up' _ _ _ _ _ _ (S n)); try done; [lia|rb_solve..].
        -- wsteps. destruct f as [|f]; [lia|]. cbn [fixInsert_loop]. wsteps.
           eapply (fix_post_plug _ _ up' _ (S n)); [exact H|done|..];
             [rb_solve|rb_solve|done|entries_eq].
    + wsteps.
      eapply (fix_post_plug _ _ (InR BLACK sib p kp pp up) _ n);
        [exact H|done|rb_solve|rb_solve|done|done].
Qed.

(** *** Ordering and entries *)

Lemma keys_node c l a k pl r : keys (Node c l a k pl r) = keys l ++ k :: keys r.
Proof. unfold keys. cbn. by rewrite fmap_app. Qed.

Lemma ordered_sorted t : ordered t ↔ StronglySorted key_lt (keys t).
Proof.
  induction t as [|c l IHl a k pl r IHr].
  - cbn. split; [constructor|done].
  - rewrite keys_node, sorted_middle. cbn [ordered]. by rewrite IHl, IHr.
Qed.

Lemma ordered_entries t t' : entries t = entries t' → ordered t → ordered t'.
Proof. intros He. rewrite !ordered_sorted. unfold keys. by rewrite He. Qed.

Lemma tsearch_assoc t key : ordered t → tsearch t key = assoc key (entries t).
Proof.
  induction t as [|c l IHl a k pl r IHr]; [done|].
  intros (Hl & Hr & Hlk & Hkr). cbn [tsearch entries].
  rewrite Forall_forall in Hlk, Hkr.
  destruct (String.eqb_spec key k) as [->|Hne].
  - rewrite assoc_app_notin; [cbn; by rewrite String.eqb_refl|].
    by intros ?%Hlk%key_lt_irrefl.
  - destruct (String.ltb key k) eqn:Hlt.
    + rewrite IHl by done. destruct (decide (key ∈ keys l)) as [Hin|Hin].
      * by rewrite assoc_app_in.
      * rewrite assoc_app_notin by done. rewrite (assoc_notin _ (entries l)) by done.
        cbn. apply String.eqb_neq in Hne. rewrite Hne.
        symmetry. apply assoc_notin. intros Hk%Hkr.
        eapply key_lt_irrefl, key_lt_trans; [exact Hlt|exact Hk].
    + rewrite IHr by done. rewrite assoc_app_notin.
      * cbn. apply String.eqb_neq in Hne. by rewrite Hne.
      * intros Hk%Hlk. apply key_ltb_false in Hlt; [|done].
        eapply key_lt_irrefl, key_lt_trans; [exact Hlt|exact Hk].
Qed.

(** *** Sizes: the fuel suffices *)

Lemma abs_size T t : abstracts T t → length (addrs t) ≤ size (heap T).
Proof.
  intros (_ & Hr & Hnd).
  rewrite <-size_dom. unfold size, set_size. cbn.
  apply submseteq_length, NoDup_submseteq; [done|].
  intros x Hx. apply elem_of_elements, elem_of_dom. by eapply repr_lookup.
Qed.

Lemma height_addrs t : height t ≤ length (addrs t).
Proof.
  induction t as [|c l IHl a k pl r IHr]; cbn; [done|].
  rewrite length_app. cbn. lia.
Qed.

Lemma depth_caddrs C : depth C ≤ length (caddrs C).
Proof.
  induction C as [|c a k pl r up IH|c l a k pl up IH]; cbn; [done|..];
    rewrite length_app; lia.
Qed.

Lemma abs_depth T C t : abstracts T (plug C t) → depth C < S (size (heap T)).
Proof.
  intros H. pose proof (abs_size _ _ H) as Hs.
  rewrite addrs_plug, length_app in Hs. pose proof (depth_caddrs C). lia.
Qed.

Lemma abs_height T t : abstracts T t → height t < S (size (heap T)).
Proof.
  intros H. pose proof (abs_size _ _ H). pose proof (height_addrs t). lia.
Qed.

(** *** [fixInsert] *)

Lemma fixInsert_spec C T l z k pl r n :
  abstracts T (plug C (Node RED l z k pl r)) →
  ctx_inv C n → no_red_red l → no_red_red r →
  black_height l n → black_height r n →
  tcolor l = BLACK → tcolor r = BLACK →
  wp (fixInsert z) T
     (λ _ T', ∃ t', abstracts T' t' ∧ tcolor t' = BLACK ∧ no_red_red t'
                    ∧ (∃ m, black_height t' m)
                    ∧ entries t' = entries (plug C (Node RED l z k pl r))).
Proof.
  intros H Hctx Hnl Hnr Hbl Hbr Hcl Hcr. unfold fixInsert.
  wstep. wstep. wstep.
  eapply wp_mono.
  { eapply fixInsert_loop_spec; eauto. by eapply abs_depth. }
  intros [] T' (t' & Ht' & Hn' & (m & Hb') & He'). cbv beta.
  destruct t' as [|c' l' a' k' pl' r'].
  { exfalso. rewrite entries_plug in He'. cbn in He'.
    by destruct (cleft C), (entries l). }
  wstep. wstep. wstep.
  replace (root T') with (Some a') by (by destruct Ht' as [-> _]).
  wstep. wstep.
  eexists. split_and!; [exact Ht'|done|by destruct Hn' as (_ & ? & ?)| |done].
  destruct c'; cbn in *; [exists (S m)|exists m]; done.
Qed.

(** *** The descent of [insert] *)


Lemma insert_descend_spec name ref s : ∀ fuel C T,
  abstracts T (plug C s) → ordered s → bounds name C → height s < fuel →
  wp (insert_descend fuel name ref (cptr C) (tptr s)) T
     (descend_post name ref T (plug C s)).
Proof.
  induction s as [|c l IHl a k pl r IHr]; intros fuel C T H Ho Hb Hf;
    (destruct fuel as [|fuel]; [cbn in Hf; lia|]); cbn [insert_descend tptr].
  - apply wp_ret. cbn. eauto.
  - destruct Ho as (Hol & Hor & Hlk & Hkr). destruct Hb as [Hbl Hbr].
    cbn in Hf. wstep. wstep.
    destruct (String.eqb_spec name k) as [->|Hne].
    + wstep. wstep. intros T' HT' ->. apply wp_ret. cbn.
      by exists C, c, l, a, pl, r.
    + destruct (String.ltb name k) eqn:Hlt.
      * wstep. wstep.
        apply (IHl fuel (InL c a k pl r C) T); [done|done| |lia].
        split; [done|]. cbn. constructor; [done|].
        rewrite Forall_app. split; [|done].
        rewrite Forall_forall. intros [k' pl'] Hin. cbn.
        eapply key_lt_trans; [exact Hlt|].
        rewrite Forall_forall in Hkr. apply Hkr.
        unfold keys. by apply (list_elem_of_fmap_2 fst) in Hin.
      * apply key_ltb_false in Hlt; [|done]. wstep. wstep.
        apply (IHr fuel (InR c l a k pl C) T); [done|done| |lia].
        split; [|done]. cbn. rewrite !Forall_app. split_and!; [done| |].
        -- rewrite Forall_forall. intros [k' pl'] Hin. cbn.
           eapply key_lt_trans; [|exact Hlt].
           rewrite Forall_forall in Hlk. apply Hlk.
           unfold keys. by apply (list_elem_of_fmap_2 fst) in Hin.
        -- by constructor.
Qed.

Lemma bounds_left name c a k pl r up :
  bounds name (InL c a k pl r up) → String.ltb name k = true.
Proof. intros [_ Hr]. cbn in Hr. by inv Hr. Qed.

Lemma bounds_right name c l a k pl up :
  bounds name (InR c l a k pl up) → String.ltb name k = false.
Proof.
  intros [Hl _]. cbn in Hl. rewrite !Forall_app in Hl.
  destruct Hl as (_ & _ & Hk). inv Hk. by apply key_lt_asym.
Qed.

(** Allocating the new node and linking it below the last node visited. *)
Lemma insert_link_spec {A} T C name ref (k : ptr → M A) Q :
  abstracts T (plug C Leaf) → bounds name C →
  (∀ z T', abstracts T' (plug C (Node RED Leaf z name [ref] Leaf)) →
           wp (k z) T' Q) →
  wp (z ← new_node;
      set_key z name;;
      push_payload z ref;;
      set_parent z (cptr C);;
      match cptr C with
      | None => set_root (Some z)
      | Some ya =>
          yk ← get_key ya;
          if String.ltb name yk then set_left ya (Some z)
          else set_right ya (Some z)
      end;;
      set_color z RED;;
      k z) T Q.
Proof.
  intros H Hb HQ.
  assert (fresh (dom (heap T)) ∉ caddrs C) as Hz.
  { intros Hin. apply (is_fresh (dom (heap T))), elem_of_dom.
    destruct H as (_ & Hr & _). eapply repr_lookup; [exact Hr|].
    rewrite addrs_plug. cbn. done. }
  apply abstracts_focus in H as (Hroot & Hctx & _ & Hnd). cbn [addrs app] in Hnd.
  destruct T as [rt h]; cbn [heap root] in *.
  set (z := fresh (dom h)) in *.
  assert (NoDup (z :: caddrs C)) as Hnd' by (by constructor).
  apply wp_bind. apply (wp_run _ _ z
    (mkRBTree rt (<[z := mkRBTNode EmptyString [] RED None None None]> h)));
    [reflexivity|].
  destruct C as [|cp p kp pp r up|cp l p kp pp up];
    cbn [repr_ctx caddrs cptr croot tptr] in *; destruct_and?.
  - repeat hstep. apply HQ, abstracts_focus. focus_goal.
  - repeat hstep. rewrite (bounds_left _ _ _ _ _ _ _ Hb). repeat hstep.
    apply HQ, abstracts_focus. focus_goal.
  - repeat hstep. rewrite (bounds_right _ _ _ _ _ _ _ Hb). repeat hstep.
    apply HQ, abstracts_focus. focus_goal.
Qed.

(** *** [insert] *)

(** The payload of a node plays no part in the colour invariants. *)
Lemma colours_payload C c l a k pl pl' r :
  tcolor (plug C (Node c l a k pl r)) = BLACK →
  no_red_red (plug C (Node c l a k pl r)) →
  (∃ m, black_height (plug C (Node c l a k pl r)) m) →
  tcolor (plug C (Node c l a k pl' r)) = BLACK
  ∧ no_red_red (plug C (Node c l a k pl' r))
  ∧ ∃ m, black_height (plug C (Node c l a k pl' r)) m.
Proof.
  intros Hc Hn (m & Hb).
  destruct (plug_decompose _ _ _ Hn Hc Hb) as (Hn' & n & Hb' & Hctx & Hcc).
  destruct (plug_compose C (Node c l a k pl' r) n) as (? & ? & ?); done.
Qed.

Lemma keys_plug C t : keys (plug C t) = (cleft C).*1 ++ keys t ++ (cright C).*1.
Proof. unfold keys. by rewrite entries_plug, !fmap_app. Qed.

Lemma entries_plug_node C c l a k pl r :
  entries (plug C (Node c l a k pl r))
  = (cleft C ++ entries l) ++ (k, pl) :: (entries r ++ cright C).
Proof. rewrite entries_plug. cbn. by rewrite <-!app_assoc. Qed.

Lemma keys_plug_node C c l a k pl r :
  keys (plug C (Node c l a k pl r))
  = (cleft C ++ entries l).*1 ++ k :: (entries r ++ cright C).*1.
Proof. unfold keys. by rewrite entries_plug_node, fmap_app. Qed.


Lemma rbt_insert_spec T t ref p :
  abstracts T t → red_black t →
  wp (insert ref p) T (λ _ T', insert_post t ref (fullName p) T').
Proof.
  intros H (Ho & Hc & Hn & m & Hb). unfold insert.
  wstep. wstep. wstep. wstep.
  replace (root T) with (tptr t) by (by destruct H as [-> _]).
  apply wp_bind. eapply wp_mono.
  { apply (insert_descend_spec (fullName p) ref t _ Top T);
      [done|done|split; constructor|by apply abs_height]. }
  cbn [plug]. intros [[]|y] T' Hpost; cbn in Hpost.
  - (* the key was found *)
    destruct Hpost as (C & c & l & a & pl & r & -> & -> & HT').
    apply wp_ret. eexists. split; [exact HT'|].
    rewrite ordered_sorted, keys_plug_node in Ho.
    split.
    + destruct (colours_payload C c l a (fullName p) pl (pl ++ [ref]) r)
        as (? & ? & ?); eauto.
      split_and!; try done.
      by rewrite ordered_sorted, keys_plug_node.
    + intros key. rewrite !entries_plug_node. apply assoc_push.
      rewrite sorted_middle in Ho. destruct Ho as (_ & _ & Hlt & _).
      rewrite Forall_forall in Hlt. by intros ?%Hlt%key_lt_irrefl.
  - (* a new node *)
    destruct Hpost as (-> & C & -> & -> & Hbl & Hbr).
    apply insert_link_spec; [done|done|]. intros z T' HT'.
    destruct (plug_decompose _ _ _ Hn Hc Hb) as (_ & n & Hbn & Hctx & _).
    cbn in Hbn. subst n.
    rewrite ordered_sorted, keys_plug in Ho. cbn in Ho.
    rewrite Forall_forall in Hbl, Hbr.
    assert (Forall (λ k, key_lt k (fullName p)) (cleft C).*1) as Hkl.
    { rewrite Forall_forall. intros k' ([k'' pl''] & -> & Hin)%list_elem_of_fmap.
      by apply (Hbl _ Hin). }
    assert (Forall (λ k, key_lt (fullName p) k) (cright C).*1) as Hkr.
    { rewrite Forall_forall. intros k' ([k'' pl''] & -> & Hin)%list_elem_of_fmap.
      by apply (Hbr _ Hin). }
    eapply wp_mono; [by eapply (fixInsert_spec C _ Leaf z _ _ Leaf 0)|].
    intros [] T'' (t' & Ht' & Hc' & Hn' & Hb' & He'). cbv beta.
    rewrite entries_plug in He'. cbn in He'.
    exists t'. split; [done|]. split.
    + split_and!; try done. rewrite ordered_sorted. unfold keys.
      rewrite He', fmap_app. cbn. by apply sorted_insert.
    + intros key. rewrite He', entries_plug. cbn. apply assoc_new.
      rewrite fmap_app. by apply sorted_notin.
Qed.

(** A duplicate key: the early [return] of [insert]. *)
Lemma insert_duplicate T t ref p :
  abstracts T t → ordered t → fullName p ∈ keys t →
  ∃ a nd,
    heap T !! a = Some nd ∧ key nd = fullName p
    ∧ insert ref p T
      = Some (tt, mkRBTree (root T)
                    (<[a := mkRBTNode (key nd) (payload nd ++ [ref]) (color nd)
                              (parent nd) (left nd) (right nd)]> (heap T))).
Proof.
  intros H Ho Hin.
  destruct (insert_descend_spec (fullName p) ref t (S (size (heap T))) Top T)
    as (res & T' & Hrun & Hpost);
    [done|done|split; constructor|by apply abs_height|].
  cbn [plug cptr] in *. destruct res as [[]|y]; cbn in Hpost.
  - destruct Hpost as (C & c & l & a & pl & r & -> & -> & HT').
    eexists a, _. split; [by eapply abs_lookup|]. cbn. split; [done|].
    clear HT'.
    unfold insert.
    rewrite (bind_run path_fuel _ T (S (size (heap T))) T) by done.
    rewrite (bind_run get_root _ T (root T) T) by done.
    destruct H as [Hroot _]. rewrite <-Hroot in Hrun.
    rewrite (bind_run _ _ _ _ _ Hrun). reflexivity.
  - destruct Hpost as (-> & C & -> & -> & Hbl & Hbr). exfalso.
    rewrite keys_plug in Hin. cbn in Hin.
    rewrite Forall_forall in Hbl, Hbr.
    apply elem_of_app in Hin as [Hin|Hin];
      apply list_elem_of_fmap in Hin as ([k' pl'] & Heq & Hin);
      cbn in Heq; subst k'.
    + by apply Hbl, key_lt_irrefl in Hin.
    + by apply Hbr, key_lt_irrefl in Hin.
Qed.

(** *** [search] *)

Lemma search_loop_spec name t : ∀ fuel C T,
  abstracts T (plug C t) → height t < fuel →
  search_loop fuel name (tptr t) T = Some (tsearch t name, T).
Proof.
  induction t as [|c l IHl a k pl r IHr]; intros fuel C T H Hf;
    (destruct fuel as [|fuel]; [cbn in Hf; lia|]); cbn [search_loop tptr tsearch].
  - done.
  - cbn in Hf. pose proof (abs_lookup _ _ _ _ _ _ _ _ H) as Ha.
    rewrite (bind_run _ _ _ _ _ (get_key_run _ _ _ Ha)). cbn [key].
    destruct (String.eqb name k).
    + by rewrite (get_payload_run _ _ _ Ha).
    + destruct (String.ltb name k).
      * rewrite (bind_run _ _ _ _ _ (get_left_run _ _ _ Ha)). cbn [left].
        apply (IHl fuel (InL c a k pl r C) T); [done|lia].
      * rewrite (bind_run _ _ _ _ _ (get_right_run _ _ _ Ha)). cbn [right].
        apply (IHr fuel (InR c l a k pl C) T); [done|lia].
Qed.

Lemma search_spec T t name :
  abstracts T t → search name T = Some (tsearch t name, T).
Proof.
  intros H. unfold search.
  rewrite (bind_run path_fuel _ T (S (size (heap T))) T) by done.
  rewrite (bind_run get_root _ T (root T) T) by done.
  replace (root T) with (tptr t) by (by destruct H as [-> _]).
  apply (search_loop_spec name t _ Top T); [done|by apply abs_height].
Qed.

(** *** Building the tree from a data vector *)

Lemma abstracts_empty : abstracts empty Leaf.
Proof. split_and!; [done|done|constructor]. Qed.

Lemma red_black_leaf : red_black Leaf.
Proof. split_and!; try done. by exists 0. Qed.

Lemma rbt_insert_all_spec ps : ∀ T t,
  abstracts T t → red_black t →
  wp (insert_all ps) T
     (λ _ T', ∃ t', abstracts T' t' ∧ red_black t'
                    ∧ ∀ key, assoc key (entries t')
                             = assoc key (entries t) ++ matches key ps).
Proof.
  induction ps as [|[ref p] ps IH]; intros T t H Hrb; cbn [insert_all].
  - apply wp_ret. exists t. split_and!; try done.
    intros key. cbn. by rewrite app_nil_r.
  - apply wp_bind. eapply wp_mono; [by apply rbt_insert_spec|].
    intros [] T1 (t1 & H1 & Hrb1 & He1). cbv beta.
    eapply wp_mono; [by apply (IH T1 t1)|].
    intros [] T2 (t2 & H2 & Hrb2 & He2). cbv beta.
    exists t2. split_and!; try done.
    intros key. rewrite He2, He1, <-app_assoc. f_equal. cbn.
    by destruct (String.eqb (fullName p) key).
Qed.

Lemma rbt_build_spec data :
  ∃ T t, build data = Some T ∧ abstracts T t ∧ red_black t
         ∧ ∀ key, tsearch t key = matches key (refs data).
Proof.
  destruct (rbt_insert_all_spec (refs data) empty Leaf abstracts_empty red_black_leaf)
    as ([] & T & Hrun & t & Ht & Hrb & He).
  exists T, t. unfold build. rewrite Hrun. split_and!; try done.
  intros key. rewrite tsearch_assoc by apply Hrb. by rewrite He.
Qed.

End RbtFacts.

(* ===================================================================== *)
(** * Facts about the hash table                                         *)
(* ===================================================================== *)

Module HashFacts.
Import Hash.

Local Open Scope Z_scope.

Lemma wrap_range z : 0 ≤ wrap z < size_t_modulus.
Proof. unfold wrap, size_t_modulus. apply Z.mod_pos_bound. lia. Qed.

Lemma wrap_small z : 0 ≤ z < size_t_modulus → wrap z = z.
Proof. intros H. unfold wrap. by apply Z.mod_small. Qed.

Lemma wrap_succ z : wrap (wrap z + 1) = wrap (z + 1).
Proof. unfold wrap, size_t_modulus. by rewrite Z.add_mod_idemp_l. Qed.

Lemma byte_range (c : ascii) : 0 ≤ Z.of_N (N_of_ascii c) < 256.
Proof.
  split; [lia|]. pose proof (N_ascii_bounded c) as H. lia.
Qed.

Lemma chain_search_insert cur name ref key :
  chain_search (chain_insert cur name ref) key
  = (chain_search cur key ++ (if String.eqb name key then [ref] else []))%list.
Proof.
  induction cur as [|b rest IH]; cbn.
  - by destruct (String.eqb name key).
  - destruct (String.eqb_spec (Hash.key b) name) as [<-|Hne]; cbn.
    + destruct (String.eqb (Hash.key b) key); [done|by rewrite app_nil_r].
    + destruct (String.eqb_spec (Hash.key b) key) as [<-|Hk]; [|done].
      assert (String.eqb name (Hash.key b) = false) as ->
        by (apply String.eqb_neq; congruence).
      by rewrite app_nil_r.
Qed.

(** No entry is created when the key already has one in the chain. *)
Lemma chain_insert_present cur name ref :
  name ∈ Hash.key <$> cur →
  Hash.key <$> chain_insert cur name ref = Hash.key <$> cur.
Proof.
  induction cur as [|b rest IH]; cbn; [by intros ?%elem_of_nil|].
  destruct (String.eqb_spec (Hash.key b) name) as [<-|Hne]; [done|].
  rewrite elem_of_cons. intros [?|Hin]; [congruence|]. cbn. by rewrite IH.
Qed.

Lemma chain_insert_key cur name ref : name ∈ Hash.key <$> chain_insert cur name ref.
Proof.
  induction cur as [|b rest IH]; cbn; [by left|].
  destruct (String.eqb_spec (Hash.key b) name) as [<-|Hne]; cbn; [by left|by right].
Qed.

Lemma chain_insert_nonempty cur name ref : chain_insert cur name ref ≠ [].
Proof. destruct cur as [|b rest]; cbn; [done|]. by destruct (String.eqb _ _). Qed.

Section with_char.
Variable char_signed : bool.

Lemma char_to_size_t_range c :
  0 ≤ char_to_size_t char_signed c < size_t_modulus.
Proof.
  unfold char_to_size_t. pose proof (byte_range c).
  destruct (char_signed && _)%bool; [apply wrap_range|].
  unfold size_t_modulus. lia.
Qed.

Lemma char_to_size_t_byte c :
  char_signed = false ∨ Z.of_N (N_of_ascii c) < 128 →
  char_to_size_t char_signed c = Z.of_N (N_of_ascii c).
Proof.
  unfold char_to_size_t. intros [->|H]; [done|].
  destruct (Z.leb_spec 128 (Z.of_N (N_of_ascii c))); [lia|].
  by rewrite andb_false_r.
Qed.

Lemma fold_hash_range md cs : ∀ h,
  0 < md → 0 ≤ h < md →
  0 ≤ fold_left (hash_step char_signed md) cs h < md.
Proof.
  induction cs as [|c cs IH]; intros h Hmd Hh; cbn; [done|].
  apply IH; [done|]. unfold hash_step. by apply Z.mod_pos_bound.
Qed.

(** For a bucket count above zero the hash is the fold of [hash_step]
    over the characters of the key. *)
Lemma hashStr_fold s md :
  0 < md →
  hashStr char_signed s md
  = Some (fold_left (hash_step char_signed md) (list_ascii_of_string s) 0).
Proof.
  intros Hmd. destruct s as [|c s]; [done|]. unfold hashStr.
  by destruct (Z.eqb_spec md 0); [lia|].
Qed.

(** The hash of any key is a valid bucket index. *)
Lemma hashStr_range s md :
  0 < md → ∃ h, hashStr char_signed s md = Some h ∧ 0 ≤ h < md.
Proof.
  intros Hmd. rewrite (hashStr_fold s md Hmd).
  eexists. split; [done|]. apply fold_hash_range; lia.
Qed.

Lemma hashStr_zero s :
  s ≠ EmptyString → hashStr char_signed s 0 = None.
Proof. by destruct s. Qed.

(** Without wrap-around and sign extension the hash is the polynomial
    rolling hash of the specification. *)
Lemma fold_hash_spec md cs : ∀ h,
  0 < md → 31 * (md - 1) + 255 < size_t_modulus → 0 ≤ h < md →
  Forall (λ c, char_signed = false ∨ Z.of_N (N_of_ascii c) < 128) cs →
  fold_left (hash_step char_signed md) cs h
  = fold_left (λ h c, (h * 31 + Z.of_N (N_of_ascii c)) mod md) cs h.
Proof.
  induction cs as [|c cs IH]; intros h Hmd Hov Hh Hcs; cbn; [done|].
  inv Hcs. assert (hash_step char_signed md h c
                   = (h * 31 + Z.of_N (N_of_ascii c)) mod md) as Hstep.
  { unfold hash_step. rewrite char_to_size_t_byte by done.
    rewrite wrap_small; [done|]. pose proof (byte_range c). nia. }
  rewrite Hstep. apply IH; try done. by apply Z.mod_pos_bound.
Qed.

Lemma hashStr_spec s md :
  0 < md → 31 * (md - 1) + 255 < size_t_modulus →
  Forall (λ c, char_signed = false ∨ Z.of_N (N_of_ascii c) < 128)
         (list_ascii_of_string s) →
  hashStr char_signed s md = Some (hash_spec s md).
Proof.
  intros Hmd Hov Hcs. rewrite (hashStr_fold s md Hmd). unfold hash_spec.
  f_equal. apply fold_hash_spec; try done; lia.
Qed.

Lemma bucket_of_spec name ht :
  (0 < length (table ht))%nat →
  ∃ idx cur, bucket_of char_signed name ht = Some (idx, cur)
             ∧ table ht !! idx = Some cur.
Proof.
  intros Hn. unfold bucket_of.
  destruct (hashStr_range name (Z.of_nat (length (table ht))))
    as (h & -> & Hh); [lia|]. cbn.
  destruct (lookup_lt_is_Some_2 (table ht) (Z.to_nat h)) as [cur Hcur]; [lia|].
  rewrite Hcur. cbn. eauto.
Qed.

(** One call of [insert]. *)
Lemma hash_insert_spec ref p ht :
  (0 < length (table ht))%nat →
  ∃ idx cur,
    bucket_of char_signed (fullName p) ht = Some (idx, cur)
    ∧ table ht !! idx = Some cur
    ∧ insert char_signed ref p ht
      = Some (mkHashTable
                (<[idx := chain_insert cur (fullName p) ref]> (table ht))
                (match cur with
                 | []%list => collisions ht
                 | _ => wrap (collisions ht + 1)
                 end)).
Proof.
  intros Hn. destruct (bucket_of_spec (fullName p) ht Hn) as (idx & cur & Hb & Hc).
  exists idx, cur. split_and!; [done|done|].
  unfold insert. rewrite Hb. cbn. by destruct cur.
Qed.

Lemma insert_length ref p ht ht' :
  insert char_signed ref p ht = Some ht' →
  length (table ht') = length (table ht).
Proof.
  unfold insert. destruct (bucket_of _ _ _) as [[idx cur]|]; [|done]. cbn.
  destruct cur; intros [= <-]; cbn; by rewrite length_insert.
Qed.

Lemma search_insert ref p ht key :
  (0 < length (table ht))%nat →
  ∃ ht' r,
    insert char_signed ref p ht = Some ht'
    ∧ search char_signed key ht = Some r
    ∧ search char_signed key ht'
      = Some (r ++ (if String.eqb (fullName p) key then [ref] else []))%list.
Proof.
  intros Hn.
  destruct (hashStr_range (fullName p) (Z.of_nat (length (table ht))))
    as (hp & Hhp & Hp); [lia|].
  destruct (hashStr_range key (Z.of_nat (length (table ht))))
    as (hk & Hhk & Hk); [lia|].
  destruct (lookup_lt_is_Some_2 (table ht) (Z.to_nat hp)) as [cp Hcp]; [lia|].
  destruct (lookup_lt_is_Some_2 (table ht) (Z.to_nat hk)) as [ck Hck]; [lia|].
  assert (insert char_signed ref p ht
          = Some (mkHashTable
                    (<[Z.to_nat hp := chain_insert cp (fullName p) ref]> (table ht))
                    (match cp with
                     | []%list => collisions ht
                     | _ => wrap (collisions ht + 1)
                     end))) as Hins.
  { unfold insert, bucket_of. rewrite Hhp. cbn. rewrite Hcp. cbn.
    by destruct cp. }
  eexists _, _. split; [exact Hins|].
  unfold search, bucket_of. cbn [table]. rewrite length_insert, Hhk. cbn.
  rewrite Hck. cbn. split; [done|].
  destruct (decide (Z.to_nat hp = Z.to_nat hk)) as [Heq|Hneq].
  - rewrite <-Heq, list_lookup_insert_eq by lia. cbn.
    rewrite chain_search_insert. rewrite Heq in Hcp. congruence.
  - rewrite list_lookup_insert_ne by done. rewrite Hck. cbn.
    destruct (String.eqb_spec (fullName p) key) as [Heq|_];
      [|by rewrite app_nil_r].
    subst key. congruence.
Qed.

Lemma hash_insert_all_spec ps : ∀ ht,
  (0 < length (table ht))%nat →
  ∃ ht', insert_all char_signed ps ht = Some ht'
         ∧ length (table ht') = length (table ht)
         ∧ ∀ key r, search char_signed key ht = Some r →
                    search char_signed key ht'
                    = Some (r ++ matches key ps)%list.
Proof.
  induction ps as [|[ref p] ps IH]; intros ht Hn; cbn [insert_all].
  - exists ht. split_and!; try done. intros key r ->. by rewrite app_nil_r.
  - destruct (hash_insert_spec ref p ht Hn) as (idx & cur & _ & _ & Hins).
    rewrite Hins. cbn. pose proof (insert_length _ _ _ _ Hins) as Hl.
    destruct (IH _ ltac:(rewrite Hl; exact Hn)) as (ht' & Hrun & Hl' & Hs).
    exists ht'. split_and!; [done|congruence|].
    intros key r Hr.
    destruct (search_insert ref p ht key Hn) as (ht1 & r1 & Hi1 & Hr1 & Hs1).
    rewrite Hins in Hi1. injection Hi1 as <-.
    rewrite Hr in Hr1. injection Hr1 as <-.
    rewrite (Hs _ _ Hs1), <-app_assoc. do 2 f_equal. cbn.
    by destruct (String.eqb (fullName p) key).
Qed.

Lemma search_new nBuckets key :
  (0 < nBuckets)%nat → search char_signed key (new nBuckets) = Some []%list.
Proof.
  intros Hn.
  destruct (bucket_of_spec key (new nBuckets)) as (idx & cur & Hb & Hc).
  { cbn. by rewrite length_replicate. }
  unfold search. rewrite Hb. cbn in *.
  apply lookup_replicate in Hc as [-> _]. done.
Qed.

Lemma hash_build_spec nBuckets data :
  (0 < nBuckets)%nat →
  ∃ ht, build char_signed nBuckets data = Some ht
        ∧ length (table ht) = nBuckets
        ∧ ∀ key, search char_signed key ht = Some (matches key (refs data)).
Proof.
  intros Hn. destruct (hash_insert_all_spec (refs data) (new nBuckets))
    as (ht & Hrun & Hl & Hs).
  { cbn. by rewrite length_replicate. }
  exists ht. split_and!; [done|by rewrite Hl; cbn; rewrite length_replicate|].
  intros key. by rewrite (Hs key [] (search_new _ _ Hn)).
Qed.

(** *** Collisions *)

(** With a single bucket every key lands in bucket 0. *)
Lemma bucket_of_single name c col :
  bucket_of char_signed name (mkHashTable [c] col) = Some (0%nat, c).
Proof.
  unfold bucket_of. cbn [table length].
  destruct (hashStr_range name (Z.of_nat 1)) as (h & -> & Hh); [lia|].
  cbn. replace (Z.to_nat h) with 0%nat by lia. done.
Qed.

Lemma insert_single_occupied ref p c col :
  c ≠ []%list →
  insert char_signed ref p (mkHashTable [c] col)
  = Some (mkHashTable [chain_insert c (fullName p) ref] (wrap (col + 1))).
Proof.
  intros Hc. unfold insert. rewrite bucket_of_single. cbn. by destruct c.
Qed.

Lemma insert_all_single ps : ∀ c col,
  c ≠ []%list → 0 ≤ col < size_t_modulus →
  ∃ c', insert_all char_signed ps (mkHashTable [c] col)
        = Some (mkHashTable [c'] (wrap (col + Z.of_nat (length ps))))
        ∧ c' ≠ []%list.
Proof.
  induction ps as [|[ref p] ps IH]; intros c col Hc Hcol; cbn [insert_all].
  - exists c. cbn. rewrite Z.add_0_r, wrap_small by done. done.
  - rewrite insert_single_occupied by done. cbn.
    destruct (IH (chain_insert c (fullName p) ref) (wrap (col + 1)))
      as (c' & Hrun & Hc'); [apply chain_insert_nonempty|apply wrap_range|].
    exists c'. split; [|done]. etrans; [exact Hrun|]. do 2 f_equal.
    unfold wrap, size_t_modulus. rewrite Z.add_mod_idemp_l by lia.
    f_equal. lia.
Qed.

Lemma insert_single_empty ref p :
  insert char_signed ref p (new 1)
  = Some (mkHashTable [[mkBucket (fullName p) [ref]]] 0).
Proof.
  unfold insert. change (new 1) with (mkHashTable [[]%list] 0).
  by rewrite bucket_of_single.
Qed.

(** One bucket: every insertion but the first finds it occupied. *)
Lemma build_single data :
  data ≠ []%list → Z.of_nat (length data) ≤ size_t_modulus →
  ∃ ht, build char_signed 1 data = Some ht
        ∧ collisionCount ht = Z.of_nat (length data) - 1.
Proof.
  destruct data as [|p data]; [done|]. intros _ Hlen. cbn in Hlen.
  change (build char_signed 1 (p :: data))
    with (insert char_signed 0%nat p (new 1)
          ≫= insert_all char_signed (zip (seq 1 (length data)) data)).
  rewrite insert_single_empty. cbn [mbind option_bind].
  destruct (insert_all_single (zip (seq 1 (length data)) data)
              [mkBucket (fullName p) [0%nat]] 0) as (c' & Hrun & _);
    [done|unfold size_t_modulus; lia|].
  eexists. split; [exact Hrun|]. cbn.
  rewrite length_zip_with, length_seq, Nat.min_id.
  rewrite wrap_small; [lia|]. lia.
Qed.

(** Inserting a key again right after it was inserted: the bucket is
    occupied, the counter grows, and the chains keep their entries. *)
Lemma insert_again ref1 p1 ref2 p2 ht ht1 :
  (0 < length (table ht))%nat → fullName p1 = fullName p2 →
  insert char_signed ref1 p1 ht = Some ht1 →
  ∃ ht2, insert char_signed ref2 p2 ht1 = Some ht2
         ∧ collisions ht2 = wrap (collisions ht1 + 1)
         ∧ entry_keys ht2 = entry_keys ht1.
Proof.
  intros Hn Hname Hins.
  destruct (hash_insert_spec ref1 p1 ht Hn) as (idx & cur & Hb & Hc & Hins').
  rewrite Hins in Hins'. injection Hins' as ->.
  assert (bucket_of char_signed (fullName p2)
            (mkHashTable (<[idx := chain_insert cur (fullName p1) ref1]> (table ht))
               match cur with
               | []%list => collisions ht
               | _ => wrap (collisions ht + 1)
               end)
          = Some (idx, chain_insert cur (fullName p1) ref1)) as Hb2.
  { unfold bucket_of in *. cbn [table]. rewrite length_insert, <-Hname.
    destruct (hashStr _ _ _) as [h|]; [|done]. cbn in *.
    destruct (table ht !! Z.to_nat h) eqn:E; [|done]. cbn in Hb.
    injection Hb as <- <-.
    rewrite list_lookup_insert_eq by (by eapply lookup_lt_Some). done. }
  unfold insert. rewrite Hb2. cbn.
  destruct (chain_insert cur (fullName p1) ref1) as [|b rest] eqn:Ech.
  { by apply chain_insert_nonempty in Ech. }
  rewrite <-Ech. eexists. split; [done|]. split; [done|].
  unfold entry_keys. cbn [table].
  rewrite list_insert_insert_eq, !list_fmap_insert. f_equal.
  apply chain_insert_present. rewrite <-Hname. apply chain_insert_key.
Qed.

End with_char.

End HashFacts.

(* ===================================================================== *)
(** * Facts about the data generator                                     *)
(* ===================================================================== *)

Section GeneratorFacts.
Context {Rng : Type}.
Variable rng_next : Rng → Z * Rng.
Variable uniform_int : Z → Z → Rng → Z * Rng.

(** The distribution returns a value of its range. *)
Hypothesis uniform_int_range : ∀ lo hi g,
  (lo ≤ hi → lo ≤ (uniform_int lo hi g).1 ≤ hi)%Z.

Lemma randomString_length len : ∀ rng,
  String.length (randomString uniform_int len rng).1 = len.
Proof.
  induction len as [|len IH]; intros rng; cbn; [done|].
  destruct (uniform_int 97 122 rng) as [c rng1].
  specialize (IH rng1). destruct (randomString uniform_int len rng1). cbn in *.
  by rewrite IH.
Qed.

Lemma fill_pool_spec cnt : ∀ rng,
  length (fill_pool uniform_int cnt rng).1 = cnt
  ∧ Forall (λ s, String.length s = 10) (fill_pool uniform_int cnt rng).1.
Proof.
  induction cnt as [|cnt IH]; intros rng; cbn [fill_pool]; [by split|].
  pose proof (randomString_length 10 rng) as Hs.
  destruct (randomString uniform_int 10 rng) as [s rng1].
  destruct (IH rng1) as [Hl Hf].
  destruct (fill_pool uniform_int cnt rng1) as [pool rng2]. cbn in *.
  split; [by rewrite Hl|by constructor].
Qed.

Lemma make_passenger_spec pool rng :
  0 < length pool →
  ∃ p rng', make_passenger rng_next uniform_int pool rng = Some (p, rng')
            ∧ pool !! Z.to_nat ((rng_next rng).1 mod Z.of_nat (length pool))
              = Some (fullName p).
Proof.
  intros Hp. unfold make_passenger.
  destruct (rng_next rng) as [r rng1]. cbn [fst].
  destruct (lookup_lt_is_Some_2 pool
              (Z.to_nat (r mod Z.of_nat (length pool)))) as [name Hname].
  { pose proof (Z.mod_pos_bound r (Z.of_nat (length pool))). lia. }
  rewrite Hname. cbn [mbind option_bind].
  destruct (uniform_int 1 1000 rng1) as [cabin rng2].
  pose proof (uniform_int_range 0 3 rng2) as Hti.
  destruct (uniform_int 0 3 rng2) as [ti rng3]. cbn in Hti.
  destruct (lookup_lt_is_Some_2 types (Z.to_nat ti)) as [ty Hty].
  { cbn. lia. }
  rewrite Hty. cbn [mbind option_bind].
  destruct (randomString uniform_int 6 rng3) as [port rng4].
  eexists _, _. split; reflexivity.
Qed.

Lemma fill_data_spec pool n : ∀ rng,
  0 < length pool →
  ∃ v rng', fill_data rng_next uniform_int n pool rng = Some (v, rng')
            ∧ length v = n
            ∧ Forall (λ p, fullName p ∈ pool) v
            ∧ Forall (λ p, ∃ g, pool !! Z.to_nat ((rng_next g).1
                                          mod Z.of_nat (length pool))
                                = Some (fullName p)) v.
Proof.
  induction n as [|n IH]; intros rng Hp; cbn [fill_data].
  - by eexists _, _.
  - destruct (make_passenger_spec pool rng Hp) as (p & rng1 & -> & Hname).
    cbn [mbind option_bind].
    destruct (IH rng1 Hp) as (v & rng2 & -> & Hl & Hf & Hi).
    cbn [mbind option_bind].
    eexists _, _. split; [done|]. split; [by rewrite <-Hl|].
    split; constructor; try done.
    + by eapply list_elem_of_lookup_2.
    + by exists rng.
Qed.

Lemma uniqueCnt_pos n : 0 < uniqueCnt n.
Proof. unfold uniqueCnt. lia. Qed.

Lemma makeData_spec n rng :
  ∃ pool rng1 data rng2,
    fill_pool uniform_int (uniqueCnt n) rng = (pool, rng1)
    ∧ makeData rng_next uniform_int n rng = Some (data, rng2)
    ∧ length pool = 10 `max` (n / 20)
    ∧ Forall (λ s, String.length s = 10) pool
    ∧ length data = n
    ∧ Forall (λ p, fullName p ∈ pool) data
    ∧ Forall (λ p, ∃ g, pool !! Z.to_nat ((rng_next g).1
                                  mod Z.of_nat (length pool))
                        = Some (fullName p)) data.
Proof.
  unfold makeData. destruct (fill_pool_spec (uniqueCnt n) rng) as [Hl Hf].
  destruct (fill_pool uniform_int (uniqueCnt n) rng) as [pool rng1]. cbn in *.
  destruct (fill_data_spec pool n rng1)
    as (v & rng2 & Hrun & Hlen & Hin & Hidx).
  { rewrite Hl. apply uniqueCnt_pos. }
  exists pool, rng1, v, rng2. split_and!; done.
Qed.
End GeneratorFacts.

(* ===================================================================== *)
(** * Facts about the benchmark                                          *)
(* ===================================================================== *)

Module BenchFacts.
Import Bench.

Lemma string_app_assoc (a b c : string) : (a +:+ b) +:+ c = a +:+ (b +:+ c).
Proof.
  induction a as [|x a IH]; [done|].
  change (String x ((a +:+ b) +:+ c) = String x (a +:+ (b +:+ c))).
  by f_equal.
Qed.

Lemma string_app_empty_r (a : string) : a +:+ EmptyString = a.
Proof.
  induction a as [|x a IH]; [done|].
  change (String x (a +:+ EmptyString) = String x a). by f_equal.
Qed.

Section MainFacts.
Context {Rng : Type}.
Variable rng_next : Rng → Z * Rng.
Variable uniform_int : Z → Z → Rng → Z * Rng.
Variable char_signed : bool.
Variable clock : nat → Z.
Variable show_double : Z → string.

Hypothesis uniform_int_range : ∀ lo hi g,
  (lo ≤ hi → lo ≤ (uniform_int lo hi g).1 ≤ hi)%Z.

Abbreviation World := (@World Rng).
Abbreviation measure := (measure rng_next uniform_int char_signed clock).
Abbreviation measure_all := (measure_all rng_next uniform_int char_signed clock).
Abbreviation main := (main rng_next uniform_int char_signed clock show_double).

Lemma write_csv_eq rows : ∀ out,
  write_csv show_double rows out = out +:+ csv_text show_double rows.
Proof.
  unfold write_csv, csv_text.
  induction rows as [|r rows IH] using rev_ind; intros out; cbn.
  - by rewrite string_app_empty_r.
  - rewrite fold_left_app, foldr_app. cbn. rewrite IH.
    rewrite !string_app_assoc. do 3 f_equal.
    clear IH. induction rows as [|r' rows IH]; cbn.
    + by rewrite string_app_empty_r.
    + by rewrite string_app_assoc, IH.
Qed.

Lemma measure_spec n (w : World) :
  (1 ≤ n)%Z →
  ∃ r w' data ht,
    measure n w = Some (r, w')
    ∧ size r = n
    ∧ w_ticks w' = w_ticks w + 10
    ∧ w_csv w' = w_csv w
    ∧ measured clock (w_ticks w) r
    ∧ length data = Z.to_nat n
    ∧ Hash.build char_signed (Z.to_nat (n * 2 + 1)) data = Some ht
    ∧ collisions r = Hash.collisionCount ht.
Proof.
  intros Hn. unfold Bench.measure.
  destruct (makeData_spec rng_next uniform_int uniform_int_range (Z.to_nat n)
              (w_rng w)) as (pool & rng1 & data & rng2 & _ & -> & _ & _ & Hlen & _).
  cbn [mbind option_bind].
  pose proof (uniform_int_range 0 (n - 1) rng2) as Hi.
  destruct (uniform_int 0 (n - 1) rng2) as [i rng3]. cbn in Hi.
  destruct (lookup_lt_is_Some_2 data (Z.to_nat i)) as [p Hp]; [lia|].
  rewrite Hp. cbn [mbind option_bind].
  destruct (BstFacts.bst_build_spec data) as (bst & -> & _).
  cbn [mbind option_bind timeIt w_ticks w_rng w_csv].
  destruct (RbtFacts.rbt_build_spec data) as (T & t & -> & Ht & _ & _).
  cbn [mbind option_bind]. rewrite (RbtFacts.search_spec _ _ _ Ht).
  cbn [mbind option_bind].
  destruct (HashFacts.hash_build_spec char_signed (Z.to_nat (n * 2 + 1)) data)
    as (ht & Hht & _ & Hs); [lia|].
  rewrite Hht. cbn [mbind option_bind]. rewrite Hs. cbn [mbind option_bind].
  eexists _, _, data, ht. split; [reflexivity|].
  cbn [size w_ticks w_csv collisions].
  split_and!; try done; [lia|].
  unfold measured. cbn [tLinear tBST tRBT tHash tMultimap].
  replace (w_ticks w + 1) with (S (w_ticks w)) by lia.
  replace (w_ticks w + 2) with (S (S (w_ticks w))) by lia.
  replace (w_ticks w + 3) with (S (S (S (w_ticks w)))) by lia.
  replace (w_ticks w + 4) with (S (S (S (S (w_ticks w))))) by lia.
  replace (w_ticks w + 5) with (S (S (S (S (S (w_ticks w)))))) by lia.
  replace (w_ticks w + 6) with (S (S (S (S (S (S (w_ticks w))))))) by lia.
  replace (w_ticks w + 7) with (S (S (S (S (S (S (S (w_ticks w)))))))) by lia.
  replace (w_ticks w + 8) with (S (S (S (S (S (S (S (S (w_ticks w))))))))) by lia.
  replace (w_ticks w + 9)
    with (S (S (S (S (S (S (S (S (S (w_ticks w)))))))))) by lia.
  done.
Qed.

Lemma measure_all_spec ns : ∀ (w : World),
  Forall (λ n, 1 ≤ n)%Z ns →
  ∃ rows w',
    measure_all ns w = Some (rows, w')
    ∧ w_csv w' = w_csv w
    ∧ length rows = length ns
    ∧ ∀ i n, ns !! i = Some n →
             ∃ r, rows !! i = Some r ∧ row_ok char_signed clock (w_ticks w + 10 * i) n r.
Proof.
  induction ns as [|n ns IH]; intros w Hns; cbn [Bench.measure_all].
  - eexists _, _. split_and!; try done.
  - inv Hns.
    destruct (measure_spec n w) as (r & w1 & data & ht & -> & Hr); [done|].
    destruct Hr as (Hsz & Ht & Hc & Hm & Hl & Hb & Hcol).
    cbn [mbind option_bind].
    destruct (IH w1) as (rows & w2 & -> & Hc2 & Hl2 & Hrows); [done|].
    cbn [mbind option_bind].
    eexists _, _. split; [reflexivity|]. split_and!; [congruence|cbn; lia|].
    intros [|i] m Hm'; cbn in Hm'.
    + injection Hm' as <-. exists r. split; [done|].
      replace (w_ticks w + 10 * 0) with (w_ticks w) by lia.
      split_and!; try done; by exists data, ht.
    + destruct (Hrows i m Hm') as (r' & Hr' & Hok). exists r'. split; [done|].
      replace (w_ticks w + 10 * S i) with (w_ticks w1 + 10 * i) by lia. done.
Qed.

Lemma sizes_positive : Forall (λ n, 1 ≤ n)%Z sizes.
Proof. unfold sizes. repeat constructor; lia. Qed.

Lemma main_spec (w : World) :
  ∃ rows w',
    main w = Some w'
    ∧ w_csv w' = csv_text show_double rows
    ∧ size <$> rows = sizes
    ∧ ∀ i r, rows !! i = Some r →
             ∃ n, sizes !! i = Some n ∧ row_ok char_signed clock (w_ticks w + 10 * i) n r.
Proof.
  destruct (measure_all_spec sizes w sizes_positive)
    as (rows & w1 & Hrun & Hc & Hl & Hrows).
  exists rows. eexists. unfold Bench.main. rewrite Hrun. cbn [mbind option_bind].
  split; [reflexivity|]. cbn [w_csv]. rewrite write_csv_eq.
  split; [done|]. split.
  - apply list_eq. intros i. rewrite list_lookup_fmap.
    destruct (sizes !! i) as [n|] eqn:En.
    + destruct (Hrows i n En) as (r & -> & <- & _). done.
    + apply lookup_ge_None in En. rewrite <-Hl in En.
      apply lookup_ge_None in En. by rewrite En.
  - intros i r Hr.
    destruct (sizes !! i) as [n|] eqn:En.
    + destruct (Hrows i n En) as (r' & Hr' & Hok). exists n.
      split; [done|]. congruence.
    + apply lookup_ge_None in En. rewrite <-Hl in En.
      apply lookup_ge_None in En. congruence.
Qed.
End MainFacts.

End BenchFacts.


(* ===================================================================== *)
(** * Facts about sorted entry lists                                     *)
(* ===================================================================== *)

Lemma entries_insert_found el name pl er ref :
  Forall (λ e, key_lt e.1 name) el →
  entries_insert name ref (el ++ (name, pl) :: er)
  = el ++ (name, pl ++ [ref]) :: er.
Proof.
  induction el as [|[k pl'] el IH]; intros Hl; cbn [entries_insert app].
  - by rewrite String.eqb_refl.
  - inv Hl. cbn in *.
    rewrite (proj2 (String.eqb_neq name k)) by (symmetry; by apply key_lt_ne).
    rewrite (key_lt_asym k name) by done. by rewrite IH.
Qed.

Lemma entries_insert_new el er name ref :
  Forall (λ e, key_lt e.1 name) el → Forall (λ e, key_lt name e.1) er →
  entries_insert name ref (el ++ er) = el ++ (name, [ref]) :: er.
Proof.
  induction el as [|[k pl'] el IH]; intros Hl Hr; cbn [entries_insert app].
  - destruct er as [|[k pl] er]; [done|]. inv Hr. cbn in *.
    rewrite (proj2 (String.eqb_neq name k)) by (by apply key_lt_ne).
    by replace (String.ltb name k) with true.
  - inv Hl. cbn in *.
    rewrite (proj2 (String.eqb_neq name k)) by (symmetry; by apply key_lt_ne).
    rewrite (key_lt_asym k name) by done. by rewrite IH.
Qed.

(** Below an entry with a larger key the insertion stays to its left. *)
Lemma entries_insert_app_l el k pl er name ref :
  key_lt name k →
  entries_insert name ref (el ++ (k, pl) :: er)
  = entries_insert name ref el ++ (k, pl) :: er.
Proof.
  intros Hlt. induction el as [|[k' pl'] el IH]; cbn [entries_insert app].
  - rewrite (proj2 (String.eqb_neq name k)) by (by apply key_lt_ne).
    by replace (String.ltb name k) with true.
  - destruct (String.eqb name k'); [done|].
    destruct (String.ltb name k'); [done|]. by rewrite IH.
Qed.

(** Above an entry, and everything to its left, it goes to its right. *)
Lemma entries_insert_app_r el k pl er name ref :
  Forall (λ e, key_lt e.1 name) el → key_lt k name →
  entries_insert name ref (el ++ (k, pl) :: er)
  = el ++ (k, pl) :: entries_insert name ref er.
Proof.
  intros Hl Hlt. induction Hl as [|[k' pl'] el Hk Hl IH];
    cbn [entries_insert app]; cbn in *.
  - rewrite (proj2 (String.eqb_neq name k)) by (symmetry; by apply key_lt_ne).
    by rewrite (key_lt_asym k name).
  - rewrite (proj2 (String.eqb_neq name k')) by (symmetry; by apply key_lt_ne).
    rewrite (key_lt_asym k' name) by done. by rewrite IH.
Qed.

Lemma entries_insert_keys name ref es k :
  k ∈ (entries_insert name ref es).*1 ↔ k = name ∨ k ∈ es.*1.
Proof.
  induction es as [|[k' pl] es IH]; cbn [entries_insert].
  - cbn. rewrite list_elem_of_singleton. set_solver.
  - destruct (String.eqb_spec name k') as [->|Hne].
    { cbn. set_solver. }
    destruct (String.ltb name k'); cbn; cbn in IH; set_solver.
Qed.

Lemma entries_insert_sorted name ref es :
  StronglySorted key_lt es.*1 →
  StronglySorted key_lt (entries_insert name ref es).*1.
Proof.
  induction es as [|[k pl] es IH]; cbn [entries_insert]; intros Hs.
  - cbn. repeat constructor.
  - cbn in Hs. inv Hs.
    destruct (String.eqb_spec name k) as [->|Hne].
    { cbn. by constructor. }
    destruct (String.ltb name k) eqn:Hlt; cbn.
    + constructor; [by constructor|]. constructor; [done|].
      eapply Forall_impl; [eassumption|]. intros k' Hk'. cbn in Hk'.
      by eapply key_lt_trans.
    + constructor; [by apply IH|].
      rewrite Forall_forall. intros k' [->|Hin]%entries_insert_keys.
      * by apply key_ltb_false.
      * rewrite Forall_forall in H2. by apply H2.
Qed.

Lemma entries_insert_length name ref es :
  StronglySorted key_lt es.*1 →
  length (entries_insert name ref es)
  = if decide (name ∈ es.*1) then length es else S (length es).
Proof.
  induction es as [|[k pl] es IH]; cbn [entries_insert]; intros Hs.
  - done.
  - cbn in Hs. inv Hs.
    destruct (String.eqb_spec name k) as [->|Hne].
    { cbn. rewrite decide_True; [done|]. by left. }
    destruct (String.ltb name k) eqn:Hlt.
    + cbn [length]. rewrite decide_False; [done|].
      cbn. intros [?|Hin]%elem_of_cons; [done|].
      rewrite Forall_forall in H2. apply H2 in Hin.
      by apply (key_lt_irrefl name), (key_lt_trans _ k).
    + cbn [length]. rewrite IH by done. cbn [fmap list_fmap fst].
      destruct (decide (name ∈ es.*1)) as [Hin|Hin].
      * rewrite decide_True; [done|]. by right.
      * rewrite decide_False; [done|]. by intros [?|?]%elem_of_cons.
Qed.

(** The payload found under a key after an insertion. *)
Lemma assoc_entries_insert name ref es key :
  StronglySorted key_lt es.*1 →
  assoc key (entries_insert name ref es)
  = assoc key es ++ (if String.eqb name key then [ref] else []).
Proof.
  induction es as [|[k pl] es IH]; cbn [entries_insert assoc]; intros Hs.
  - rewrite String.eqb_sym. by destruct (String.eqb name key).
  - cbn in Hs. inv Hs.
    destruct (String.eqb_spec name k) as [->|Hne].
    { cbn [assoc]. rewrite (String.eqb_sym k key).
      destruct (String.eqb key k); [done|]. by rewrite app_nil_r. }
    destruct (String.ltb name k) eqn:Hlt.
    + cbn [assoc]. rewrite (String.eqb_sym name key).
      destruct (String.eqb_spec key name) as [->|Hne']; [|by rewrite app_nil_r].
      rewrite (proj2 (String.eqb_neq name k)) by done.
      rewrite assoc_notin; [done|]. intros Hin.
      rewrite Forall_forall in H2. apply H2 in Hin.
      by apply (key_lt_irrefl name), (key_lt_trans _ k).
    + cbn [assoc]. destruct (String.eqb_spec key k) as [->|Hne'].
      * rewrite (proj2 (String.eqb_neq name k)) by done. by rewrite app_nil_r.
      * by apply IH.
Qed.

(** The entries of a data vector are sorted by key, hold the keys of the
    data, and under each key the references of its records in order. *)
Lemma entries_of_spec_from ps : ∀ es,
  StronglySorted key_lt es.*1 →
  let es' := fold_left (λ es rp, entries_insert (fullName rp.2) rp.1 es) ps es in
  StronglySorted key_lt es'.*1
  ∧ (∀ k, k ∈ es'.*1 ↔ k ∈ es.*1 ∨ k ∈ (fullName ∘ snd) <$> ps)
  ∧ ∀ key, assoc key es' = assoc key es ++ matches key ps.
Proof.
  induction ps as [|[ref p] ps IH]; intros es Hs; cbn [fold_left].
  - cbn. split; [done|]. split; [set_solver|]. intros. by rewrite app_nil_r.
  - destruct (IH (entries_insert (fullName p) ref es)) as (H1 & H2 & H3).
    { by apply entries_insert_sorted. }
    cbn zeta. split; [done|]. split.
    + intros k. rewrite H2, entries_insert_keys. cbn. set_solver.
    + intros key. rewrite H3, assoc_entries_insert by done. cbn [matches].
      rewrite <-app_assoc. by destruct (String.eqb (fullName p) key).
Qed.

Lemma entries_of_spec ps :
  StronglySorted key_lt (entries_of ps).*1
  ∧ (∀ k, k ∈ (entries_of ps).*1 ↔ k ∈ (fullName ∘ snd) <$> ps)
  ∧ ∀ key, assoc key (entries_of ps) = matches key ps.
Proof.
  destruct (entries_of_spec_from ps []) as (H1 & H2 & H3); [constructor|].
  split; [done|]. split; [|done]. intros k. rewrite H2. cbn. set_solver.
Qed.

(* ===================================================================== *)
(** * More about linear search and the unbalanced tree                   *)
(* ===================================================================== *)

Lemma refs_from_cons i p arr :
  refs_from i (p :: arr) = (i, p) :: refs_from (S i) arr.
Proof. done. Qed.

Lemma refs_from_app i a b :
  refs_from i (a ++ b) = refs_from i a ++ refs_from (i + length a) b.
Proof.
  revert i. induction a as [|p a IH]; intros i.
  - cbn. by rewrite Nat.add_0_r.
  - cbn [app length]. rewrite !refs_from_cons, IH. cbn.
    by rewrite Nat.add_succ_r.
Qed.

Lemma matches_refs_from key arr : ∀ i,
  matches key (refs_from i arr)
  = (λ j, i + j) <$> matches key (refs_from 0 arr).
Proof.
  induction arr as [|p arr IH]; intros i; [done|].
  rewrite !refs_from_cons. cbn [matches].
  rewrite (IH (S i)), (IH 1).
  destruct (String.eqb (fullName p) key); cbn [fmap list_fmap];
    rewrite <-list_fmap_compose; [f_equal; [lia|]|];
    apply list_fmap_ext; intros; cbn; lia.
Qed.

Lemma linearSearch_app_matches a b key :
  linearSearch (a ++ b) key
  = linearSearch a key ++ ((λ j, length a + j) <$> linearSearch b key).
Proof.
  rewrite !linearSearch_matches. unfold refs.
  rewrite refs_from_app, matches_app, Nat.add_0_l.
  by rewrite (matches_refs_from key b (length a)).
Qed.

Module BstMore.
Import Bst BstFacts.

Lemma bst_keys_node k pl l r : keys (Node k pl l r) = keys l ++ k :: keys r.
Proof. unfold keys. cbn. by rewrite fmap_app. Qed.

Lemma bst_ordered_sorted t : ordered t ↔ StronglySorted key_lt (keys t).
Proof.
  induction t as [|k pl l IHl r IHr]; cbn [ordered].
  - split; [constructor|done].
  - rewrite bst_keys_node, sorted_middle, IHl, IHr. tauto.
Qed.

Lemma forall_keys (P : string → Prop) (es : list (string * list PassengerPtr)) :
  Forall P es.*1 ↔ Forall (λ e, P e.1) es.
Proof. by rewrite Forall_fmap. Qed.

(** On an ordered tree the loop of [insert] acts on the in-order list of
    entries as [entries_insert]. *)
Lemma entries_insert_at t name ref :
  ordered t →
  entries (insert_at t name ref) = entries_insert name ref (entries t).
Proof.
  induction t as [|k pl l IHl r IHr]; cbn [ordered insert_at entries];
    [done|].
  intros (Hol & Hor & Hl & Hr). unfold keys in Hl, Hr.
  apply forall_keys in Hl, Hr.
  destruct (String.eqb_spec name k) as [->|Hne].
  - cbn [entries]. by rewrite entries_insert_found.
  - destruct (String.ltb name k) eqn:Hlt; cbn [entries].
    + by rewrite IHl, entries_insert_app_l.
    + rewrite IHr by done. rewrite entries_insert_app_r; [done| |].
      * eapply Forall_impl; [exact Hl|]. intros e He. cbn in He.
        eapply key_lt_trans; [exact He|]. by apply key_ltb_false.
      * by apply key_ltb_false.
Qed.

Lemma ordered_insert_at t name ref :
  ordered t → ordered (insert_at t name ref).
Proof.
  intros Ho. apply bst_ordered_sorted. unfold keys.
  rewrite entries_insert_at by done.
  by apply entries_insert_sorted, bst_ordered_sorted.
Qed.

Lemma bst_insert_all_entries ps : ∀ t,
  ordered t →
  ∃ t', insert_all ps t = Some t' ∧ ordered t'
        ∧ entries t'
          = fold_left (λ es rp, entries_insert (fullName rp.2) rp.1 es) ps
                      (entries t).
Proof.
  induction ps as [|[ref p] ps IH]; intros t Ho; cbn [insert_all fold_left].
  - by exists t.
  - rewrite insert_total. cbn [mbind option_bind].
    destruct (IH (insert_at t (fullName p) ref)) as (t' & -> & Ho' & He).
    { by apply ordered_insert_at. }
    exists t'. split; [done|]. split; [done|].
    by rewrite He, entries_insert_at.
Qed.

(** *** Ascending input *)

Lemma height_spine es : height (spine es) = length es.
Proof. induction es as [|[k pl] es IH]; cbn; [done|]. by rewrite IH. Qed.

Lemma insert_at_spine es name ref :
  Forall (λ k, key_lt k name) es.*1 →
  insert_at (spine es) name ref = spine (es ++ [(name, [ref])]).
Proof.
  induction es as [|[k pl] es IH]; intros Hl; cbn [spine insert_at app];
    [done|].
  cbn in Hl. inv Hl.
  rewrite (proj2 (String.eqb_neq name k)) by (symmetry; by apply key_lt_ne).
  rewrite (key_lt_asym k name) by done. by rewrite IH.
Qed.

Lemma insert_all_spine ps : ∀ es,
  StronglySorted key_lt (es.*1 ++ ((fullName ∘ snd) <$> ps)) →
  insert_all ps (spine es)
  = Some (spine (es ++ ((λ rp, (fullName rp.2, [rp.1])) <$> ps))).
Proof.
  induction ps as [|[ref p] ps IH]; intros es Hs; cbn [insert_all fmap list_fmap].
  - by rewrite app_nil_r.
  - rewrite insert_total. cbn [mbind option_bind].
    cbn in Hs. apply sorted_middle in Hs as (Hs1 & Hs2 & Hl & Hr).
    rewrite insert_at_spine by done.
    rewrite IH; [by rewrite <-app_assoc|].
    rewrite fmap_app. cbn. rewrite <-app_assoc. cbn.
    apply sorted_middle. done.
Qed.

Lemma bst_build_entries data :
  ∃ t, build data = Some t ∧ ordered t ∧ entries t = entries_of (refs data).
Proof.
  destruct (bst_insert_all_entries (refs data) empty) as (t & Hrun & Ho & He);
    [done|].
  by exists t.
Qed.
End BstMore.

(* ===================================================================== *)
(** * More about the red-black tree                                      *)
(* ===================================================================== *)

Module RbtMore.
Import Rbt RbtFacts.

(** *** The in-order entries after an insertion *)

Lemma rbt_insert_entries_spec T t ref p :
  abstracts T t → red_black t →
  wp (insert ref p) T
     (λ _ T', ∃ t', abstracts T' t' ∧ red_black t'
                    ∧ entries t' = entries_insert (fullName p) ref (entries t)).
Proof.
  intros H (Ho & Hc & Hn & m & Hb). unfold insert.
  wstep. wstep. wstep. wstep.
  replace (root T) with (tptr t) by (by destruct H as [-> _]).
  apply wp_bind. eapply wp_mono.
  { apply (insert_descend_spec (fullName p) ref t _ Top T);
      [done|done|split; constructor|by apply abs_height]. }
  cbn [plug]. intros [[]|y] T' Hpost; cbn in Hpost.
  - destruct Hpost as (C & c & l & a & pl & r & -> & -> & HT').
    apply wp_ret. eexists. split; [exact HT'|].
    rewrite ordered_sorted, keys_plug_node in Ho.
    split.
    + destruct (colours_payload C c l a (fullName p) pl (pl ++ [ref]) r)
        as (? & ? & ?); eauto.
      split_and!; try done.
      by rewrite ordered_sorted, keys_plug_node.
    + rewrite !entries_plug_node. symmetry. apply entries_insert_found.
      rewrite sorted_middle in Ho. destruct Ho as (_ & _ & Hlt & _).
      by rewrite Forall_fmap in Hlt.
  - destruct Hpost as (-> & C & -> & -> & Hbl & Hbr).
    apply insert_link_spec; [done|done|]. intros z T' HT'.
    destruct (plug_decompose _ _ _ Hn Hc Hb) as (_ & n & Hbn & Hctx & _).
    cbn in Hbn. subst n.
    rewrite ordered_sorted, keys_plug in Ho. cbn in Ho.
    assert (Forall (λ k, key_lt k (fullName p)) (cleft C).*1) as Hkl.
    { by rewrite Forall_fmap. }
    assert (Forall (λ k, key_lt (fullName p) k) (cright C).*1) as Hkr.
    { by rewrite Forall_fmap. }
    eapply wp_mono; [by eapply (fixInsert_spec C _ Leaf z _ _ Leaf 0)|].
    intros [] T'' (t' & Ht' & Hc' & Hn' & Hb' & He'). cbv beta.
    rewrite entries_plug in He'. cbn in He'.
    exists t'. split; [done|]. split.
    + split_and!; try done. rewrite ordered_sorted. unfold keys.
      rewrite He', fmap_app. cbn. by apply sorted_insert.
    + rewrite He', entries_plug. cbn. symmetry. by apply entries_insert_new.
Qed.

Lemma rbt_insert_all_entries ps : ∀ T t,
  abstracts T t → red_black t →
  wp (insert_all ps) T
     (λ _ T', ∃ t', abstracts T' t' ∧ red_black t'
                    ∧ entries t'
                      = fold_left
                          (λ es rp, entries_insert (fullName rp.2) rp.1 es)
                          ps (entries t)).
Proof.
  induction ps as [|[ref p] ps IH]; intros T t H Hrb; cbn [insert_all fold_left].
  - apply wp_ret. by exists t.
  - apply wp_bind. eapply wp_mono; [by apply rbt_insert_entries_spec|].
    intros [] T1 (t1 & H1 & Hrb1 & He1). cbv beta.
    eapply wp_mono; [by apply (IH T1 t1)|].
    intros [] T2 (t2 & H2 & Hrb2 & He2). cbv beta.
    exists t2. split_and!; try done. by rewrite He2, He1.
Qed.

Lemma rbt_build_entries data :
  ∃ T t, build data = Some T ∧ abstracts T t ∧ red_black t
         ∧ entries t = entries_of (refs data).
Proof.
  destruct (rbt_insert_all_entries (refs data) empty Leaf abstracts_empty
              red_black_leaf) as ([] & T & Hrun & t & Ht & Hrb & He).
  exists T, t. unfold build. by rewrite Hrun.
Qed.

(** *** Height *)

Lemma length_addrs_entries t : length (addrs t) = length (entries t).
Proof.
  induction t as [|c l IHl a k pl r IHr]; cbn; [done|].
  rewrite !length_app. cbn. by rewrite IHl, IHr.
Qed.

(** A tree with black height [n] has at least [2^n - 1] nodes. *)
Lemma black_height_size t : ∀ n,
  black_height t n → 2 ^ n ≤ S (length (addrs t)).
Proof.
  induction t as [|c l IHl a k pl r IHr]; intros n Hb; cbn in Hb.
  - subst n. cbn. lia.
  - cbn [addrs]. rewrite length_app. cbn [length].
    destruct c.
    + destruct Hb as [Hl Hr]. apply IHl in Hl. lia.
    + destruct n as [|n]; [done|]. destruct Hb as [Hl Hr].
      apply IHl in Hl. apply IHr in Hr. rewrite Nat.pow_succ_r'. lia.
Qed.

(** Without red-red edges a path is at most twice as long as the number of
    black nodes on it. *)
Lemma black_height_height t : ∀ n,
  no_red_red t → black_height t n →
  height t ≤ 2 * n + (match tcolor t with RED => 1 | BLACK => 0 end).
Proof.
  induction t as [|c l IHl a k pl r IHr]; intros n Hn Hb; cbn in Hb.
  - subst n. cbn. lia.
  - cbn [no_red_red] in Hn. destruct Hn as (Hc & Hnl & Hnr).
    cbn [height tcolor]. destruct c.
    + destruct Hb as [Hl Hr]. destruct (Hc eq_refl) as [Hcl Hcr].
      pose proof (IHl n Hnl Hl). pose proof (IHr n Hnr Hr).
      rewrite Hcl, Hcr in *. lia.
    + destruct n as [|n]; [done|]. destruct Hb as [Hl Hr].
      pose proof (IHl n Hnl Hl). pose proof (IHr n Hnr Hr).
      destruct (tcolor l), (tcolor r); lia.
Qed.

Lemma red_black_height t :
  red_black t → height t ≤ 2 * Nat.log2 (S (length (addrs t))).
Proof.
  intros (_ & Hc & Hn & n & Hb).
  pose proof (black_height_height t n Hn Hb) as Hh. rewrite Hc in Hh.
  pose proof (black_height_size t n Hb) as Hs.
  assert (n ≤ Nat.log2 (S (length (addrs t)))); [|lia].
  rewrite <-(Nat.log2_pow2 n) by lia. by apply Nat.log2_le_mono.
Qed.

Ltac heap_eq :=
  let i := fresh "i" in
  apply map_eq; intros i;
  repeat first
    [ rewrite lookup_insert_ne by congruence
    | match goal with
      | |- (<[?a := _]> _) !! _ = _ =>
          destruct (decide (i = a)) as [->|?];
          [look; symmetry; eassumption|]
      end ];
  reflexivity.

(** *** A rotation undoes the opposite one *)

Lemma rotate_left_right T C cx A x kx px cy B y ky py G :
  at_focus T C (Node cx A x kx px (Node cy B y ky py G)) →
  (rotateLeft x;; rotateRight y) T = Some (tt, T).
Proof.
  destruct T as [rt h].
  intros (Hroot & Hctx & (Hx & HA & (Hy & HB & HG)) & Hnd).
  destruct B as [|cb Bl b kb pb Br];
    destruct C as [|cp p kp pp r up|cp l p kp pp up];
    cbn [repr repr_ctx addrs caddrs tptr cptr croot heap root] in *;
    destruct_and?;
    (etrans; [unfold rotateLeft, rotateRight; mrun|]);
    mred; apply (f_equal (λ T, Some (tt, T))); f_equal;
    first [congruence | heap_eq].
Qed.

Lemma rotate_right_left T C cy cx A x kx px B y ky py G :
  at_focus T C (Node cy (Node cx A x kx px B) y ky py G) →
  (rotateRight y;; rotateLeft x) T = Some (tt, T).
Proof.
  destruct T as [rt h].
  intros (Hroot & Hctx & (Hy & (Hx & HA & HB) & HG) & Hnd).
  destruct B as [|cb Bl b kb pb Br];
    destruct C as [|cp p kp pp r up|cp l p kp pp up];
    cbn [repr repr_ctx addrs caddrs tptr cptr croot heap root] in *;
    destruct_and?;
    (etrans; [unfold rotateLeft, rotateRight; mrun|]);
    mred; apply (f_equal (λ T, Some (tt, T))); f_equal;
    first [congruence | heap_eq].
Qed.

(** *** Destruction *)

(** [repr] reads the heap at the addresses of the tree only. *)
Lemma repr_ext h h' t : ∀ par,
  (∀ a, a ∈ addrs t → h' !! a = h !! a) → repr h par t → repr h' par t.
Proof.
  induction t as [|c l IHl a k pl r IHr]; intros par Hext; cbn [repr addrs] in *;
    [done|].
  intros (Ha & Hl & Hr). split_and!.
  - rewrite Hext; [done|]. apply elem_of_app. right. by left.
  - apply IHl; [|done]. intros b Hb. apply Hext, elem_of_app. by left.
  - apply IHr; [|done]. intros b Hb. apply Hext, elem_of_app.
    right. by right.
Qed.

Lemma delete_node_run T x nd :
  heap T !! x = Some nd →
  delete_node x T = Some (tt, mkRBTree (root T) (base.delete x (heap T))).
Proof. intros H. unfold delete_node. by rewrite H. Qed.

Lemma destroy_spec t : ∀ fuel rt h par,
  repr h par t → NoDup (addrs t) → height t < fuel →
  ∃ h', destroy fuel (tptr t) (mkRBTree rt h) = Some (tt, mkRBTree rt h')
        ∧ ∀ a, h' !! a = if decide (a ∈ addrs t) then None else h !! a.
Proof.
  induction t as [|c l IHl a k pl r IHr]; intros fuel rt h par Hrep Hnd Hf;
    (destruct fuel as [|fuel]; [cbn in Hf; lia|]);
    cbn [destroy tptr height addrs repr] in *.
  - exists h. split; [done|]. intros a. by rewrite decide_False by set_solver.
  - destruct Hrep as (Ha & Hl & Hr).
    apply NoDup_app in Hnd as (Hndl & Hal & Hndr).
    apply NoDup_cons in Hndr as (Har & Hndr).
    destruct (IHl fuel rt h (Some a) Hl Hndl) as (h1 & Hrun1 & Hh1); [lia|].
    assert (h1 !! a = h !! a) as Ha1.
    { rewrite Hh1, decide_False; [done|]. intros Hin. apply (Hal a Hin). by left. }
    destruct (IHr fuel rt h1 (Some a)) as (h2 & Hrun2 & Hh2); [|done|lia|].
    { eapply repr_ext; [|exact Hr]. intros b Hb.
      rewrite Hh1, decide_False; [done|].
      intros Hin. apply (Hal b Hin). by right. }
    assert (h2 !! a = h !! a) as Ha2.
    { by rewrite Hh2, decide_False. }
    exists (base.delete a h2). split.
    + erewrite bind_run by (eapply get_left_run; exact Ha). cbn [left].
      erewrite bind_run by exact Hrun1.
      erewrite bind_run by (eapply get_right_run; cbn [heap]; by rewrite Ha1).
      cbn [right].
      erewrite bind_run by exact Hrun2.
      erewrite delete_node_run; [done|]. cbn [heap]. by rewrite Ha2.
    + intros b. destruct (decide (b = a)) as [->|Hne].
      * rewrite lookup_delete_eq, decide_True; [done|].
        apply elem_of_app. right. by left.
      * rewrite lookup_delete_ne by done. rewrite Hh2, Hh1.
        destruct (decide (b ∈ addrs r)) as [Hbr|Hbr].
        { rewrite decide_True; [done|]. apply elem_of_app. right. by right. }
        destruct (decide (b ∈ addrs l)) as [Hbl|Hbl].
        { rewrite decide_True; [done|]. apply elem_of_app. by left. }
        rewrite decide_False; [done|].
        intros [?|[?|?]%elem_of_cons]%elem_of_app; done.
Qed.

Lemma destructor_spec T t :
  abstracts T t →
  ∃ T', destructor T = Some (tt, T')
        ∧ root T' = root T
        ∧ ∀ a, heap T' !! a
               = if decide (a ∈ addrs t) then None else heap T !! a.
Proof.
  destruct T as [rt h]. intros (Hroot & Hrep & Hnd). cbn [root heap] in *.
  subst rt.
  destruct (destroy_spec t (S (size h)) (tptr t) h None Hrep Hnd) as (h' & Hrun & Hh').
  { apply (abs_height (mkRBTree (tptr t) h)). by split. }
  exists (mkRBTree (tptr t) h'). split; [|done].
  unfold destructor.
  erewrite bind_run by reflexivity. erewrite bind_run by reflexivity.
  exact Hrun.
Qed.
(** *** Allocation *)

Lemma keeps_ret {A} (a : A) : keeps_nodes (mret a).
Proof. intros T a' T' [= _ <-]. done. Qed.

Lemma keeps_fail {A} : keeps_nodes (@fail A).
Proof. by intros T a T'. Qed.

Lemma keeps_bind {A B} (m : M A) (k : A → M B) :
  keeps_nodes m → (∀ a, keeps_nodes (k a)) → keeps_nodes (m ≫= k).
Proof.
  intros Hm Hk T b T' Hrun. unfold mbind, M_bind in Hrun.
  destruct (m T) as [[a T1]|] eqn:Hm1; [|done].
  rewrite (Hk a T1 b T' Hrun). by eapply Hm.
Qed.

Lemma keeps_load x : keeps_nodes (load x).
Proof.
  intros T a T' Hrun. unfold load in Hrun.
  destruct (heap T !! x); [|done]. by injection Hrun as _ <-.
Qed.

Lemma keeps_update x (f : RBTNode → RBTNode) :
  keeps_nodes (nd ← load x; store x (f nd)).
Proof.
  intros T a T' Hrun. unfold mbind, M_bind, load, store in Hrun.
  destruct (heap T !! x) as [nd|] eqn:Hx; [|done].
  injection Hrun as _ <-. cbn [heap]. rewrite dom_insert_L.
  apply elem_of_dom_2 in Hx. set_solver.
Qed.

Lemma keeps_get_root : keeps_nodes get_root.
Proof. by intros T a T' [= _ <-]. Qed.

Lemma keeps_set_root r : keeps_nodes (set_root r).
Proof. by intros T a T' [= _ <-]. Qed.

Lemma keeps_path_fuel : keeps_nodes path_fuel.
Proof. by intros T a T' [= _ <-]. Qed.

Ltac keeps :=
  repeat first
    [ assumption
    | match goal with
      | |- keeps_nodes (mret _) => apply keeps_ret
      | |- keeps_nodes fail => apply keeps_fail
      | |- keeps_nodes (load _) => apply keeps_load
      | |- keeps_nodes get_root => apply keeps_get_root
      | |- keeps_nodes (set_root _) => apply keeps_set_root
      | |- keeps_nodes path_fuel => apply keeps_path_fuel
      | |- keeps_nodes (load _ ≫= λ nd, store _ _) => apply keeps_update
      | |- keeps_nodes (_ ≫= _) => apply keeps_bind; [|intros ?]
      | H : ∀ z, keeps_nodes (?f z) |- keeps_nodes (?f _) => apply H
      | |- keeps_nodes (match ?x with _ => _ end) => destruct x
      end
    | progress unfold get_key, get_payload, get_color, get_parent, get_left,
        get_right, set_key, push_payload, set_color, set_parent, set_left,
        set_right, deref, parent_of, grandparent_of, is_red ].

Lemma keeps_rotateLeft x : keeps_nodes (rotateLeft x).
Proof. unfold rotateLeft. keeps. Qed.

Lemma keeps_rotateRight x : keeps_nodes (rotateRight x).
Proof. unfold rotateRight. keeps. Qed.

Lemma keeps_fixInsert_loop fuel : ∀ z, keeps_nodes (fixInsert_loop fuel z).
Proof.
  induction fuel as [|fuel IH]; intros z; cbn [fixInsert_loop]; [keeps|].
  pose proof keeps_rotateLeft. pose proof keeps_rotateRight.
  keeps.
Qed.

Lemma keeps_fixInsert z : keeps_nodes (fixInsert z).
Proof.
  unfold fixInsert.
  apply keeps_bind; [apply keeps_path_fuel|intros fuel].
  apply keeps_bind; [apply keeps_fixInsert_loop|intros _]. keeps.
Qed.

Lemma keeps_insert_descend fuel name ref : ∀ y x,
  keeps_nodes (insert_descend fuel name ref y x).
Proof.
  induction fuel as [|fuel IH]; intros y x; destruct x as [xa|];
    cbn [insert_descend]; keeps; apply IH.
Qed.

Lemma new_node_size T z T' :
  new_node T = Some (z, T') → size (heap T') = S (size (heap T)).
Proof.
  intros [= <- <-]. cbn [heap].
  rewrite map_size_insert_None; [done|].
  apply not_elem_of_dom, is_fresh.
Qed.

Lemma keeps_size {A} (m : M A) T a T' :
  keeps_nodes m → m T = Some (a, T') → size (heap T') = size (heap T).
Proof.
  intros Hm Hrun. apply Hm in Hrun.
  by rewrite <-!size_dom, Hrun.
Qed.

Lemma bind_inv {A B} (m : M A) (k : A → M B) T b T' :
  (m ≫= k) T = Some (b, T') →
  ∃ a T1, m T = Some (a, T1) ∧ k a T1 = Some (b, T').
Proof.
  unfold mbind, M_bind. destruct (m T) as [[a T1]|]; [|done]. eauto.
Qed.

(** [insert] allocates at most one node. *)
Lemma insert_size ref p T T' :
  insert ref p T = Some (tt, T') → size (heap T') ≤ S (size (heap T)).
Proof.
  unfold insert. intros Hrun.
  apply bind_inv in Hrun as (fuel & T1 & [= <- <-] & Hrun).
  apply bind_inv in Hrun as (r & T1 & [= <- <-] & Hrun).
  apply bind_inv in Hrun as (res & T1 & Hd & Hrun).
  apply (keeps_size _ _ _ _ (keeps_insert_descend _ _ _ _ _)) in Hd.
  destruct res as [[]|y].
  - injection Hrun as <-. lia.
  - apply bind_inv in Hrun as (z & T2 & Hn & Hrun).
    apply new_node_size in Hn.
    eapply keeps_size in Hrun; [lia|].
    pose proof keeps_fixInsert. keeps.
Qed.

(** *** Objects that own exactly the nodes of their tree *)

Lemma owns_lookup T t a : owns T t → a ∉ addrs t → heap T !! a = None.
Proof.
  intros [(Hroot & Hrep & Hnd) Hsz] Hna.
  destruct (heap T !! a) as [nd|] eqn:Ha; [exfalso|done].
  assert (abstracts (mkRBTree (root T) (base.delete a (heap T))) t) as Habs.
  { split_and!; [done| |done]. cbn [heap].
    eapply repr_ext; [|exact Hrep]. intros b Hb.
    apply lookup_delete_ne. by intros ->. }
  apply abs_size in Habs. cbn [heap] in Habs.
  rewrite map_size_delete_Some in Habs by done.
  assert (size (heap T) ≠ 0); [|lia].
  by apply (map_size_ne_0_lookup_2 _ a).
Qed.

Lemma owns_empty : owns empty Leaf.
Proof. split; [apply abstracts_empty|done]. Qed.

Lemma rbt_insert_owns T t ref p :
  owns T t → red_black t →
  ∃ T' t', insert ref p T = Some (tt, T') ∧ owns T' t' ∧ red_black t'
           ∧ entries t' = entries_insert (fullName p) ref (entries t).
Proof.
  intros [Habs Hsz] Hrb.
  destruct (rbt_insert_entries_spec T t ref p Habs Hrb)
    as ([] & T' & Hrun & t' & Habs' & Hrb' & He).
  exists T', t'. split_and!; try done. split; [done|].
  pose proof (abs_size _ _ Habs') as Hle.
  pose proof (insert_size _ _ _ _ Hrun) as Hle'.
  assert (StronglySorted key_lt (entries t).*1) as Hs.
  { apply ordered_sorted, Hrb. }
  pose proof (entries_insert_length (fullName p) ref _ Hs) as Hlen.
  rewrite <-He, <-!length_addrs_entries in Hlen.
  destruct (decide (fullName p ∈ (entries t).*1)) as [Hin|Hin]; [|lia].
  destruct (insert_duplicate T t ref p Habs (proj1 Hrb) Hin)
    as (a & nd & Ha & _ & Hrun').
  rewrite Hrun in Hrun'. injection Hrun' as ->. cbn [heap].
  rewrite map_size_insert_Some by (by eexists). lia.
Qed.

Lemma rbt_insert_all_owns ps : ∀ T t,
  owns T t → red_black t →
  ∃ T' t', insert_all ps T = Some (tt, T') ∧ owns T' t' ∧ red_black t'
           ∧ entries t'
             = fold_left (λ es rp, entries_insert (fullName rp.2) rp.1 es)
                         ps (entries t).
Proof.
  induction ps as [|[ref p] ps IH]; intros T t Ho Hrb; cbn [insert_all fold_left].
  - by exists T, t.
  - destruct (rbt_insert_owns T t ref p Ho Hrb) as (T1 & t1 & Hrun & Ho1 & Hrb1 & He1).
    destruct (IH T1 t1 Ho1 Hrb1) as (T2 & t2 & Hrun2 & Ho2 & Hrb2 & He2).
    exists T2, t2. split_and!; try done.
    + by rewrite (bind_run _ _ _ _ _ Hrun).
    + by rewrite He2, He1.
Qed.

Lemma rbt_build_owns data :
  ∃ T t, build data = Some T ∧ owns T t ∧ red_black t
         ∧ entries t = entries_of (refs data).
Proof.
  destruct (rbt_insert_all_owns (refs data) empty Leaf owns_empty red_black_leaf)
    as (T & t & Hrun & Ho & Hrb & He).
  exists T, t. unfold build. by rewrite Hrun.
Qed.

Lemma destructor_owned T t :
  owns T t → destructor T = Some (tt, mkRBTree (root T) ∅).
Proof.
  intros Ho. destruct (destructor_spec T t (proj1 Ho)) as (T' & Hrun & Hroot & Hh).
  rewrite Hrun. destruct T' as [rt' h']. cbn [root heap] in *. subst rt'.
  do 3 f_equal. apply map_eq. intros a. rewrite Hh, lookup_empty.
  destruct (decide (a ∈ addrs t)); [done|]. by eapply owns_lookup.
Qed.
End RbtMore.

(* ===================================================================== *)
(** * More about the hash table                                          *)
(* ===================================================================== *)

Module HashMore.
Import Hash HashFacts.

Local Open Scope Z_scope.

Lemma chain_insert_absent cur name ref :
  name ∉ Hash.key <$> cur →
  Hash.key <$> chain_insert cur name ref = (Hash.key <$> cur) ++ [name].
Proof.
  induction cur as [|b cur IH]; cbn [chain_insert fmap list_fmap app]; [done|].
  intros Hn. apply not_elem_of_cons in Hn as [Hne Hn].
  rewrite (proj2 (String.eqb_neq (Hash.key b) name)) by done.
  cbn. by rewrite IH.
Qed.

Lemma chain_insert_NoDup cur name ref :
  NoDup (Hash.key <$> cur) → NoDup (Hash.key <$> chain_insert cur name ref).
Proof.
  intros Hnd. destruct (decide (name ∈ Hash.key <$> cur)) as [Hin|Hin].
  - by rewrite chain_insert_present.
  - rewrite chain_insert_absent by done.
    apply NoDup_app. split_and!; [done| |apply NoDup_singleton].
    intros k Hk ->%list_elem_of_singleton. done.
Qed.

Lemma chain_insert_keys cur name ref k :
  k ∈ Hash.key <$> chain_insert cur name ref ↔ k = name ∨ k ∈ Hash.key <$> cur.
Proof.
  destruct (decide (name ∈ Hash.key <$> cur)) as [Hin|Hin].
  - rewrite chain_insert_present by done. split; [auto|]. by intros [->|?].
  - rewrite chain_insert_absent by done. rewrite elem_of_app, list_elem_of_singleton.
    tauto.
Qed.

Lemma occupied_chain_insert cur name ref :
  occupied_bucket (chain_insert cur name ref) = true.
Proof. destruct cur as [|b cur]; cbn; [done|]. by destruct (String.eqb _ _). Qed.

(** Replacing one element of a list changes the number of elements that
    satisfy a test by the difference at that element. *)
Lemma filter_insert_length {A} (f : A → bool) (l : list A) : ∀ i x y,
  l !! i = Some x →
  (length (List.filter f (<[i := y]> l)) + (if f x then 1 else 0)
   = length (List.filter f l) + (if f y then 1 else 0))%nat.
Proof.
  induction l as [|a l IH]; intros [|i] x y Hx; try done.
  - injection Hx as ->. cbn. destruct (f x), (f y); cbn; lia.
  - specialize (IH i x y Hx).
    change (<[S i := y]> (a :: l)) with (a :: <[i := y]> l).
    cbn [List.filter]. destruct (f a); cbn [length]; lia.
Qed.

Lemma filter_length_le {A} (f : A → bool) (l : list A) :
  (length (List.filter f l) ≤ length l)%nat.
Proof. induction l as [|a l IH]; cbn; [done|]. destruct (f a); cbn; lia. Qed.

Lemma filter_length_pos {A} (f : A → bool) (l : list A) i x :
  l !! i = Some x → f x = true → (1 ≤ length (List.filter f l))%nat.
Proof.
  revert i. induction l as [|a l IH]; intros [|i] Hx Hf; try done.
  - injection Hx as ->. cbn. rewrite Hf. cbn. lia.
  - cbn in Hx. cbn [List.filter]. specialize (IH i Hx Hf).
    destruct (f a); cbn [length]; lia.
Qed.

Lemma occupied_le ht : (occupied ht ≤ length (table ht))%nat.
Proof. apply filter_length_le. Qed.

Lemma occupied_new n : occupied (new n) = 0%nat.
Proof. unfold occupied, new. cbn. induction n as [|n IH]; cbn; done. Qed.

Section with_char.
Variable char_signed : bool.

(** One insertion either occupies a bucket or counts a collision. *)
Lemma insert_occupied ref p ht :
  (0 < length (table ht))%nat →
  0 ≤ collisions ht < size_t_modulus - 1 →
  ∃ ht', insert char_signed ref p ht = Some ht'
         ∧ length (table ht') = length (table ht)
         ∧ collisions ht' + Z.of_nat (occupied ht')
           = collisions ht + Z.of_nat (occupied ht) + 1
         ∧ collisions ht ≤ collisions ht'
         ∧ (occupied ht ≤ occupied ht')%nat
         ∧ (1 ≤ occupied ht')%nat.
Proof.
  intros Hn Hc.
  destruct (hash_insert_spec char_signed ref p ht Hn)
    as (idx & cur & _ & Hcur & Hrun).
  eexists. split; [exact Hrun|]. cbn [table collisions].
  split; [by rewrite length_insert|].
  assert (1 ≤ occupied
                (mkHashTable
                   (<[idx := chain_insert cur (fullName p) ref]> (table ht))
                   (collisions ht)))%nat as Hpos.
  { apply (filter_length_pos _ _ idx (chain_insert cur (fullName p) ref)).
    - cbn [table]. apply list_lookup_insert_eq. by eapply lookup_lt_Some.
    - apply occupied_chain_insert. }
  unfold occupied in Hpos. cbn [table] in Hpos.
  pose proof (filter_insert_length occupied_bucket (table ht) idx cur
                (chain_insert cur (fullName p) ref) Hcur) as Hf.
  rewrite occupied_chain_insert in Hf. unfold occupied. cbn [table].
  destruct cur as [|b cur]; cbn [occupied_bucket] in Hf.
  - lia.
  - rewrite wrap_small by lia. lia.
Qed.

Lemma insert_all_occupied ps : ∀ ht,
  (0 < length (table ht))%nat →
  0 ≤ collisions ht →
  collisions ht + Z.of_nat (length ps) < size_t_modulus →
  ∃ ht', insert_all char_signed ps ht = Some ht'
         ∧ length (table ht') = length (table ht)
         ∧ collisions ht' + Z.of_nat (occupied ht')
           = collisions ht + Z.of_nat (occupied ht) + Z.of_nat (length ps)
         ∧ collisions ht ≤ collisions ht'
         ∧ (occupied ht ≤ occupied ht')%nat
         ∧ (ps ≠ [] → 1 ≤ occupied ht')%nat.
Proof.
  induction ps as [|[ref p] ps IH]; intros ht Hn Hc0 Hc; cbn [insert_all length].
  - exists ht. split_and!; try done. cbn. lia.
  - cbn [length] in Hc.
    destruct (insert_occupied ref p ht Hn)
      as (ht1 & -> & Hl1 & He1 & Hm1 & Ho1 & Hp1); [lia|].
    cbn [mbind option_bind].
    destruct (IH ht1) as (ht2 & -> & Hl2 & He2 & Hm2 & Ho2 & _); [lia|lia|lia|].
    exists ht2. split_and!; try done; lia.
Qed.

(** After [build]: every record either occupied a bucket or counted a
    collision. *)
Lemma hash_build_collisions nBuckets data :
  (0 < nBuckets)%nat → Z.of_nat (length data) < size_t_modulus →
  ∃ ht, build char_signed nBuckets data = Some ht
        ∧ collisionCount ht + Z.of_nat (occupied ht) = Z.of_nat (length data)
        ∧ (occupied ht ≤ nBuckets)%nat
        ∧ (data ≠ [] → 1 ≤ occupied ht)%nat.
Proof.
  intros Hn Hlen. unfold build.
  assert (length (refs data) = length data) as Hrl.
  { unfold refs, refs_from. rewrite length_zip, length_seq. lia. }
  destruct (insert_all_occupied (refs data) (new nBuckets))
    as (ht & Hrun & Hl & He & _ & _ & Hp).
  { cbn. by rewrite length_replicate. }
  { done. }
  { cbn [new collisions]. lia. }
  exists ht. split; [done|]. rewrite occupied_new in He. cbn [new collisions] in He.
  unfold collisionCount. split; [lia|]. split.
  - pose proof (occupied_le ht) as Hle. rewrite Hl in Hle. cbn in Hle.
    by rewrite length_replicate in Hle.
  - intros Hd. apply Hp. intros Hr. apply Hd.
    apply length_zero_iff_nil. rewrite <-Hrl, Hr. done.
Qed.

(** *** Where the entries are *)

Lemma chains_ok_new n : chains_ok char_signed (new n).
Proof.
  intros i c Hc. unfold new in Hc. cbn in Hc.
  apply lookup_replicate in Hc as [-> _]. split; [constructor|].
  intros k Hk. cbn in Hk. by apply elem_of_nil in Hk.
Qed.

Lemma chains_ok_insert ref p ht ht' :
  chains_ok char_signed ht →
  insert char_signed ref p ht = Some ht' →
  chains_ok char_signed ht'.
Proof.
  intros Hok Hrun.
  destruct (decide (0 < length (table ht))%nat) as [Hn|Hn].
  2:{ unfold insert, bucket_of in Hrun.
      destruct (hashStr _ _ _) as [h|]; [|done]. cbn in Hrun.
      rewrite lookup_ge_None_2 in Hrun by lia. done. }
  destruct (hash_insert_spec char_signed ref p ht Hn)
    as (idx & cur & Hb & Hcur & Hrun').
  rewrite Hrun in Hrun'. injection Hrun' as ->.
  intros i c. cbn [table]. rewrite length_insert.
  destruct (decide (i = idx)) as [->|Hne].
  - rewrite list_lookup_insert_eq by (by eapply lookup_lt_Some).
    intros [= <-]. destruct (Hok idx cur Hcur) as [Hnd Hh].
    split; [by apply chain_insert_NoDup|].
    intros k [->|Hk]%chain_insert_keys; [|by apply Hh].
    unfold bucket_of in Hb.
    destruct (hashStr_range char_signed (fullName p)
                (Z.of_nat (length (table ht)))) as (h & Hh' & Hr); [lia|].
    rewrite Hh' in Hb |- *. cbn in Hb.
    destruct (table ht !! Z.to_nat h); [|done]. injection Hb as <- _.
    f_equal. lia.
  - rewrite list_lookup_insert_ne by done. apply Hok.
Qed.

Lemma chains_ok_insert_all ps : ∀ ht ht',
  chains_ok char_signed ht →
  insert_all char_signed ps ht = Some ht' →
  chains_ok char_signed ht'.
Proof.
  induction ps as [|[ref p] ps IH]; intros ht ht' Hok; cbn [insert_all].
  - by intros [= <-].
  - destruct (insert char_signed ref p ht) as [ht1|] eqn:H1; [|done].
    cbn [mbind option_bind]. apply IH. by eapply chains_ok_insert.
Qed.

(** *** No buckets *)

Lemma bucket_of_empty name col :
  bucket_of char_signed name (mkHashTable [] col) = None.
Proof.
  unfold bucket_of. cbn [table length].
  by destruct name.
Qed.
End with_char.
End HashMore.

(* ===================================================================== *)
(** * More about the data generator                                      *)
(* ===================================================================== *)

Section GeneratorMore.
Context {Rng : Type}.
Variable rng_next : Rng → Z * Rng.
Variable uniform_int : Z → Z → Rng → Z * Rng.

Hypothesis uniform_int_range : ∀ lo hi g,
  (lo ≤ hi → lo ≤ (uniform_int lo hi g).1 ≤ hi)%Z.

Lemma randomString_lowercase len : ∀ rng,
  Forall lowercase (list_ascii_of_string (randomString uniform_int len rng).1).
Proof.
  induction len as [|len IH]; intros rng; cbn [randomString]; [constructor|].
  pose proof (uniform_int_range 97 122 rng ltac:(lia)) as Hc.
  destruct (uniform_int 97 122 rng) as [c rng1]. cbn [fst] in Hc.
  specialize (IH rng1). destruct (randomString uniform_int len rng1) as [s rng2].
  cbn [fst list_ascii_of_string] in *. constructor; [|done].
  unfold lowercase. rewrite N_ascii_embedding by lia. lia.
Qed.

Lemma fill_pool_lowercase cnt : ∀ rng,
  Forall (λ s, Forall lowercase (list_ascii_of_string s))
         (fill_pool uniform_int cnt rng).1.
Proof.
  induction cnt as [|cnt IH]; intros rng; cbn [fill_pool]; [constructor|].
  pose proof (randomString_lowercase 10 rng) as Hs.
  destruct (randomString uniform_int 10 rng) as [s rng1].
  specialize (IH rng1).
  destruct (fill_pool uniform_int cnt rng1) as [pool rng2].
  by constructor.
Qed.

Lemma make_passenger_fields pool rng p rng' :
  make_passenger rng_next uniform_int pool rng = Some (p, rng') →
  fullName p ∈ pool ∧ record_ok p.
Proof.
  unfold make_passenger. destruct (rng_next rng) as [r rng1].
  destruct (pool !! _) as [name|] eqn:Hname; [|done]. cbn [mbind option_bind].
  pose proof (uniform_int_range 1 1000 rng1 ltac:(lia)) as Hcab.
  destruct (uniform_int 1 1000 rng1) as [cabin rng2].
  destruct (uniform_int 0 3 rng2) as [ti rng3].
  destruct (types !! _) as [ty|] eqn:Hty; [|done]. cbn [mbind option_bind].
  pose proof (randomString_length uniform_int 6 rng3) as Hlen.
  pose proof (randomString_lowercase 6 rng3) as Hlow.
  destruct (randomString uniform_int 6 rng3) as [port rng4].
  intros [= <- <-]. cbn in *.
  split; [by eapply list_elem_of_lookup_2|].
  unfold record_ok. cbn [cabinNumber cabinType destinationPort].
  split_and!; [lia|lia|by eapply list_elem_of_lookup_2|done|done].
Qed.

Lemma fill_data_fields pool n : ∀ rng v rng',
  fill_data rng_next uniform_int n pool rng = Some (v, rng') →
  Forall record_ok v.
Proof.
  induction n as [|n IH]; intros rng v rng'; cbn [fill_data].
  - intros [= <- <-]. constructor.
  - destruct (make_passenger _ _ _ _) as [[p rng1]|] eqn:Hp; [|done].
    cbn [mbind option_bind].
    destruct (fill_data _ _ _ _ _) as [[v' rng2]|] eqn:Hv; [|done].
    cbn [mbind option_bind]. intros [= <- <-].
    constructor; [by eapply make_passenger_fields|by eapply IH].
Qed.

(** More records than pool strings: two records share a key. *)
Lemma keys_not_distinct (pool : list string) (data : list Passenger) :
  Forall (λ p, fullName p ∈ pool) data → length pool < length data →
  ¬ NoDup (fullName <$> data).
Proof.
  intros Hin Hlt Hnd.
  assert ((fullName <$> data) ⊆+ pool) as Hsub.
  { apply NoDup_submseteq; [done|]. intros k (p & -> & Hp)%list_elem_of_fmap.
    rewrite Forall_forall in Hin. by apply Hin. }
  apply submseteq_length in Hsub. rewrite length_fmap in Hsub. lia.
Qed.

Lemma uniqueCnt_lt n : 10 < n → uniqueCnt n < n.
Proof.
  intros Hn. unfold uniqueCnt.
  assert (n / 20 < n) by (apply Nat.div_lt; lia). lia.
Qed.
End GeneratorMore.

(* ===================================================================== *)
(** * More about the benchmark                                           *)
(* ===================================================================== *)

Module BenchMore.
Import Bench BenchFacts.

Section MainMore.
Context {Rng : Type}.
Variable rng_next : Rng → Z * Rng.
Variable uniform_int : Z → Z → Rng → Z * Rng.
Variable char_signed : bool.
Variable clock : nat → Z.
Variable show_double : Z → string.

Hypothesis uniform_int_range : ∀ lo hi g,
  (lo ≤ hi → lo ≤ (uniform_int lo hi g).1 ≤ hi)%Z.

Lemma measure_all_ticks ns : ∀ (w : @World Rng) rows w',
  Forall (λ n, 1 ≤ n)%Z ns →
  measure_all rng_next uniform_int char_signed clock ns w = Some (rows, w') →
  w_ticks w' = w_ticks w + 10 * length ns.
Proof.
  induction ns as [|n ns IH]; intros w rows w' Hns; cbn [measure_all length].
  - intros [= _ <-]. lia.
  - inv Hns.
    destruct (measure_spec rng_next uniform_int char_signed clock
                uniform_int_range n w)
      as (r & w1 & data & ht & -> & _ & Ht & _); [done|].
    cbn [mbind option_bind].
    destruct (measure_all _ _ _ _ ns w1) as [[rows1 w2]|] eqn:Hrun; [|done].
    cbn [mbind option_bind]. intros [= _ <-].
    rewrite (IH w1 rows1 w2) by done. lia.
Qed.

(** The rows [main] writes, with what each of them records. *)
Lemma main_rows (w : @World Rng) :
  ∃ rows w1,
    measure_all rng_next uniform_int char_signed clock sizes w = Some (rows, w1)
    ∧ main rng_next uniform_int char_signed clock show_double w
      = Some (mkWorld (w_rng w1) (w_ticks w1) (write_csv show_double rows EmptyString))
    ∧ length rows = length sizes
    ∧ w_ticks w1 = w_ticks w + 100
    ∧ ∀ i r, rows !! i = Some r →
        ∃ n, sizes !! i = Some n
             ∧ row_ok char_signed clock (w_ticks w + 10 * i) n r.
Proof.
  destruct (measure_all_spec rng_next uniform_int char_signed clock
              uniform_int_range sizes w sizes_positive)
    as (rows & w1 & Hrun & Hc & Hl & Hrows).
  exists rows, w1. split; [done|]. split.
  { unfold main. by rewrite Hrun. }
  split; [done|]. split.
  { by rewrite (measure_all_ticks sizes w rows w1 sizes_positive Hrun). }
  intros i r Hr.
  destruct (sizes !! i) as [n|] eqn:En.
  - destruct (Hrows i n En) as (r' & Hr' & Hok). exists n.
    split; [done|]. congruence.
  - apply lookup_ge_None in En. rewrite <-Hl in En.
    apply lookup_ge_None in En. congruence.
Qed.

Lemma measured_nonneg t r :
  (∀ i, clock i ≤ clock (S i))%Z → measured clock t r →
  (0 ≤ tLinear r ∧ 0 ≤ tBST r ∧ 0 ≤ tRBT r ∧ 0 ≤ tHash r ∧ 0 ≤ tMultimap r)%Z.
Proof.
  intros Hm (H1 & H2 & H3 & H4 & H5).
  pose proof (Hm t) as M1. pose proof (Hm (t + 2)) as M2.
  pose proof (Hm (t + 4)) as M3. pose proof (Hm (t + 6)) as M4.
  pose proof (Hm (t + 8)) as M5.
  replace (S t) with (t + 1) in M1 by lia.
  replace (S (t + 2)) with (t + 3) in M2 by lia.
  replace (S (t + 4)) with (t + 5) in M3 by lia.
  replace (S (t + 6)) with (t + 7) in M4 by lia.
  replace (S (t + 8)) with (t + 9) in M5 by lia.
  lia.
Qed.

Lemma sizes_bound n : n ∈ sizes → (1 ≤ n ≤ 1000000)%Z.
Proof.
  unfold sizes. rewrite !elem_of_cons, elem_of_nil. intros H.
  repeat destruct H as [->|H]; lia || done.
Qed.

Lemma row_collisions t n r :
  (1 ≤ n ≤ 1000000)%Z → row_ok char_signed clock t n r →
  (0 ≤ collisions r ≤ n - 1)%Z.
Proof.
  intros Hn (_ & _ & data & ht & Hlen & Hb & Hcol).
  destruct (HashMore.hash_build_collisions char_signed
              (Z.to_nat (n * 2 + 1)) data) as (ht' & Hb' & He & _ & Hp).
  { lia. }
  { unfold Hash.size_t_modulus. lia. }
  rewrite Hb in Hb'. injection Hb' as <-.
  assert (data ≠ []) as Hd.
  { intros ->. cbn in Hlen. lia. }
  specialize (Hp Hd).
  assert (0 ≤ Hash.collisionCount ht)%Z as Hc0.
  { unfold Hash.build in Hb.
    destruct (HashMore.insert_all_occupied char_signed (refs data)
                (Hash.new (Z.to_nat (n * 2 + 1))))
      as (ht2 & Hrun & _ & _ & Hm & _).
    - cbn. rewrite length_replicate. lia.
    - done.
    - cbn [Hash.new Hash.collisions]. unfold Hash.size_t_modulus.
      unfold refs, refs_from. rewrite length_zip, length_seq. lia.
    - rewrite Hb in Hrun. injection Hrun as <-. done. }
  rewrite Hcol. lia.
Qed.
End MainMore.
End BenchMore.

(* ===================================================================== *)
(** * The entries of the hash table                                      *)
(* ===================================================================== *)

Module HashCount.
Import Hash HashFacts HashMore.

(** *** One entry for each distinct key *)

Lemma concat_insert_length {A} (l : list (list A)) : ∀ i c c',
  l !! i = Some c →
  length (concat (<[i := c']> l)) + length c = length (concat l) + length c'.
Proof.
  induction l as [|a l IH]; intros [|i] c c' Hc; try done.
  - injection Hc as ->. cbn. rewrite !length_app. lia.
  - change (<[S i := c']> (a :: l)) with (a :: <[i := c']> l).
    cbn [concat]. rewrite !length_app. specialize (IH i c c' Hc). lia.
Qed.

Lemma chain_insert_length cur name ref :
  length (chain_insert cur name ref)
  = if decide (name ∈ Hash.key <$> cur) then length cur else S (length cur).
Proof.
  rewrite <-(length_fmap Hash.key (chain_insert cur name ref)).
  destruct (decide (name ∈ Hash.key <$> cur)) as [Hin|Hin].
  - by rewrite chain_insert_present, length_fmap.
  - rewrite chain_insert_absent by done.
    rewrite length_app, length_fmap. cbn. lia.
Qed.

(** The keys stored in the table. *)
Lemma stored_lookup (ht : HashTable) k :
  k ∈ Hash.key <$> concat (table ht)
  ↔ ∃ i c, table ht !! i = Some c ∧ k ∈ Hash.key <$> c.
Proof.
  induction (table ht) as [|a l IH]; cbn [concat].
  - cbn. split; [by intros ?%elem_of_nil|]. by intros (i & c & ? & _).
  - rewrite fmap_app, elem_of_app, IH. split.
    + intros [Ha|(i & c & Hc & Hk)].
      * by exists 0, a.
      * by exists (S i), c.
    + intros ([|i] & c & Hc & Hk).
      * left. injection Hc as ->. done.
      * right. by exists i, c.
Qed.

Section entry_counting.
Variable char_signed : bool.

Lemma insert_entry_count ref p ht :
  (0 < length (table ht))%nat → chains_ok char_signed ht →
  ∃ ht', insert char_signed ref p ht = Some ht'
         ∧ entry_count ht'
           = (if decide (fullName p ∈ Hash.key <$> concat (table ht))
              then entry_count ht else S (entry_count ht))
         ∧ ∀ k, k ∈ Hash.key <$> concat (table ht')
                ↔ k = fullName p ∨ k ∈ Hash.key <$> concat (table ht).
Proof.
  intros Hn Hok.
  destruct (hash_insert_spec char_signed ref p ht Hn)
    as (idx & cur & Hb & Hcur & Hrun).
  eexists. split; [exact Hrun|].
  assert (fullName p ∈ Hash.key <$> concat (table ht)
          ↔ fullName p ∈ Hash.key <$> cur) as Hiff.
  { rewrite stored_lookup. split; [|by exists idx, cur].
    intros (j & c & Hc & Hk).
    destruct (Hok j c Hc) as [_ Hh]. specialize (Hh _ Hk).
    unfold bucket_of in Hb. rewrite Hh in Hb. cbn in Hb.
    rewrite Nat2Z.id, Hc in Hb. cbn in Hb. by injection Hb as <- <-. }
  split.
  - unfold entry_count. cbn [table].
    pose proof (concat_insert_length (table ht) idx cur
                  (chain_insert cur (fullName p) ref) Hcur) as Hlen.
    rewrite chain_insert_length in Hlen.
    destruct (decide (fullName p ∈ Hash.key <$> cur)) as [Hin|Hin].
    + rewrite decide_True by (by apply Hiff). lia.
    + rewrite decide_False by (by rewrite Hiff). lia.
  - intros k.
    rewrite (stored_lookup (mkHashTable _ _)), stored_lookup. cbn [table].
    split.
    + intros (j & c & Hc & Hk). destruct (decide (j = idx)) as [->|Hne].
      * rewrite list_lookup_insert_eq in Hc by (by eapply lookup_lt_Some).
        injection Hc as <-. apply chain_insert_keys in Hk as [->|Hk]; [by left|].
        right. by exists idx, cur.
      * rewrite list_lookup_insert_ne in Hc by done. right. by exists j, c.
    + intros [->|(j & c & Hc & Hk)].
      * exists idx, (chain_insert cur (fullName p) ref).
        rewrite list_lookup_insert_eq by (by eapply lookup_lt_Some).
        split; [done|]. apply chain_insert_keys. by left.
      * destruct (decide (j = idx)) as [->|Hne].
        { exists idx, (chain_insert cur (fullName p) ref).
          rewrite list_lookup_insert_eq by (by eapply lookup_lt_Some).
          split; [done|]. apply chain_insert_keys. right. congruence. }
        exists j, c. by rewrite list_lookup_insert_ne.
Qed.

Lemma insert_all_entry_count ps : ∀ ht es,
  (0 < length (table ht))%nat → chains_ok char_signed ht →
  StronglySorted key_lt es.*1 →
  entry_count ht = length es →
  (∀ k, k ∈ Hash.key <$> concat (table ht) ↔ k ∈ es.*1) →
  ∃ ht', insert_all char_signed ps ht = Some ht'
         ∧ entry_count ht'
           = length (fold_left
                       (λ es rp, entries_insert (fullName rp.2) rp.1 es) ps es)
         ∧ ∀ k, k ∈ Hash.key <$> concat (table ht')
                ↔ k ∈ (fold_left
                         (λ es rp, entries_insert (fullName rp.2) rp.1 es)
                         ps es).*1.
Proof.
  induction ps as [|[ref p] ps IH]; intros ht es Hn Hok Hs Hc Hk;
    cbn [insert_all fold_left].
  - by exists ht.
  - destruct (insert_entry_count ref p ht Hn Hok) as (ht1 & Hrun & Hc1 & Hk1).
    rewrite Hrun. cbn [mbind option_bind].
    apply IH.
    + by rewrite (insert_length char_signed ref p ht ht1 Hrun).
    + by eapply chains_ok_insert.
    + by apply entries_insert_sorted.
    + rewrite Hc1, entries_insert_length by done. cbn [fst snd].
      destruct (decide (fullName p ∈ es.*1)) as [Hin|Hin].
      * rewrite decide_True by (by apply Hk). done.
      * rewrite decide_False by (by rewrite Hk). by rewrite Hc.
    + intros k. rewrite Hk1, entries_insert_keys, Hk. done.
Qed.

Lemma hash_build_entry_count nBuckets data :
  (0 < nBuckets)%nat →
  ∃ ht, build char_signed nBuckets data = Some ht
        ∧ entry_count ht = length (entries_of (refs data))
        ∧ ∀ k, k ∈ Hash.key <$> concat (table ht) ↔ k ∈ fullName <$> data.
Proof.
  intros Hn.
  destruct (insert_all_entry_count (refs data) (new nBuckets) [])
    as (ht & Hrun & Hc & Hk).
  - cbn. by rewrite length_replicate.
  - apply chains_ok_new.
  - constructor.
  - unfold entry_count, new. cbn [table].
    induction nBuckets as [|n IHn]; [done|]. cbn. destruct n; [done|]. apply IHn. lia.
  - intros k. rewrite stored_lookup. cbn. split; [|by intros ?%elem_of_nil].
    intros (i & c & [-> _]%lookup_replicate & Hin). done.
  - exists ht. split; [done|]. split; [done|].
    intros k. rewrite Hk. destruct (entries_of_spec (refs data)) as (_ & Hk' & _).
    unfold entries_of in Hk'. rewrite Hk'.
    unfold refs, refs_from. rewrite list_fmap_compose, snd_zip; [done|].
    by rewrite length_seq.
Qed.
End entry_counting.
End HashCount.

(* ===================================================================== *)
(** * Facts about the printed report                                     *)
(* ===================================================================== *)

Module ReportFacts.
Import Bench BenchFacts.

Local Open Scope Z_scope.

Lemma round_half_even_spec q r d :
  0 < d → 0 ≤ r < d →
  q ≤ round_half_even q r d ≤ q + 1
  ∧ 2 * Z.abs (q * d + r - round_half_even q r d * d) ≤ d.
Proof.
  intros Hd Hr. unfold round_half_even.
  destruct (Z.ltb_spec (2 * r) d); [split; [lia|]; nia|].
  destruct (Z.ltb_spec d (2 * r)); [split; [lia|]; nia|].
  destruct (Z.even q); split; lia || nia.
Qed.

Lemma exp10_spec fuel : ∀ v,
  0 < v < 2 ^ Z.of_nat fuel →
  0 ≤ exp10 fuel v ∧ 10 ^ exp10 fuel v ≤ v < 10 ^ (exp10 fuel v + 1).
Proof.
  induction fuel as [|fuel IH]; intros v Hv.
  - cbn in Hv. lia.
  - cbn [exp10]. destruct (Z.ltb_spec v 10) as [Hlt|Hge].
    + cbn. lia.
    + destruct (IH (v / 10)) as (H0 & Hlo & Hhi).
      { rewrite Nat2Z.inj_succ, Z.pow_succ_r in Hv by lia.
        split; [apply Z.div_str_pos; lia|].
        apply Z.div_lt_upper_bound; lia. }
      split; [lia|].
      replace (1 + exp10 fuel (v / 10) + 1) with (Z.succ (exp10 fuel (v / 10) + 1))
        by lia.
      replace (1 + exp10 fuel (v / 10)) with (Z.succ (exp10 fuel (v / 10)))
        by lia.
      rewrite !Z.pow_succ_r by lia.
      pose proof (Z.div_mod v 10 ltac:(lia)).
      pose proof (Z.mod_pos_bound v 10 ltac:(lia)). lia.
Qed.

Lemma exponent_spec v :
  0 < v → 0 ≤ exponent v ∧ 10 ^ exponent v ≤ v < 10 ^ (exponent v + 1).
Proof.
  intros Hv. apply exp10_spec. split; [done|].
  rewrite Nat2Z.inj_succ, Z2Nat.id by apply Z.log2_nonneg.
  apply Z.log2_spec. done.
Qed.

(** Six significant digits: the nearest number of the form
    [m * 10^(e-5)] with six digits [m]. *)
Lemma six_digits_spec v :
  10 ^ 6 ≤ v →
  ∃ m e, six_digits v = (m, e)
         ∧ 10 ^ 5 ≤ m < 10 ^ 6 ∧ 6 ≤ e
         ∧ 2 * Z.abs (v - m * 10 ^ (e - 5)) ≤ 10 ^ (e - 5).
Proof.
  intros Hv. unfold six_digits.
  destruct (exponent_spec v) as (He0 & Hlo & Hhi); [lia|].
  set (e := exponent v) in *.
  assert (6 ≤ e) as He.
  { destruct (Z.le_gt_cases 6 e) as [|Hlt]; [done|]. exfalso.
    assert (10 ^ (e + 1) ≤ 10 ^ 6) by (apply Z.pow_le_mono_r; lia). lia. }
  set (d := 10 ^ (e - 5)).
  assert (0 < d) as Hd by (apply Z.pow_pos_nonneg; lia).
  assert (10 ^ e = 10 ^ 5 * d) as Hed.
  { unfold d. rewrite <-Z.pow_add_r by lia. f_equal. lia. }
  assert (10 ^ (e + 1) = 10 ^ 6 * d) as Hed'.
  { unfold d. rewrite <-Z.pow_add_r by lia. f_equal. lia. }
  pose proof (Z.div_mod v d ltac:(lia)) as Hdm.
  pose proof (Z.mod_pos_bound v d Hd) as Hr.
  assert (10 ^ 5 ≤ v / d < 10 ^ 6) as Hq.
  { split.
    - apply Z.div_le_lower_bound; lia.
    - apply Z.div_lt_upper_bound; lia. }
  destruct (round_half_even_spec (v / d) (v mod d) d Hd Hr) as (Hm & Herr).
  set (m := round_half_even (v / d) (v mod d) d) in *.
  replace (v / d * d + v mod d) with v in Herr by lia.
  destruct (Z.eqb_spec m (10 ^ 6)) as [Hm6|Hm6].
  - exists (10 ^ 5), (e + 1). split; [done|]. split; [lia|]. split; [lia|].
    replace (e + 1 - 5) with (Z.succ (e - 5)) by lia.
    rewrite Z.pow_succ_r by lia. fold d.
    rewrite Hm6 in Herr.
    replace (10 ^ 5 * (10 * d)) with (10 ^ 6 * d) by lia. lia.
  - exists m, e. split; [done|]. split; [lia|]. split; [done|]. done.
Qed.

Lemma double_of_count_exact t : Z.abs t < 2 ^ 53 → double_of_count t = t.
Proof.
  intros Ht. unfold double_of_count. cbv zeta.
  by destruct (Z.ltb_spec (Z.abs t) (2 ^ 53)); [|lia].
Qed.

(** Below [10^6] the count is written in full. *)
Lemma put_double_small t : 0 ≤ t < 10 ^ 6 → put_double t = pretty t.
Proof.
  intros Ht. unfold put_double. cbv zeta.
  rewrite double_of_count_exact by lia.
  destruct (Z.ltb_spec t 0); [lia|]. unfold put_nonneg.
  by destruct (Z.ltb_spec t (10 ^ 6)); [|lia].
Qed.

(** From [10^6] on it is written in scientific notation, rounded to six
    significant digits. *)
Lemma put_double_large t :
  10 ^ 6 ≤ t < 2 ^ 53 →
  ∃ m e, put_double t = scientific m e
         ∧ 10 ^ 5 ≤ m < 10 ^ 6 ∧ 6 ≤ e
         ∧ 2 * Z.abs (t - m * 10 ^ (e - 5)) ≤ 10 ^ (e - 5).
Proof.
  intros Ht. unfold put_double. cbv zeta.
  rewrite double_of_count_exact by lia.
  destruct (Z.ltb_spec t 0); [lia|]. unfold put_nonneg.
  destruct (Z.ltb_spec t (10 ^ 6)); [lia|].
  destruct (six_digits_spec t) as (m & e & -> & Hm & He & Herr); [lia|].
  by exists m, e.
Qed.

Local Close Scope Z_scope.

Section Rows.
Context {Rng : Type}.
Variable rng_next : Rng → Z * Rng.
Variable uniform_int : Z → Z → Rng → Z * Rng.
Variable char_signed : bool.
Variable clock : nat → Z.

Hypothesis uniform_int_range : ∀ lo hi g,
  (lo ≤ hi → lo ≤ (uniform_int lo hi g).1 ≤ hi)%Z.

(** One run of the loop body. *)
Lemma measure_run n (w : @World Rng) :
  (1 ≤ n)%Z →
  ∃ data rng1 ht,
    makeData rng_next uniform_int (Z.to_nat n) (w_rng w) = Some (data, rng1)
    ∧ Hash.build char_signed (Z.to_nat (n * 2 + 1)) data = Some ht
    ∧ measure rng_next uniform_int char_signed clock n w
      = Some (row_at clock (w_ticks w) n (Hash.collisionCount ht),
              mkWorld (uniform_int 0 (n - 1) rng1).2 (w_ticks w + 10) (w_csv w)).
Proof.
  intros Hn. unfold Bench.measure.
  destruct (makeData_spec rng_next uniform_int uniform_int_range (Z.to_nat n)
              (w_rng w)) as (pool & rng1 & data & rng2 & _ & Hmk & _ & _ & Hlen & _).
  destruct (HashFacts.hash_build_spec char_signed (Z.to_nat (n * 2 + 1)) data)
    as (ht & Hht & _ & Hs); [lia|].
  exists data, rng2, ht. split; [done|]. split; [done|].
  rewrite Hmk. cbn [mbind option_bind].
  pose proof (uniform_int_range 0 (n - 1) rng2) as Hi.
  destruct (uniform_int 0 (n - 1) rng2) as [i rng3]. cbn [fst snd] in *.
  destruct (lookup_lt_is_Some_2 data (Z.to_nat i)) as [p Hp]; [lia|].
  rewrite Hp. cbn [mbind option_bind].
  destruct (BstFacts.bst_build_spec data) as (bst & -> & _).
  cbn [mbind option_bind timeIt w_ticks w_rng w_csv].
  destruct (RbtFacts.rbt_build_spec data) as (T & t & -> & Ht & _ & _).
  cbn [mbind option_bind]. rewrite (RbtFacts.search_spec _ _ _ Ht).
  cbn [mbind option_bind].
  rewrite Hht. cbn [mbind option_bind]. rewrite Hs. cbn [mbind option_bind].
  unfold row_at.
  replace (w_ticks w + 1) with (S (w_ticks w)) by lia.
  replace (w_ticks w + 2) with (S (S (w_ticks w))) by lia.
  replace (w_ticks w + 3) with (S (S (S (w_ticks w)))) by lia.
  replace (w_ticks w + 4) with (S (S (S (S (w_ticks w))))) by lia.
  replace (w_ticks w + 5) with (S (S (S (S (S (w_ticks w)))))) by lia.
  replace (w_ticks w + 6) with (S (S (S (S (S (S (w_ticks w))))))) by lia.
  replace (w_ticks w + 7) with (S (S (S (S (S (S (S (w_ticks w)))))))) by lia.
  replace (w_ticks w + 8) with (S (S (S (S (S (S (S (S (w_ticks w))))))))) by lia.
  replace (w_ticks w + 9)
    with (S (S (S (S (S (S (S (S (S (w_ticks w)))))))))) by lia.
  replace (w_ticks w + 10)
    with (S (S (S (S (S (S (S (S (S (S (w_ticks w))))))))))) by lia.
  reflexivity.
Qed.

Lemma measure_all_run ns : ∀ (w : @World Rng),
  Forall (λ n, 1 ≤ n)%Z ns →
  ∃ rows w',
    measure_all rng_next uniform_int char_signed clock ns w = Some (rows, w')
    ∧ w_csv w' = w_csv w
    ∧ loop_rows rng_next uniform_int char_signed clock ns (w_rng w) (w_ticks w)
        rows.
Proof.
  induction ns as [|n ns IH]; intros w Hns; cbn [Bench.measure_all loop_rows].
  - by eexists _, _.
  - inv Hns.
    destruct (measure_run n w) as (data & rng1 & ht & Hmk & Hht & ->); [done|].
    cbn [mbind option_bind].
    destruct (IH (mkWorld (uniform_int 0 (n - 1) rng1).2 (w_ticks w + 10) (w_csv w)))
      as (rows & w2 & -> & Hc2 & Hrows); [done|].
    cbn [mbind option_bind]. cbn [w_rng w_ticks w_csv] in *.
    eexists _, _. split; [reflexivity|]. split; [done|].
    by exists data, rng1, ht.
Qed.

Lemma loop_rows_sizes ns : ∀ rng t rows,
  loop_rows rng_next uniform_int char_signed clock ns rng t rows →
  size <$> rows = ns.
Proof.
  induction ns as [|n ns IH]; intros rng t [|r rows]; cbn [loop_rows]; try done.
  intros (data & rng1 & ht & _ & _ & -> & Hrows). cbn. f_equal. by eapply IH.
Qed.

Lemma loop_rows_lookup ns : ∀ rng t rows i r,
  loop_rows rng_next uniform_int char_signed clock ns rng t rows →
  rows !! i = Some r →
  ∃ n colls, ns !! i = Some n ∧ r = row_at clock (t + 10 * i) n colls.
Proof.
  induction ns as [|n ns IH]; intros rng t [|r0 rows] i r; cbn [loop_rows];
    try done.
  intros (data & rng1 & ht & _ & _ & -> & Hrows) Hi.
  destruct i as [|i]; cbn in Hi.
  - injection Hi as <-. eexists _, _. split; [done|].
    by replace (t + 10 * 0) with t by lia.
  - destruct (IH _ _ _ _ _ Hrows Hi) as (m & colls & Hm & ->).
    exists m, colls. split; [done|].
    by replace (t + 10 * S i) with (t + 10 + 10 * i) by lia.
Qed.

Lemma main_run show_double (w : @World Rng) :
  ∃ rows w',
    main rng_next uniform_int char_signed clock show_double w = Some w'
    ∧ w_csv w' = csv_text show_double rows
    ∧ loop_rows rng_next uniform_int char_signed clock sizes (w_rng w)
        (w_ticks w) rows.
Proof.
  destruct (measure_all_run sizes w sizes_positive) as (rows & w1 & Hrun & _ & Hrows).
  exists rows. eexists. unfold Bench.main. rewrite Hrun. cbn [mbind option_bind].
  split; [reflexivity|]. cbn [w_csv]. split; [|done].
  by rewrite (write_csv_eq show_double).
Qed.
End Rows.
End ReportFacts.
(* ===================================================================== *)
(** * The properties of the specification                                *)
(* ===================================================================== *)

(** ** Red-black tree: invariants after every insertion *)

Lemma RB_invariants_empty : Rbt.RB_invariants Rbt.empty.
Proof.
  exists Rbt.Leaf. split; [apply RbtFacts.abstracts_empty|].
  apply RbtFacts.red_black_leaf.
Qed.

(** C1. After every call to [RBTree::insert] the tree satisfies the
    red-black invariants: the keys are ordered (left subtree keys < node key
    < right subtree keys at every node), every node is red or black (by the
    type [Color]), the root is black, no red node has a red parent, and
    every path from a node to a null link passes through the same number of
    black nodes.  The call returns: it neither dereferences a null pointer
    nor runs out of fuel. *)
Theorem rbt_insert_preserves_invariants
    (T : Rbt.RBTree) (ref : PassengerPtr) (p : Passenger) :
  Rbt.RB_invariants T →
  ∃ T', Rbt.insert ref p T = Some (tt, T') ∧ Rbt.RB_invariants T'.
Proof.
  intros (t & Ht & Hrb).
  destruct (RbtFacts.rbt_insert_spec T t ref p Ht Hrb)
    as ([] & T' & Hrun & t' & Ht' & Hrb' & _).
  exists T'. split; [done|]. by exists t'.
Qed.

Lemma rbt_insert_preserves_invariants_witness :
  Rbt.RB_invariants Rbt.empty
  ∧ ∃ T', Rbt.insert 0 alice Rbt.empty
          = Some (tt, T')
          ∧ Rbt.RB_invariants T'.
Proof.
  split; [exact RB_invariants_empty|].
  apply rbt_insert_preserves_invariants. exact RB_invariants_empty.
Defined.

(** The invariants hold for the tree built from any data vector. *)
Lemma rbt_build_invariants (data : list Passenger) :
  ∃ T, Rbt.build data = Some T ∧ Rbt.RB_invariants T.
Proof.
  destruct (RbtFacts.rbt_build_spec data) as (T & t & Hb & Ht & Hrb & _).
  exists T. split; [done|]. by exists t.
Qed.

(** ** Agreement of the four structures *)

(** What the three keyed structures and the linear scan return for [key]
    once they hold every record of [data]. *)
Lemma searches_agree (char_signed : bool) (data : list Passenger)
    (nBuckets : nat) (key : string) :
  0 < nBuckets →
  ∃ bst rbt ht,
    Bst.build data = Some bst
    ∧ Rbt.build data = Some rbt
    ∧ Hash.build char_signed nBuckets data = Some ht
    ∧ Bst.search bst key = linearSearch data key
    ∧ Rbt.search key rbt = Some (linearSearch data key, rbt)
    ∧ Hash.search char_signed key ht = Some (linearSearch data key).
Proof.
  intros Hn.
  destruct (BstFacts.bst_build_spec data) as (bst & Hbst & Hsb).
  destruct (RbtFacts.rbt_build_spec data) as (rbt & t & Hrbt & Ht & _ & Hsr).
  destruct (HashFacts.hash_build_spec char_signed nBuckets data Hn)
    as (ht & Hht & _ & Hsh).
  exists bst, rbt, ht. rewrite linearSearch_matches.
  split_and!; try done.
  by rewrite (RbtFacts.search_spec _ _ _ Ht), Hsr.
Qed.

(** C2. For every dataset and every key present in it, once every record
    has been inserted into the unbalanced tree, the balanced tree and the
    hash table, the three searches return the same multiset of record
    references, and it is the multiset of the indices linear search returns
    (a reference is the index of the record it points to). *)
Theorem search_results_same_multiset (char_signed : bool)
    (data : list Passenger) (nBuckets : nat) (key : string) :
  0 < nBuckets → key ∈ fullName <$> data →
  ∃ bst rbt ht rb rr rh,
    Bst.build data = Some bst
    ∧ Rbt.build data = Some rbt
    ∧ Hash.build char_signed nBuckets data = Some ht
    ∧ Bst.search bst key = rb
    ∧ Rbt.search key rbt = Some (rr, rbt)
    ∧ Hash.search char_signed key ht = Some rh
    ∧ rb ≡ₚ rr ∧ rr ≡ₚ rh ∧ rh ≡ₚ linearSearch data key
    ∧ records_at data rb ≡ₚ records_at data (linearSearch data key).
Proof.
  intros Hn _.
  destruct (searches_agree char_signed data nBuckets key Hn)
    as (bst & rbt & ht & ? & ? & ? & Hb & Hr & Hh).
  exists bst, rbt, ht, (linearSearch data key), (linearSearch data key),
    (linearSearch data key).
  split_and!; done.
Qed.

Lemma search_results_same_multiset_witness :
  0 < 7 ∧ "alice" ∈ fullName <$> sample_data
  ∧ ∃ bst rbt ht rb rr rh,
      Bst.build sample_data = Some bst
      ∧ Rbt.build sample_data = Some rbt
      ∧ Hash.build true 7 sample_data = Some ht
      ∧ Bst.search bst "alice" = rb
      ∧ Rbt.search "alice" rbt = Some (rr, rbt)
      ∧ Hash.search true "alice" ht = Some rh
      ∧ rb ≡ₚ rr ∧ rr ≡ₚ rh ∧ rh ≡ₚ linearSearch sample_data "alice"
      ∧ records_at sample_data rb
        ≡ₚ records_at sample_data (linearSearch sample_data "alice").
Proof.
  assert (0 < 7) as H1 by lia.
  assert ("alice" ∈ fullName <$> sample_data) as H2 by (cbn; by left).
  split; [exact H1|]. split; [exact H2|].
  exact (search_results_same_multiset true sample_data 7 "alice" H1 H2).
Defined.

(** C10. For every dataset and every key present in it, after inserting
    all records in dataset order, the payload sequences returned by the
    three keyed structures are equal to each other element by element, and
    equal to the ascending index sequence of linear search: every structure
    returns the matches in dataset insertion order. *)
Theorem search_results_same_sequence (char_signed : bool)
    (data : list Passenger) (nBuckets : nat) (key : string) :
  0 < nBuckets → key ∈ fullName <$> data →
  ∃ bst rbt ht rs,
    Bst.build data = Some bst
    ∧ Rbt.build data = Some rbt
    ∧ Hash.build char_signed nBuckets data = Some ht
    ∧ Bst.search bst key = rs
    ∧ Rbt.search key rbt = Some (rs, rbt)
    ∧ Hash.search char_signed key ht = Some rs
    ∧ rs = linearSearch data key
    ∧ rs = matches key (refs data).
Proof.
  intros Hn _.
  destruct (searches_agree char_signed data nBuckets key Hn)
    as (bst & rbt & ht & ? & ? & ? & Hb & Hr & Hh).
  exists bst, rbt, ht, (linearSearch data key).
  split_and!; try done. apply linearSearch_matches.
Qed.

Lemma search_results_same_sequence_witness :
  0 < 7 ∧ "alice" ∈ fullName <$> sample_data
  ∧ ∃ bst rbt ht rs,
      Bst.build sample_data = Some bst
      ∧ Rbt.build sample_data = Some rbt
      ∧ Hash.build true 7 sample_data = Some ht
      ∧ Bst.search bst "alice" = rs
      ∧ Rbt.search "alice" rbt = Some (rs, rbt)
      ∧ Hash.search true "alice" ht = Some rs
      ∧ rs = linearSearch sample_data "alice"
      ∧ rs = matches "alice" (refs sample_data).
Proof.
  assert (0 < 7) as H1 by lia.
  assert ("alice" ∈ fullName <$> sample_data) as H2 by (cbn; by left).
  split; [exact H1|]. split; [exact H2|].
  exact (search_results_same_sequence true sample_data 7 "alice" H1 H2).
Defined.

(** The end-to-end scenario of the specification. *)
Example sample_linear : linearSearch sample_data "alice" = [0; 2].
Proof. reflexivity. Qed.

(** C7. For every structure and every key absent from the dataset it was
    built from, the search returns an empty result, and it does return. *)
Theorem search_miss_is_empty (char_signed : bool) (data : list Passenger)
    (nBuckets : nat) (key : string) :
  0 < nBuckets → key ∉ fullName <$> data →
  linearSearch data key = []
  ∧ (∃ bst, Bst.build data = Some bst ∧ Bst.search bst key = [])
  ∧ (∃ rbt, Rbt.build data = Some rbt ∧ Rbt.search key rbt = Some ([], rbt))
  ∧ (∃ ht, Hash.build char_signed nBuckets data = Some ht
           ∧ Hash.search char_signed key ht = Some []).
Proof.
  intros Hn Habs.
  destruct (searches_agree char_signed data nBuckets key Hn)
    as (bst & rbt & ht & ? & ? & ? & Hb & Hr & Hh).
  assert (linearSearch data key = []) as Hl.
  { rewrite linearSearch_matches. by apply matches_absent_data. }
  rewrite Hl in *. split_and!; eauto.
Qed.

Lemma search_miss_is_empty_witness :
  0 < 7 ∧ ("carol" ∉ fullName <$> sample_data)
  ∧ linearSearch sample_data "carol" = []
  ∧ (∃ bst, Bst.build sample_data = Some bst ∧ Bst.search bst "carol" = [])
  ∧ (∃ rbt, Rbt.build sample_data = Some rbt
            ∧ Rbt.search "carol" rbt = Some ([], rbt))
  ∧ (∃ ht, Hash.build true 7 sample_data = Some ht
           ∧ Hash.search true "carol" ht = Some []).
Proof.
  assert (0 < 7) as H1 by lia.
  assert ("carol" ∉ fullName <$> sample_data) as H2.
  { cbn. rewrite !not_elem_of_cons. split_and!; try done. apply not_elem_of_nil. }
  split; [exact H1|]. split; [exact H2|].
  exact (search_miss_is_empty true sample_data 7 "carol" H1 H2).
Defined.

(** C6. For every dataset and key, [linearSearch] returns exactly the
    indices [i] with [dataset[i].key = key], in ascending order, possibly
    none.  (The dataset is passed by constant reference; the model is a
    function of it.) *)
Theorem linearSearch_correct (data : list Passenger) (key : string) :
  linearSearch data key = List.filter (has_key data key) (seq 0 (length data))
  ∧ StronglySorted lt (linearSearch data key)
  ∧ ∀ i, i ∈ linearSearch data key
         ↔ ∃ p, data !! i = Some p ∧ fullName p = key.
Proof.
  split; [apply linearSearch_filter|]. rewrite linearSearch_filter. split.
  - assert (∀ n s, StronglySorted lt (seq s n)) as Hseq.
    { induction n as [|n IH]; intros s; cbn; constructor; [done|].
      apply Forall_forall. intros x Hx%list_elem_of_In%in_seq. lia. }
    generalize (Hseq (length data) 0). generalize (seq 0 (length data)).
    induction 1 as [|x l Hs IH Hx]; cbn; [constructor|].
    destruct (has_key data key x); [|done]. constructor; [done|].
    rewrite Forall_forall in *. intros y Hy%list_elem_of_In%filter_In.
    apply Hx, list_elem_of_In. tauto.
  - intros i. rewrite list_elem_of_In, filter_In, in_seq. unfold has_key. split.
    + intros [_ Hk]. destruct (data !! i) as [p|]; [|done].
      exists p. split; [done|]. by apply String.eqb_eq.
    + intros (p & Hp & Hk). rewrite Hp. split; [|by apply String.eqb_eq].
      apply lookup_lt_Some in Hp. lia.
Qed.

(** ** Hash table: the collision counter *)

(** C3. The collision counter grows by exactly one on every insertion whose
    target bucket is non-empty when the insertion starts, whether or not the
    key already has an entry there, and on no other insertion.  In
    particular a table with one bucket that received [k] records with
    distinct keys has [collisionCount() = k - 1], and inserting a key again
    after it was inserted counts a collision without creating an entry. *)
Theorem hash_collision_counting (char_signed : bool)
    (ht : Hash.HashTable) (ref ref' : PassengerPtr) (p p' : Passenger)
    (data : list Passenger) :
  0 < length (Hash.table ht) →
  (0 ≤ Hash.collisionCount ht < Hash.size_t_modulus - 2)%Z →
  fullName p' = fullName p →
  data ≠ [] → NoDup (fullName <$> data) →
  (Z.of_nat (length data) ≤ Hash.size_t_modulus)%Z →
  (* one insertion *)
  (∃ idx cur ht1,
     Hash.bucket_of char_signed (fullName p) ht = Some (idx, cur)
     ∧ Hash.insert char_signed ref p ht = Some ht1
     ∧ Hash.collisionCount ht1
       = (if decide (cur = []) then Hash.collisionCount ht
          else Hash.collisionCount ht + 1)%Z
     (* the same key again *)
     ∧ ∃ ht2,
         Hash.insert char_signed ref' p' ht1 = Some ht2
         ∧ Hash.collisionCount ht2 = (Hash.collisionCount ht1 + 1)%Z
         ∧ Hash.entry_keys ht2 = Hash.entry_keys ht1)
  (* a single bucket *)
  ∧ (∃ hs, Hash.build char_signed 1 data = Some hs
           ∧ Hash.collisionCount hs = (Z.of_nat (length data) - 1)%Z).
Proof.
  intros Hn Hcol Hname Hdata _ Hlen. split.
  - destruct (HashFacts.hash_insert_spec char_signed ref p ht Hn)
      as (idx & cur & Hb & Hc & Hins).
    eexists idx, cur, _. split; [done|]. split; [exact Hins|].
    assert (Hash.collisionCount
              (Hash.mkHashTable
                 (<[idx := Hash.chain_insert cur (fullName p) ref]> (Hash.table ht))
                 match cur with
                 | [] => Hash.collisions ht
                 | _ :: _ => Hash.wrap (Hash.collisions ht + 1)
                 end)
            = (if decide (cur = []) then Hash.collisionCount ht
               else Hash.collisionCount ht + 1)%Z) as Hcount.
    { unfold Hash.collisionCount in *. cbn [Hash.collisions].
      destruct cur; [done|]. rewrite decide_False by done.
      apply HashFacts.wrap_small. lia. }
    split; [exact Hcount|].
    destruct (HashFacts.insert_again char_signed ref p ref' p' ht _ Hn
                (eq_sym Hname) Hins) as (ht2 & Hins2 & Hc2 & Hk2).
    exists ht2. split; [done|]. split; [|done].
    unfold Hash.collisionCount in *. rewrite Hc2.
    apply HashFacts.wrap_small. rewrite Hcount. case_decide; lia.
  - by apply HashFacts.build_single.
Qed.

Lemma hash_collision_counting_witness :
  0 < length (Hash.table (Hash.new 3))
  ∧ (0 ≤ Hash.collisionCount (Hash.new 3) < Hash.size_t_modulus - 2)%Z
  ∧ fullName alice' = fullName alice
  ∧ [alice; bob] ≠ []
  ∧ NoDup (fullName <$> [alice; bob])
  ∧ (Z.of_nat (length [alice; bob]) ≤ Hash.size_t_modulus)%Z
  ∧ (∃ idx cur ht1,
       Hash.bucket_of true (fullName alice) (Hash.new 3) = Some (idx, cur)
       ∧ Hash.insert true 0 alice (Hash.new 3) = Some ht1
       ∧ Hash.collisionCount ht1
         = (if decide (cur = []) then Hash.collisionCount (Hash.new 3)
            else Hash.collisionCount (Hash.new 3) + 1)%Z
       ∧ ∃ ht2,
           Hash.insert true 2 alice' ht1 = Some ht2
           ∧ Hash.collisionCount ht2 = (Hash.collisionCount ht1 + 1)%Z
           ∧ Hash.entry_keys ht2 = Hash.entry_keys ht1)
  ∧ (∃ hs, Hash.build true 1 [alice; bob] = Some hs
           ∧ Hash.collisionCount hs = (Z.of_nat (length [alice; bob]) - 1)%Z).
Proof.
  assert (0 < length (Hash.table (Hash.new 3))) as H1 by (cbn; lia).
  assert (0 ≤ Hash.collisionCount (Hash.new 3) < Hash.size_t_modulus - 2)%Z
    as H2 by (by vm_compute).
  assert (fullName alice' = fullName alice) as H3 by reflexivity.
  assert ([alice; bob] ≠ []) as H4 by discriminate.
  assert (NoDup (fullName <$> [alice; bob])) as H5.
  { cbn. apply NoDup_cons. split; [|apply NoDup_singleton].
    rewrite list_elem_of_singleton. discriminate. }
  assert (Z.of_nat (length [alice; bob]) ≤ Hash.size_t_modulus)%Z as H6
    by (by vm_compute).
  split; [exact H1|]. split; [exact H2|]. split; [exact H3|].
  split; [exact H4|]. split; [exact H5|]. split; [exact H6|].
  exact (hash_collision_counting true (Hash.new 3) 0 2 alice alice'
           [alice; bob] H1 H2 H3 H4 H5 H6).
Defined.

(** ** Red-black tree: inserting a key that is already there *)

(** C4. When [RBTree::insert] is called with a record whose key is already
    in the tree, the reference is appended to the payload of the node that
    holds the key and the call returns at once: the root, the set of nodes,
    and the key, colour, parent and child links of every node are
    unchanged, so no rotation or recolouring took place. *)
Theorem rbt_insert_duplicate_frame (T : Rbt.RBTree) (t : Rbt.tree)
    (ref : PassengerPtr) (p : Passenger) :
  Rbt.abstracts T t → Rbt.ordered t → fullName p ∈ Rbt.keys t →
  ∃ a nd T',
    Rbt.heap T !! a = Some nd ∧ Rbt.key nd = fullName p
    ∧ Rbt.insert ref p T = Some (tt, T')
    ∧ Rbt.root T' = Rbt.root T
    ∧ Rbt.heap T'
      = <[a := Rbt.mkRBTNode (Rbt.key nd) (Rbt.payload nd ++ [ref])
                (Rbt.color nd) (Rbt.parent nd) (Rbt.left nd) (Rbt.right nd)]>
          (Rbt.heap T)
    ∧ dom (Rbt.heap T') = dom (Rbt.heap T)
    ∧ ∀ b n, Rbt.heap T !! b = Some n →
        ∃ n', Rbt.heap T' !! b = Some n'
              ∧ Rbt.key n' = Rbt.key n ∧ Rbt.color n' = Rbt.color n
              ∧ Rbt.parent n' = Rbt.parent n
              ∧ Rbt.left n' = Rbt.left n ∧ Rbt.right n' = Rbt.right n
              ∧ Rbt.payload n'
                = if decide (b = a) then Rbt.payload n ++ [ref]
                  else Rbt.payload n.
Proof.
  intros Ht Ho Hin.
  destruct (RbtFacts.insert_duplicate T t ref p Ht Ho Hin)
    as (a & nd & Ha & Hk & Hrun).
  eexists a, nd, _. split_and!; [done|done|exact Hrun|done|done|..].
  - cbn. rewrite dom_insert_L. apply elem_of_dom_2 in Ha. set_solver.
  - intros b n Hb. cbn. destruct (decide (b = a)) as [->|Hne].
    + rewrite lookup_insert_eq. eexists. split; [done|].
      rewrite Ha in Hb. injection Hb as <-. done.
    + rewrite lookup_insert_ne by done. exists n. done.
Qed.

Lemma rbt_insert_duplicate_frame_witness :
  Rbt.abstracts one_node one_node_tree ∧ Rbt.ordered one_node_tree
  ∧ fullName alice' ∈ Rbt.keys one_node_tree
  ∧ ∃ a nd T',
      Rbt.heap one_node !! a = Some nd
      ∧ Rbt.insert 2 alice' one_node = Some (tt, T')
      ∧ Rbt.root T' = Rbt.root one_node
      ∧ dom (Rbt.heap T') = dom (Rbt.heap one_node).
Proof.
  assert (Rbt.abstracts one_node one_node_tree) as H1.
  { split_and!; [reflexivity|cbn; split_and!; [reflexivity|done|done]|].
    cbn. apply NoDup_singleton. }
  assert (Rbt.ordered one_node_tree) as H2.
  { cbn. split_and!; try done; constructor. }
  assert (fullName alice' ∈ Rbt.keys one_node_tree)
    as H3 by (cbn; by left).
  split_and!; try assumption.
  destruct (rbt_insert_duplicate_frame one_node one_node_tree 2
              alice' H1 H2 H3)
    as (a & nd & T' & Ha & _ & Hrun & Hroot & _ & Hdom & _).
  exists a, nd, T'. split_and!; assumption.
Defined.

(** ** Hash table: the hash function *)

(** C5 (as amended). For every key and every bucket count greater than
    zero, [hashStr] folds the characters of the key with
    [h = ((h * 31 + c) mod 2^64) mod bucketCount], [c] being the character
    converted to [size_t], and yields a value in [[0, bucketCount)], so the
    bucket index used by [insert] and [search] is in range.  When no
    character is sign-extended (plain [char] is unsigned, or every byte is
    below 128) and [31 * (bucketCount - 1) + 255 < 2^64], this is the
    polynomial rolling hash [h = (h * 31 + byte) mod bucketCount]. *)
Theorem hashStr_range_and_formula (char_signed : bool) (s : string) (md : Z) :
  (0 < md)%Z →
  ∃ h, Hash.hashStr char_signed s md = Some h
       ∧ (0 ≤ h < md)%Z
       ∧ h = fold_left
               (λ h c, (Hash.wrap (h * 31 + Hash.char_to_size_t char_signed c)
                        mod md)%Z)
               (list_ascii_of_string s) 0%Z
       ∧ ((31 * (md - 1) + 255 < Hash.size_t_modulus)%Z →
          Forall (λ c, char_signed = false ∨ (Z.of_N (N_of_ascii c) < 128)%Z)
                 (list_ascii_of_string s) →
          h = Hash.hash_spec s md)
       ∧ ∀ ht, Z.of_nat (length (Hash.table ht)) = md →
               ∃ cur, Hash.table ht !! Z.to_nat h = Some cur
                      ∧ Hash.bucket_of char_signed s ht
                        = Some (Z.to_nat h, cur).
Proof.
  intros Hmd.
  destruct (HashFacts.hashStr_range char_signed s md Hmd) as (h & Hh & Hr).
  exists h. split; [done|]. split; [done|]. split.
  { rewrite (HashFacts.hashStr_fold char_signed s md Hmd) in Hh.
    by injection Hh. }
  split.
  - intros Hov Hcs.
    rewrite (HashFacts.hashStr_spec char_signed s md Hmd Hov Hcs) in Hh.
    by injection Hh.
  - intros ht Hlen.
    destruct (lookup_lt_is_Some_2 (Hash.table ht) (Z.to_nat h)) as [cur Hcur];
      [lia|].
    exists cur. split; [done|]. unfold Hash.bucket_of. rewrite Hlen, Hh. cbn.
    by rewrite Hcur.
Qed.

Lemma hashStr_range_and_formula_witness :
  (0 < 15)%Z
  ∧ ∃ h, Hash.hashStr true "alice" 15 = Some h ∧ (0 ≤ h < 15)%Z
         ∧ h = Hash.hash_spec "alice" 15.
Proof.
  assert (0 < 15)%Z as H1 by lia. split; [exact H1|].
  destruct (hashStr_range_and_formula true "alice" 15 H1)
    as (h & Hh & Hr & _ & Hs & _).
  exists h. split; [exact Hh|]. split; [exact Hr|]. apply Hs.
  - by vm_compute.
  - repeat constructor; right; by vm_compute.
Defined.

(** The hash is not the polynomial rolling hash of the specification for
    every key and bucket count: a byte above 127 is sign-extended where
    plain [char] is signed, and [h * 31 + c] wraps around for large bucket
    counts, whatever the signedness. *)
Lemma hashStr_differs_from_spec :
  Hash.hashStr true (String (ascii_of_nat 255) EmptyString) 1000
  ≠ Some (Hash.hash_spec (String (ascii_of_nat 255) EmptyString) 1000)
  ∧ Hash.hashStr true "zzzzzzzzzzzzzzzz" (2 ^ 60 - 1)
    ≠ Some (Hash.hash_spec "zzzzzzzzzzzzzzzz" (2 ^ 60 - 1))
  ∧ Hash.hashStr false "zzzzzzzzzzzzzzzz" (2 ^ 60 - 1)
    ≠ Some (Hash.hash_spec "zzzzzzzzzzzzzzzz" (2 ^ 60 - 1)).
Proof. split_and!; by vm_compute. Qed.

Example hashStr_sign_extension :
  Hash.hashStr true (String (ascii_of_nat 255) EmptyString) 1000 = Some 615%Z
  ∧ Hash.hash_spec (String (ascii_of_nat 255) EmptyString) 1000 = 255%Z.
Proof. split; reflexivity. Qed.

(** ** Data generator *)


Lemma stuck_uniform_range : ∀ lo hi g,
  (lo ≤ hi → lo ≤ (stuck_uniform lo hi g).1 ≤ hi)%Z.
Proof. intros lo hi g H. cbn. lia. Qed.



(** ** The report *)

(** C9 (as amended). The program writes one file.  Its first line is the
    header [size,linear_us,bst_us,rbt_us,hash_us,multimap_us,collisions];
    one line per tested size follows, with the fields in that order; the
    tested sizes are 100, 1000, 5000, 10000, 50000, 100000, 200000, 500000,
    750000 and 1000000 in this order.  Each time field is the difference, in
    nanoseconds, of the two clock readings around the search it measures,
    as the stream prints a [double] by default: the count in full when it is
    below [10^6], and otherwise rounded to six significant digits in
    scientific notation.  The last field is the collision count of the table
    built, with [2n+1] buckets, from the data [makeData] returned for that
    size. *)
Theorem main_report {Rng : Type} (rng_next : Rng → Z * Rng)
    (uniform_int : Z → Z → Rng → Z * Rng) (char_signed : bool)
    (clock : nat → Z) (w : Bench.World) :
  (∀ lo hi g, (lo ≤ hi → lo ≤ (uniform_int lo hi g).1 ≤ hi)%Z) →
  ∃ rows w',
    Bench.main rng_next uniform_int char_signed clock put_double w = Some w'
    ∧ Bench.w_csv w'
      = Bench.csv_header +:+ String "010" EmptyString
        +:+ foldr (λ r s, Bench.row_line put_double r +:+ s) EmptyString rows
    ∧ Bench.csv_header
      = "size,linear_us,bst_us,rbt_us,hash_us,multimap_us,collisions"
    ∧ (∀ r, Bench.row_line put_double r
            = pretty (Bench.size r) +:+ ","
              +:+ put_double (Bench.tLinear r) +:+ ","
              +:+ put_double (Bench.tBST r) +:+ ","
              +:+ put_double (Bench.tRBT r) +:+ ","
              +:+ put_double (Bench.tHash r) +:+ ","
              +:+ put_double (Bench.tMultimap r) +:+ ","
              +:+ pretty (Bench.collisions r) +:+ String "010" EmptyString)
    ∧ Bench.size <$> rows
      = [100; 1000; 5000; 10000; 50000; 100000; 200000; 500000; 750000;
         1000000]%Z
    ∧ Bench.loop_rows rng_next uniform_int char_signed clock Bench.sizes
        (Bench.w_rng w) (Bench.w_ticks w) rows
    ∧ (∀ i r, rows !! i = Some r →
         ∃ n colls,
           Bench.sizes !! i = Some n
           ∧ r = Bench.row_at clock (Bench.w_ticks w + 10 * i) n colls)
    ∧ (∀ t, (0 ≤ t < 10 ^ 6)%Z → put_double t = pretty t)
    ∧ (∀ t, (10 ^ 6 ≤ t < 2 ^ 53)%Z →
         ∃ m e, put_double t = scientific m e
                ∧ (10 ^ 5 ≤ m < 10 ^ 6)%Z ∧ (6 ≤ e)%Z
                ∧ (2 * Z.abs (t - m * 10 ^ (e - 5)) ≤ 10 ^ (e - 5))%Z).
Proof.
  intros Hu.
  destruct (ReportFacts.main_run rng_next uniform_int char_signed clock Hu
              put_double w) as (rows & w' & Hrun & Hcsv & Hrows).
  exists rows, w'. split_and!; try done.
  - by eapply ReportFacts.loop_rows_sizes.
  - intros i r Hr. by eapply ReportFacts.loop_rows_lookup.
  - apply ReportFacts.put_double_small.
  - apply ReportFacts.put_double_large.
Qed.

Lemma main_report_witness :
  (∀ lo hi g, (lo ≤ hi → lo ≤ (stuck_uniform lo hi g).1 ≤ hi)%Z)
  ∧ ∃ rows w',
      Bench.main stuck_next stuck_uniform true (λ i, Z.of_nat i * 1000)%Z
        put_double (Bench.mkWorld tt 0 EmptyString) = Some w'
      ∧ Bench.size <$> rows
        = [100; 1000; 5000; 10000; 50000; 100000; 200000; 500000; 750000;
           1000000]%Z
      ∧ Bench.w_csv w'
        = Bench.csv_header +:+ String "010" EmptyString
          +:+ foldr (λ r s, Bench.row_line put_double r +:+ s) EmptyString
                rows.
Proof.
  split; [exact stuck_uniform_range|].
  destruct (main_report stuck_next stuck_uniform true
              (λ i, Z.of_nat i * 1000)%Z
              (Bench.mkWorld tt 0 EmptyString) stuck_uniform_range)
    as (rows & w' & Hrun & Hcsv & _ & _ & Hsz & _).
  exists rows, w'. split; [exact Hrun|]. split; [exact Hsz|exact Hcsv].
Defined.

(** A time field does not always hold the measured count: with clock
    readings 1234567 ns apart every time field of the report reads
    [1.23457e+06]. *)
Lemma main_report_time_not_count :
  ∃ rows w' r,
    Bench.main stuck_next stuck_uniform true (λ i, Z.of_nat i * 1234567)%Z
      put_double (Bench.mkWorld tt 0 EmptyString) = Some w'
    ∧ Bench.w_csv w'
      = Bench.csv_header +:+ String "010" EmptyString
        +:+ foldr (λ r s, Bench.row_line put_double r +:+ s) EmptyString rows
    ∧ rows !! 0 = Some r
    ∧ Bench.size r = 100%Z
    ∧ Bench.tLinear r = 1234567%Z
    ∧ put_double (Bench.tLinear r) = "1.23457e+06"%string
    ∧ put_double (Bench.tLinear r) ≠ pretty (Bench.tLinear r)
    ∧ Bench.row_line put_double r
      = ("100,1.23457e+06,1.23457e+06,1.23457e+06,1.23457e+06,1.23457e+06,"
         +:+ pretty (Bench.collisions r) +:+ String "010" EmptyString)%string.
Proof.
  destruct (ReportFacts.main_run stuck_next stuck_uniform true
              (λ i, Z.of_nat i * 1234567)%Z stuck_uniform_range
              put_double (Bench.mkWorld tt 0 EmptyString))
    as (rows & w' & Hrun & Hcsv & Hrows).
  destruct rows as [|r rows]; [exact (False_ind _ Hrows)|].
  unfold Bench.sizes in Hrows. cbn [Bench.loop_rows] in Hrows.
  destruct Hrows as (data & rng1 & ht & _ & _ & Hr & _).
  exists (r :: rows), w', r.
  split; [exact Hrun|]. split; [exact Hcsv|]. split; [reflexivity|].
  rewrite Hr. unfold Bench.row_at, Bench.row_line.
  cbn [Bench.size Bench.tLinear Bench.tBST Bench.tRBT Bench.tHash
       Bench.tMultimap Bench.collisions].
  change (Z.of_nat (0 + 1) * 1234567 - Z.of_nat 0 * 1234567)%Z with 1234567%Z.
  change (Z.of_nat (0 + 3) * 1234567 - Z.of_nat (0 + 2) * 1234567)%Z
    with 1234567%Z.
  change (Z.of_nat (0 + 5) * 1234567 - Z.of_nat (0 + 4) * 1234567)%Z
    with 1234567%Z.
  change (Z.of_nat (0 + 7) * 1234567 - Z.of_nat (0 + 6) * 1234567)%Z
    with 1234567%Z.
  change (Z.of_nat (0 + 9) * 1234567 - Z.of_nat (0 + 8) * 1234567)%Z
    with 1234567%Z.
  change (put_double 1234567) with "1.23457e+06"%string.
  change (pretty 100%Z) with "100"%string.
  split; [reflexivity|]. split; [reflexivity|]. split; [reflexivity|].
  split; [by vm_compute|]. reflexivity.
Qed.

(* ===================================================================== *)
(** * Further properties of the code                                     *)
(* ===================================================================== *)

(** ** Linear search *)

(** X1. Searching a vector made of two parts gives the matches of the
    first part followed by the matches of the second, shifted by the length
    of the first. *)
Theorem linearSearch_app (a b : list Passenger) (key : string) :
  linearSearch (a ++ b) key
  = linearSearch a key ++ ((λ j, length a + j) <$> linearSearch b key).
Proof. apply linearSearch_app_matches. Qed.

(** ** Unbalanced tree *)

(** X2. [BST::insert] returns on every tree, and afterwards [search]
    finds under the inserted key what it found before followed by the new
    reference, and under every other key what it found before. *)
Theorem bst_insert_then_search (t : Bst.BST) (ref : PassengerPtr)
    (p : Passenger) (key : string) :
  ∃ t', Bst.insert ref p t = Some t'
        ∧ Bst.search t' key
          = Bst.search t key
            ++ (if String.eqb (fullName p) key then [ref] else []).
Proof.
  exists (Bst.insert_at t (fullName p) ref).
  split; [apply BstFacts.insert_total|apply BstFacts.search_insert_at].
Qed.

(** X3. [BST::insert] keeps the keys ordered (left subtree keys < node
    key < right subtree keys), and the in-order list of entries afterwards
    is the one before with the reference added under its key: appended to
    the payload of the entry of that key, or in a new entry at the place of
    the key. *)
Theorem bst_insert_keeps_order (t : Bst.BST) (ref : PassengerPtr)
    (p : Passenger) :
  Bst.ordered t →
  ∃ t', Bst.insert ref p t = Some t'
        ∧ Bst.ordered t'
        ∧ Bst.entries t' = entries_insert (fullName p) ref (Bst.entries t).
Proof.
  intros Ho. exists (Bst.insert_at t (fullName p) ref).
  split; [apply BstFacts.insert_total|].
  split; [by apply BstMore.ordered_insert_at|by apply BstMore.entries_insert_at].
Qed.

Lemma bst_insert_keeps_order_witness :
  Bst.ordered (Bst.Node "bob" [1] Bst.Null Bst.Null)
  ∧ ∃ t', Bst.insert 0 alice (Bst.Node "bob" [1] Bst.Null Bst.Null) = Some t'
          ∧ Bst.ordered t'
          ∧ Bst.entries t' = [("alice", [0]); ("bob", [1])]%string.
Proof.
  assert (Bst.ordered (Bst.Node "bob" [1] Bst.Null Bst.Null)) as H.
  { cbn. split_and!; try done; constructor. }
  split; [exact H|].
  exact (bst_insert_keeps_order (Bst.Node "bob" [1] Bst.Null Bst.Null) 0 alice H).
Defined.

(** X4. The unbalanced tree does not rebalance: built from records whose
    keys are strictly ascending it is one chain of right links, as high as
    the number of records. *)
Theorem bst_ascending_is_a_chain (data : list Passenger) :
  StronglySorted key_lt (fullName <$> data) →
  ∃ t, Bst.build data = Some t
       ∧ t = Bst.spine ((λ rp, (fullName rp.2, [rp.1])) <$> refs data)
       ∧ Bst.height t = length data.
Proof.
  intros Hs. eexists. split; [|split; [reflexivity|]].
  - unfold Bst.build. change Bst.empty with (Bst.spine []).
    rewrite BstMore.insert_all_spine; [done|].
    cbn [fmap list_fmap app].
    replace ((fullName ∘ snd) <$> refs data) with (fullName <$> data); [done|].
    unfold refs, refs_from. rewrite list_fmap_compose, snd_zip; [done|].
    by rewrite length_seq.
  - rewrite BstMore.height_spine, length_fmap.
    unfold refs, refs_from. rewrite length_zip, length_seq. lia.
Qed.

Lemma bst_ascending_is_a_chain_witness :
  StronglySorted key_lt (fullName <$> [alice; bob])
  ∧ ∃ t, Bst.build [alice; bob] = Some t
         ∧ t = Bst.spine [("alice", [0]); ("bob", [1])]%string
         ∧ Bst.height t = 2.
Proof.
  assert (StronglySorted key_lt (fullName <$> [alice; bob])) as H.
  { repeat constructor. }
  split; [exact H|]. exact (bst_ascending_is_a_chain [alice; bob] H).
Defined.

(** ** Red-black tree *)

Lemma one_node_invariants : Rbt.RB_invariants one_node.
Proof.
  exists one_node_tree. split.
  - split_and!; [reflexivity|cbn; split_and!; [reflexivity|done|done]|].
    cbn. apply NoDup_singleton.
  - unfold Rbt.red_black. cbn. split_and!; try done; try constructor.
    by exists 1.
Qed.

Lemma two_nodes_abstracts : Rbt.abstracts two_nodes two_nodes_tree.
Proof.
  split_and!; [reflexivity| |].
  - cbn. split_and!; try done; reflexivity.
  - cbn. apply NoDup_cons. split; [|apply NoDup_singleton].
    by intros ?%list_elem_of_singleton.
Qed.

(** X5. On a red-black tree [insert] followed by [search] finds under
    the inserted key what [search] found before followed by the new
    reference, and under every other key what it found before; [search]
    leaves the object as it is. *)
Theorem rbt_insert_then_search (T : Rbt.RBTree) (ref : PassengerPtr)
    (p : Passenger) (key : string) :
  Rbt.RB_invariants T →
  ∃ T' r,
    Rbt.insert ref p T = Some (tt, T')
    ∧ Rbt.search key T = Some (r, T)
    ∧ Rbt.search key T'
      = Some (r ++ (if String.eqb (fullName p) key then [ref] else []), T').
Proof.
  intros (t & Ht & Hrb).
  destruct (RbtFacts.rbt_insert_spec T t ref p Ht Hrb)
    as ([] & T' & Hrun & t' & Ht' & Hrb' & He).
  exists T', (Rbt.tsearch t key). split; [done|].
  rewrite (RbtFacts.search_spec _ _ _ Ht), (RbtFacts.search_spec _ _ _ Ht').
  split; [done|].
  rewrite !RbtFacts.tsearch_assoc by (apply Hrb || apply Hrb').
  by rewrite He.
Qed.

Lemma rbt_insert_then_search_witness :
  Rbt.RB_invariants one_node
  ∧ ∃ T' r,
      Rbt.insert 2 alice' one_node = Some (tt, T')
      ∧ Rbt.search "alice" one_node = Some (r, one_node)
      ∧ Rbt.search "alice" T' = Some (r ++ [2], T').
Proof.
  split; [exact one_node_invariants|].
  exact (rbt_insert_then_search one_node 2 alice' "alice" one_node_invariants).
Defined.

(** X6. On a red-black tree that owns exactly the nodes of its tree,
    [insert] allocates one node when the key is new and none when the key is
    present; the object still owns exactly the nodes of a red-black tree,
    whose in-order list of entries is the one before with the reference
    added under its key. *)
Theorem rbt_insert_entries (T : Rbt.RBTree) (t : Rbt.tree)
    (ref : PassengerPtr) (p : Passenger) :
  Rbt.owns T t → Rbt.red_black t →
  ∃ T' t',
    Rbt.insert ref p T = Some (tt, T')
    ∧ Rbt.owns T' t' ∧ Rbt.red_black t'
    ∧ Rbt.entries t' = entries_insert (fullName p) ref (Rbt.entries t)
    ∧ size (Rbt.heap T')
      = if decide (fullName p ∈ Rbt.keys t) then size (Rbt.heap T)
        else S (size (Rbt.heap T)).
Proof.
  intros Ho Hrb.
  destruct (RbtMore.rbt_insert_owns T t ref p Ho Hrb)
    as (T' & t' & Hrun & Ho' & Hrb' & He).
  exists T', t'. split_and!; try done.
  destruct Ho as [_ Hsz], Ho' as [_ Hsz'].
  rewrite Hsz, Hsz', !RbtMore.length_addrs_entries, He.
  apply entries_insert_length, RbtFacts.ordered_sorted, Hrb.
Qed.

Lemma rbt_insert_entries_witness :
  Rbt.owns Rbt.empty Rbt.Leaf ∧ Rbt.red_black Rbt.Leaf
  ∧ ∃ T' t',
      Rbt.insert 0 alice Rbt.empty = Some (tt, T')
      ∧ Rbt.owns T' t'
      ∧ Rbt.entries t' = [("alice", [0])]%string
      ∧ size (Rbt.heap T') = 1.
Proof.
  split; [exact RbtMore.owns_empty|]. split; [exact RbtFacts.red_black_leaf|].
  destruct (rbt_insert_entries Rbt.empty Rbt.Leaf 0 alice RbtMore.owns_empty
              RbtFacts.red_black_leaf) as (T' & t' & H1 & H2 & _ & H3 & H4).
  exists T', t'. split_and!; assumption.
Defined.

(** X7. A red-black tree with [n] nodes is at most [2 * log2 (n + 1)]
    high, and the loop of [search] returns within that many iterations, one
    more for the null link that ends it. *)
Theorem rbt_search_depth (T : Rbt.RBTree) (key : string) :
  Rbt.RB_invariants T →
  ∃ t r,
    Rbt.abstracts T t
    ∧ Rbt.height t ≤ 2 * Nat.log2 (S (length (Rbt.addrs t)))
    ∧ Rbt.search key T = Some (r, T)
    ∧ Rbt.search_loop (S (2 * Nat.log2 (S (length (Rbt.addrs t))))) key
        (Rbt.root T) T
      = Some (r, T).
Proof.
  intros (t & Ht & Hrb). exists t, (Rbt.tsearch t key).
  pose proof (RbtMore.red_black_height t Hrb) as Hh.
  split_and!; [done|done|by apply RbtFacts.search_spec|].
  replace (Rbt.root T) with (Rbt.tptr t) by (by destruct Ht as [-> _]).
  apply (RbtFacts.search_loop_spec key t _ Rbt.Top T); [done|lia].
Qed.

Lemma rbt_search_depth_witness :
  Rbt.RB_invariants one_node
  ∧ ∃ t r,
      Rbt.abstracts one_node t
      ∧ Rbt.height t ≤ 2 * Nat.log2 (S (length (Rbt.addrs t)))
      ∧ Rbt.search "alice" one_node = Some (r, one_node)
      ∧ Rbt.search_loop (S (2 * Nat.log2 (S (length (Rbt.addrs t)))))
          "alice" (Rbt.root one_node) one_node
        = Some (r, one_node).
Proof.
  split; [exact one_node_invariants|].
  exact (rbt_search_depth one_node "alice" one_node_invariants).
Defined.

(** X8. [rotateLeft] at a node with a right child returns and leaves the
    object representing the rotated tree, with the same nodes in the same
    in-order sequence; [rotateRight] at the node that came up then restores
    the object exactly. *)
Theorem rotateLeft_then_rotateRight (T : Rbt.RBTree) (C : Rbt.ctx)
    (cx cy : Rbt.Color) (A B G : Rbt.tree) (x y : Rbt.ptr)
    (kx ky : string) (px py : list PassengerPtr) :
  Rbt.abstracts T
    (Rbt.plug C (Rbt.Node cx A x kx px (Rbt.Node cy B y ky py G))) →
  ∃ T1,
    Rbt.rotateLeft x T = Some (tt, T1)
    ∧ Rbt.abstracts T1
        (Rbt.plug C (Rbt.Node cy (Rbt.Node cx A x kx px B) y ky py G))
    ∧ Rbt.entries
        (Rbt.plug C (Rbt.Node cy (Rbt.Node cx A x kx px B) y ky py G))
      = Rbt.entries
          (Rbt.plug C (Rbt.Node cx A x kx px (Rbt.Node cy B y ky py G)))
    ∧ Rbt.rotateRight y T1 = Some (tt, T).
Proof.
  intros H%RbtFacts.abstracts_focus.
  destruct (RbtFacts.rotateLeft_spec _ _ _ _ _ _ _ _ _ _ _ _ _ H)
    as (T1 & Hrun & H1).
  pose proof (RbtMore.rotate_left_right _ _ _ _ _ _ _ _ _ _ _ _ _ H) as Hinv.
  rewrite (RbtFacts.bind_run _ _ _ _ _ Hrun) in Hinv.
  exists T1. split_and!; [done|by apply RbtFacts.abstracts_focus| |done].
  rewrite !RbtFacts.entries_plug. cbn [Rbt.entries]. do 2 f_equal.
  by rewrite <-app_assoc.
Qed.

Lemma rotateLeft_then_rotateRight_witness :
  Rbt.abstracts two_nodes two_nodes_tree
  ∧ ∃ T1,
      Rbt.rotateLeft 0 two_nodes = Some (tt, T1)
      ∧ Rbt.root T1 = Some 1
      ∧ Rbt.rotateRight 1 T1 = Some (tt, two_nodes).
Proof.
  split; [exact two_nodes_abstracts|].
  destruct (rotateLeft_then_rotateRight two_nodes Rbt.Top Rbt.BLACK Rbt.RED
              Rbt.Leaf Rbt.Leaf Rbt.Leaf 0 1 "alice" "bob" [0] [1]
              two_nodes_abstracts) as (T1 & H1 & H2 & _ & H3).
  exists T1. split; [exact H1|]. split; [exact (proj1 H2)|exact H3].
Defined.

(** X9. [rotateRight] at a node with a left child returns and leaves the
    object representing the rotated tree, with the same nodes in the same
    in-order sequence; [rotateLeft] at the node that came up then restores
    the object exactly. *)
Theorem rotateRight_then_rotateLeft (T : Rbt.RBTree) (C : Rbt.ctx)
    (cx cy : Rbt.Color) (A B G : Rbt.tree) (x y : Rbt.ptr)
    (kx ky : string) (px py : list PassengerPtr) :
  Rbt.abstracts T
    (Rbt.plug C (Rbt.Node cy (Rbt.Node cx A x kx px B) y ky py G)) →
  ∃ T1,
    Rbt.rotateRight y T = Some (tt, T1)
    ∧ Rbt.abstracts T1
        (Rbt.plug C (Rbt.Node cx A x kx px (Rbt.Node cy B y ky py G)))
    ∧ Rbt.entries
        (Rbt.plug C (Rbt.Node cx A x kx px (Rbt.Node cy B y ky py G)))
      = Rbt.entries
          (Rbt.plug C (Rbt.Node cy (Rbt.Node cx A x kx px B) y ky py G))
    ∧ Rbt.rotateLeft x T1 = Some (tt, T).
Proof.
  intros H%RbtFacts.abstracts_focus.
  destruct (RbtFacts.rotateRight_spec _ _ _ _ _ _ _ _ _ _ _ _ _ H)
    as (T1 & Hrun & H1).
  pose proof (RbtMore.rotate_right_left _ _ _ _ _ _ _ _ _ _ _ _ _ H) as Hinv.
  rewrite (RbtFacts.bind_run _ _ _ _ _ Hrun) in Hinv.
  exists T1. split_and!; [done|by apply RbtFacts.abstracts_focus| |done].
  rewrite !RbtFacts.entries_plug. cbn [Rbt.entries]. do 2 f_equal.
  by rewrite <-app_assoc.
Qed.

Lemma two_nodes_rotated_abstracts :
  Rbt.abstracts two_nodes_rotated two_nodes_rotated_tree.
Proof.
  split_and!; [reflexivity| |].
  - cbn. split_and!; try done; reflexivity.
  - cbn. apply NoDup_cons. split; [|apply NoDup_singleton].
    by intros ?%list_elem_of_singleton.
Qed.

Lemma rotateRight_then_rotateLeft_witness :
  Rbt.abstracts two_nodes_rotated two_nodes_rotated_tree
  ∧ ∃ T1,
      Rbt.rotateRight 1 two_nodes_rotated = Some (tt, T1)
      ∧ Rbt.root T1 = Some 0
      ∧ Rbt.rotateLeft 0 T1 = Some (tt, two_nodes_rotated).
Proof.
  split; [exact two_nodes_rotated_abstracts|].
  destruct (rotateRight_then_rotateLeft two_nodes_rotated Rbt.Top Rbt.BLACK
              Rbt.RED Rbt.Leaf Rbt.Leaf Rbt.Leaf 0 1 "alice" "bob" [0] [1]
              two_nodes_rotated_abstracts) as (T1 & H1 & H2 & _ & H3).
  exists T1. split; [exact H1|]. split; [exact (proj1 H2)|exact H3].
Defined.

(** X10. The destructor returns, frees every node of the tree the object
    represents, each once, and touches no other node. *)
Theorem rbt_destructor_frees_tree (T : Rbt.RBTree) (t : Rbt.tree) :
  Rbt.abstracts T t →
  ∃ T',
    Rbt.destructor T = Some (tt, T')
    ∧ ∀ a, Rbt.heap T' !! a
           = if decide (a ∈ Rbt.addrs t) then None else Rbt.heap T !! a.
Proof.
  intros H. destruct (RbtMore.destructor_spec T t H) as (T' & Hrun & _ & Hh).
  by exists T'.
Qed.

Lemma rbt_destructor_frees_tree_witness :
  Rbt.abstracts two_nodes two_nodes_tree
  ∧ ∃ T',
      Rbt.destructor two_nodes = Some (tt, T')
      ∧ Rbt.heap T' !! 0 = None ∧ Rbt.heap T' !! 1 = None.
Proof.
  split; [exact two_nodes_abstracts|].
  destruct (rbt_destructor_frees_tree two_nodes two_nodes_tree
              two_nodes_abstracts) as (T' & H1 & H2).
  exists T'. split; [exact H1|]. split; [exact (H2 0)|exact (H2 1)].
Defined.

(** X11. A tree built by inserting the records of any data vector into an
    empty tree has one node for each distinct key and no other, and the
    destructor leaves no node allocated. *)
Theorem rbt_build_then_destroy (data : list Passenger) :
  ∃ T t,
    Rbt.build data = Some T
    ∧ Rbt.owns T t
    ∧ size (Rbt.heap T) = length (entries_of (refs data))
    ∧ NoDup (Rbt.keys t)
    ∧ (∀ k, k ∈ Rbt.keys t ↔ k ∈ fullName <$> data)
    ∧ Rbt.destructor T = Some (tt, Rbt.mkRBTree (Rbt.root T) ∅).
Proof.
  destruct (RbtMore.rbt_build_owns data) as (T & t & Hb & Ho & Hrb & He).
  destruct (entries_of_spec (refs data)) as (Hs & Hk & _).
  exists T, t. split_and!; try done.
  - destruct Ho as [_ ->]. by rewrite RbtMore.length_addrs_entries, He.
  - unfold Rbt.keys. rewrite He. by apply sorted_NoDup.
  - intros k. unfold Rbt.keys. rewrite He, Hk.
    unfold refs, refs_from. rewrite list_fmap_compose, snd_zip; [done|].
    by rewrite length_seq.
  - by apply (RbtMore.destructor_owned T t).
Qed.

(** ** The two trees *)

(** X12. Built from the same data, the unbalanced tree and the red-black
    tree hold the same entries in the same in-order sequence: the distinct
    keys of the data in ascending order, each with the references of its
    records in the order of the data. *)
Theorem trees_same_inorder (data : list Passenger) :
  ∃ bst T t,
    Bst.build data = Some bst
    ∧ Rbt.build data = Some T ∧ Rbt.abstracts T t
    ∧ Bst.entries bst = Rbt.entries t
    ∧ StronglySorted key_lt (Rbt.entries t).*1
    ∧ (∀ k, k ∈ (Rbt.entries t).*1 ↔ k ∈ fullName <$> data)
    ∧ ∀ k pl, (k, pl) ∈ Rbt.entries t → pl = matches k (refs data).
Proof.
  destruct (BstMore.bst_build_entries data) as (bst & Hb & _ & Heb).
  destruct (RbtMore.rbt_build_entries data) as (T & t & Hr & Ht & _ & Her).
  destruct (entries_of_spec (refs data)) as (Hs & Hk & Ha).
  exists bst, T, t. rewrite Her. split_and!; try done.
  - intros k. rewrite Hk. unfold refs, refs_from.
    rewrite list_fmap_compose, snd_zip; [done|]. by rewrite length_seq.
  - intros k pl Hin. rewrite <-Ha. symmetry.
    apply list_elem_of_split in Hin as (l1 & l2 & Heq). rewrite Heq in Hs |- *.
    rewrite fmap_app in Hs. cbn in Hs. apply sorted_middle in Hs as (_ & _ & Hl & _).
    rewrite assoc_app_notin.
    + cbn. by rewrite String.eqb_refl.
    + intros Hin. rewrite Forall_forall in Hl. by apply Hl, key_lt_irrefl in Hin.
Qed.

(** ** Hash table *)

(** X13. On a table with at least one bucket [insert] returns and keeps
    the number of buckets; afterwards [search] finds under the inserted key
    what it found before followed by the new reference, and under every
    other key, also one of the same chain, what it found before. *)
Theorem hash_insert_then_search (char_signed : bool) (ht : Hash.HashTable)
    (ref : PassengerPtr) (p : Passenger) (key : string) :
  0 < length (Hash.table ht) →
  ∃ ht' r,
    Hash.insert char_signed ref p ht = Some ht'
    ∧ length (Hash.table ht') = length (Hash.table ht)
    ∧ Hash.search char_signed key ht = Some r
    ∧ Hash.search char_signed key ht'
      = Some (r ++ (if String.eqb (fullName p) key then [ref] else [])).
Proof.
  intros Hn.
  destruct (HashFacts.search_insert char_signed ref p ht key Hn)
    as (ht' & r & Hi & Hs & Hs').
  exists ht', r. split_and!; try done. by eapply HashFacts.insert_length.
Qed.

Lemma hash_insert_then_search_witness :
  0 < length (Hash.table (Hash.new 3))
  ∧ ∃ ht' r,
      Hash.insert true 0 alice (Hash.new 3) = Some ht'
      ∧ length (Hash.table ht') = 3
      ∧ Hash.search true "alice" (Hash.new 3) = Some r
      ∧ Hash.search true "alice" ht' = Some (r ++ [0]).
Proof.
  assert (0 < length (Hash.table (Hash.new 3))) as H by (cbn; lia).
  split; [exact H|].
  exact (hash_insert_then_search true (Hash.new 3) 0 alice "alice" H).
Defined.

(** X14. In a table built from any data vector every entry lies in the
    chain of the bucket its key hashes to, no chain holds a key twice, and
    the number of buckets is the one the table was constructed with. *)
Theorem hash_build_chains (char_signed : bool) (nBuckets : nat)
    (data : list Passenger) :
  0 < nBuckets →
  ∃ ht,
    Hash.build char_signed nBuckets data = Some ht
    ∧ length (Hash.table ht) = nBuckets
    ∧ ∀ i c, Hash.table ht !! i = Some c →
        NoDup (Hash.key <$> c)
        ∧ ∀ k, k ∈ Hash.key <$> c →
               Hash.hashStr char_signed k (Z.of_nat nBuckets)
               = Some (Z.of_nat i).
Proof.
  intros Hn.
  destruct (HashFacts.hash_build_spec char_signed nBuckets data Hn)
    as (ht & Hb & Hl & _).
  exists ht. split; [done|]. split; [done|].
  pose proof (HashMore.chains_ok_insert_all char_signed (refs data)
                (Hash.new nBuckets) ht
                (HashMore.chains_ok_new char_signed nBuckets) Hb) as Hok.
  intros i c Hc. destruct (Hok i c Hc) as [Hnd Hh]. by rewrite Hl in Hh.
Qed.

Lemma hash_build_chains_witness :
  0 < 7
  ∧ ∃ ht,
      Hash.build true 7 sample_data = Some ht
      ∧ length (Hash.table ht) = 7
      ∧ ∀ i c, Hash.table ht !! i = Some c →
          NoDup (Hash.key <$> c)
          ∧ ∀ k, k ∈ Hash.key <$> c →
                 Hash.hashStr true k (Z.of_nat 7) = Some (Z.of_nat i).
Proof.
  assert (0 < 7) as H by lia. split; [exact H|].
  exact (hash_build_chains true 7 sample_data H).
Defined.

(** X15. Every insertion either occupies an empty bucket or counts a
    collision: after building a table from [n] records the collision count
    and the number of occupied buckets add up to [n]; so the count is at
    most [n - 1] for [n >= 1], and at least [n] minus the number of
    buckets. *)
Theorem hash_collisions_and_occupied (char_signed : bool) (nBuckets : nat)
    (data : list Passenger) :
  0 < nBuckets →
  (Z.of_nat (length data) < Hash.size_t_modulus)%Z →
  ∃ ht,
    Hash.build char_signed nBuckets data = Some ht
    ∧ (Hash.collisionCount ht + Z.of_nat (Hash.occupied ht)
       = Z.of_nat (length data))%Z
    ∧ Hash.occupied ht ≤ nBuckets
    ∧ (Z.of_nat (length data) - Z.of_nat nBuckets
       ≤ Hash.collisionCount ht)%Z
    ∧ (data ≠ [] → Hash.collisionCount ht ≤ Z.of_nat (length data) - 1)%Z.
Proof.
  intros Hn Hlen.
  destruct (HashMore.hash_build_collisions char_signed nBuckets data Hn Hlen)
    as (ht & Hb & He & Hle & Hp).
  exists ht. split_and!; try done; [lia|].
  intros Hd. specialize (Hp Hd). lia.
Qed.

Lemma hash_collisions_and_occupied_witness :
  0 < 7 ∧ (Z.of_nat (length sample_data) < Hash.size_t_modulus)%Z
  ∧ ∃ ht,
      Hash.build true 7 sample_data = Some ht
      ∧ (Hash.collisionCount ht + Z.of_nat (Hash.occupied ht) = 3)%Z.
Proof.
  assert (0 < 7) as H1 by lia.
  assert (Z.of_nat (length sample_data) < Hash.size_t_modulus)%Z as H2
    by (by vm_compute).
  split; [exact H1|]. split; [exact H2|].
  destruct (hash_collisions_and_occupied true 7 sample_data H1 H2)
    as (ht & Hb & He & _).
  exists ht. split; [exact Hb|exact He].
Defined.

(** X16. A table constructed with no bucket is unusable: [insert] and
    [search] are undefined for every key (a remainder by zero, or for the
    empty key an index past the end of the empty bucket vector). *)
Theorem hash_no_buckets (char_signed : bool) (ref : PassengerPtr)
    (p : Passenger) (key : string) :
  Hash.insert char_signed ref p (Hash.new 0) = None
  ∧ Hash.search char_signed key (Hash.new 0) = None.
Proof.
  unfold Hash.insert, Hash.search, Hash.new. cbn [replicate].
  by rewrite !HashMore.bucket_of_empty.
Qed.

(** X17. A table built from any data vector holds one entry for each
    distinct key of the data and no other: as many entries as the trees
    have nodes. *)
Theorem hash_one_entry_per_key (char_signed : bool) (nBuckets : nat)
    (data : list Passenger) :
  0 < nBuckets →
  ∃ ht T,
    Hash.build char_signed nBuckets data = Some ht
    ∧ Rbt.build data = Some T
    ∧ Hash.entry_count ht = size (Rbt.heap T)
    ∧ Hash.entry_count ht = length (entries_of (refs data))
    ∧ ∀ k, k ∈ Hash.key <$> concat (Hash.table ht) ↔ k ∈ fullName <$> data.
Proof.
  intros Hn.
  destruct (HashCount.hash_build_entry_count char_signed nBuckets data Hn)
    as (ht & Hb & Hc & Hk).
  destruct (RbtMore.rbt_build_owns data) as (T & t & Hr & [_ Hsz] & _ & He).
  exists ht, T. split_and!; try done.
  by rewrite Hc, Hsz, RbtMore.length_addrs_entries, He.
Qed.

Lemma hash_one_entry_per_key_witness :
  0 < 7
  ∧ ∃ ht T,
      Hash.build true 7 sample_data = Some ht
      ∧ Rbt.build sample_data = Some T
      ∧ Hash.entry_count ht = size (Rbt.heap T)
      ∧ Hash.entry_count ht = 2.
Proof.
  assert (0 < 7) as H by lia. split; [exact H|].
  destruct (hash_one_entry_per_key true 7 sample_data H)
    as (ht & T & H1 & H2 & H3 & H4 & _).
  exists ht, T. split; [exact H1|]. split; [exact H2|]. split; [exact H3|].
  exact H4.
Defined.

(** ** Data generator *)

(** X18. [randomString(rng, len)] returns [len] characters, each in
    ['a' .. 'z']. *)
Theorem randomString_lowercase_letters {Rng : Type}
    (uniform_int : Z → Z → Rng → Z * Rng) (len : nat) (rng : Rng) :
  (∀ lo hi g, (lo ≤ hi → lo ≤ (uniform_int lo hi g).1 ≤ hi)%Z) →
  String.length (randomString uniform_int len rng).1 = len
  ∧ Forall lowercase
      (list_ascii_of_string (randomString uniform_int len rng).1).
Proof.
  intros Hu. split.
  - by apply randomString_length.
  - by apply randomString_lowercase.
Qed.

Lemma randomString_lowercase_letters_witness :
  (∀ lo hi g, (lo ≤ hi → lo ≤ (stuck_uniform lo hi g).1 ≤ hi)%Z)
  ∧ (randomString stuck_uniform 3 tt).1 = "aaa"%string
  ∧ String.length (randomString stuck_uniform 3 tt).1 = 3
  ∧ Forall lowercase
      (list_ascii_of_string (randomString stuck_uniform 3 tt).1).
Proof.
  assert (∀ lo hi g, (lo ≤ hi → lo ≤ (stuck_uniform lo hi g).1 ≤ hi)%Z) as H.
  { intros lo hi g Hle. cbn. lia. }
  split; [exact H|]. split; [reflexivity|].
  exact (randomString_lowercase_letters stuck_uniform 3 tt H).
Defined.

(** X19. Every record [makeData] returns has a key of ten lowercase
    letters, a cabin number in [1 .. 1000], one of the cabin types [Lux],
    [1], [2], [3], and a destination port of six lowercase letters. *)
Theorem makeData_records {Rng : Type} (rng_next : Rng → Z * Rng)
    (uniform_int : Z → Z → Rng → Z * Rng) (n : nat) (rng : Rng) :
  (∀ lo hi g, (lo ≤ hi → lo ≤ (uniform_int lo hi g).1 ≤ hi)%Z) →
  ∃ data rng',
    makeData rng_next uniform_int n rng = Some (data, rng')
    ∧ Forall (λ p, String.length (fullName p) = 10
                   ∧ Forall lowercase (list_ascii_of_string (fullName p))
                   ∧ (1 ≤ cabinNumber p ≤ 1000)%Z
                   ∧ cabinType p ∈ ["Lux"; "1"; "2"; "3"]%string
                   ∧ String.length (destinationPort p) = 6
                   ∧ Forall lowercase
                       (list_ascii_of_string (destinationPort p))) data.
Proof.
  intros Hu.
  destruct (makeData_spec rng_next uniform_int Hu n rng)
    as (pool & rng1 & data & rng2 & Hpool & Hrun & _ & Hlen & _ & Hin & _).
  exists data, rng2. split; [done|].
  pose proof (fill_pool_lowercase uniform_int Hu (uniqueCnt n) rng) as Hlow.
  rewrite Hpool in Hlow. cbn [fst] in Hlow.
  unfold makeData in Hrun. rewrite Hpool in Hrun.
  pose proof (fill_data_fields rng_next uniform_int Hu _ _ _ _ _ Hrun) as Hok.
  rewrite Forall_forall in Hin. rewrite Forall_forall in Hok.
  rewrite Forall_forall in Hlen. rewrite Forall_forall in Hlow.
  apply Forall_forall. intros p Hp.
  destruct (Hok p Hp) as (H1 & H2 & H3 & H4).
  split; [by apply Hlen, Hin|]. split; [by apply Hlow, Hin|].
  exact (conj H1 (conj H2 (conj H3 H4))).
Qed.

Lemma makeData_records_witness :
  (∀ lo hi g, (lo ≤ hi → lo ≤ (stuck_uniform lo hi g).1 ≤ hi)%Z)
  ∧ ∃ data rng',
      makeData stuck_next stuck_uniform 40 tt = Some (data, rng')
      ∧ Forall (λ p, String.length (fullName p) = 10
                     ∧ (1 ≤ cabinNumber p ≤ 1000)%Z
                     ∧ String.length (destinationPort p) = 6) data.
Proof.
  assert (∀ lo hi g, (lo ≤ hi → lo ≤ (stuck_uniform lo hi g).1 ≤ hi)%Z) as H.
  { intros lo hi g Hle. cbn. lia. }
  split; [exact H|].
  destruct (makeData_records stuck_next stuck_uniform 40 tt H)
    as (data & rng' & Hrun & Hok).
  exists data, rng'. split; [exact Hrun|].
  eapply Forall_impl; [exact Hok|]. intros p (H1 & _ & H3 & _ & H5 & _).
  split; [exact H1|]. split; [exact H3|exact H5].
Defined.

(** X20. For more than ten records [makeData] returns duplicate keys:
    the pool holds fewer strings than there are records, so two records
    share a key. *)
Theorem makeData_duplicate_keys {Rng : Type} (rng_next : Rng → Z * Rng)
    (uniform_int : Z → Z → Rng → Z * Rng) (n : nat) (rng : Rng) :
  (∀ lo hi g, (lo ≤ hi → lo ≤ (uniform_int lo hi g).1 ≤ hi)%Z) →
  10 < n →
  ∃ data rng',
    makeData rng_next uniform_int n rng = Some (data, rng')
    ∧ length data = n
    ∧ ¬ NoDup (fullName <$> data).
Proof.
  intros Hu Hn.
  destruct (makeData_spec rng_next uniform_int Hu n rng)
    as (pool & rng1 & data & rng2 & _ & Hrun & Hpl & _ & Hlen & Hin & _).
  exists data, rng2. split; [done|]. split; [done|].
  apply (keys_not_distinct pool); [done|].
  pose proof (uniqueCnt_lt n Hn) as Hlt. unfold uniqueCnt in Hlt. lia.
Qed.

Lemma makeData_duplicate_keys_witness :
  (∀ lo hi g, (lo ≤ hi → lo ≤ (stuck_uniform lo hi g).1 ≤ hi)%Z)
  ∧ 10 < 40
  ∧ ∃ data rng',
      makeData stuck_next stuck_uniform 40 tt = Some (data, rng')
      ∧ length data = 40
      ∧ ¬ NoDup (fullName <$> data).
Proof.
  assert (∀ lo hi g, (lo ≤ hi → lo ≤ (stuck_uniform lo hi g).1 ≤ hi)%Z) as H.
  { intros lo hi g Hle. cbn. lia. }
  assert (10 < 40) as H' by lia.
  split; [exact H|]. split; [exact H'|].
  exact (makeData_duplicate_keys stuck_next stuck_uniform 40 tt H H').
Defined.

(** ** The benchmark *)

(** X21. [main] reads the clock a hundred times, twice around each of the
    five searches for each of the ten sizes; with a clock that never goes
    back, as [steady_clock] is, no time field of a row is negative. *)
Theorem main_times_nonnegative {Rng : Type} (rng_next : Rng → Z * Rng)
    (uniform_int : Z → Z → Rng → Z * Rng) (char_signed : bool)
    (clock : nat → Z) (show_double : Z → string) (w : Bench.World) :
  (∀ lo hi g, (lo ≤ hi → lo ≤ (uniform_int lo hi g).1 ≤ hi)%Z) →
  (∀ i, clock i ≤ clock (S i))%Z →
  ∃ rows w1,
    Bench.measure_all rng_next uniform_int char_signed clock Bench.sizes w
    = Some (rows, w1)
    ∧ Bench.main rng_next uniform_int char_signed clock show_double w
      = Some (Bench.mkWorld (Bench.w_rng w1) (Bench.w_ticks w1)
                (Bench.write_csv show_double rows EmptyString))
    ∧ Bench.w_ticks w1 = Bench.w_ticks w + 100
    ∧ Forall (λ r, 0 ≤ Bench.tLinear r ∧ 0 ≤ Bench.tBST r
                   ∧ 0 ≤ Bench.tRBT r ∧ 0 ≤ Bench.tHash r
                   ∧ 0 ≤ Bench.tMultimap r)%Z rows.
Proof.
  intros Hu Hm.
  destruct (BenchMore.main_rows rng_next uniform_int char_signed clock
              show_double Hu w) as (rows & w1 & Hrun & Hmain & _ & Ht & Hrows).
  exists rows, w1. split_and!; try done.
  apply Forall_forall. intros r Hr.
  apply list_elem_of_lookup in Hr as [i Hi].
  destruct (Hrows i r Hi) as (n & _ & _ & Hmd & _).
  by eapply BenchMore.measured_nonneg.
Qed.

Lemma main_times_nonnegative_witness :
  (∀ lo hi g, (lo ≤ hi → lo ≤ (stuck_uniform lo hi g).1 ≤ hi)%Z)
  ∧ (∀ i, Z.of_nat i * 1000 ≤ Z.of_nat (S i) * 1000)%Z
  ∧ ∃ rows w1,
      Bench.measure_all stuck_next stuck_uniform true
        (λ i, Z.of_nat i * 1000)%Z Bench.sizes (Bench.mkWorld tt 0 EmptyString)
      = Some (rows, w1)
      ∧ Bench.w_ticks w1 = 100
      ∧ Forall (λ r, 0 ≤ Bench.tLinear r ∧ 0 ≤ Bench.tBST r
                     ∧ 0 ≤ Bench.tRBT r ∧ 0 ≤ Bench.tHash r
                     ∧ 0 ≤ Bench.tMultimap r)%Z rows.
Proof.
  assert (∀ lo hi g, (lo ≤ hi → lo ≤ (stuck_uniform lo hi g).1 ≤ hi)%Z) as H.
  { intros lo hi g Hle. cbn. lia. }
  assert (∀ i, Z.of_nat i * 1000 ≤ Z.of_nat (S i) * 1000)%Z as H'.
  { intros i. lia. }
  split; [exact H|]. split; [exact H'|].
  destruct (main_times_nonnegative stuck_next stuck_uniform true
              (λ i, Z.of_nat i * 1000)%Z pretty
              (Bench.mkWorld tt 0 EmptyString) H H')
    as (rows & w1 & H1 & _ & H2 & H3).
  exists rows, w1. split; [exact H1|]. split; [exact H2|exact H3].
Defined.

(** X22. In every row of the report the collision count is at least zero
    and below the size of the row: the first record of each data vector
    finds its bucket empty. *)
Theorem main_collisions_below_size {Rng : Type} (rng_next : Rng → Z * Rng)
    (uniform_int : Z → Z → Rng → Z * Rng) (char_signed : bool)
    (clock : nat → Z) (show_double : Z → string) (w : Bench.World) :
  (∀ lo hi g, (lo ≤ hi → lo ≤ (uniform_int lo hi g).1 ≤ hi)%Z) →
  ∃ rows w1,
    Bench.measure_all rng_next uniform_int char_signed clock Bench.sizes w
    = Some (rows, w1)
    ∧ Bench.main rng_next uniform_int char_signed clock show_double w
      = Some (Bench.mkWorld (Bench.w_rng w1) (Bench.w_ticks w1)
                (Bench.write_csv show_double rows EmptyString))
    ∧ Forall (λ r, 0 ≤ Bench.collisions r < Bench.size r)%Z rows.
Proof.
  intros Hu.
  destruct (BenchMore.main_rows rng_next uniform_int char_signed clock
              show_double Hu w) as (rows & w1 & Hrun & Hmain & _ & _ & Hrows).
  exists rows, w1. split_and!; try done.
  apply Forall_forall. intros r Hr.
  apply list_elem_of_lookup in Hr as [i Hi].
  destruct (Hrows i r Hi) as (n & Hn & Hok).
  pose proof (BenchMore.row_collisions char_signed clock _ n r
                (BenchMore.sizes_bound n (list_elem_of_lookup_2 _ _ _ Hn)) Hok)
    as Hc.
  destruct Hok as (-> & _). lia.
Qed.

Lemma main_collisions_below_size_witness :
  (∀ lo hi g, (lo ≤ hi → lo ≤ (stuck_uniform lo hi g).1 ≤ hi)%Z)
  ∧ ∃ rows w1,
      Bench.measure_all stuck_next stuck_uniform true
        (λ i, Z.of_nat i * 1000)%Z Bench.sizes (Bench.mkWorld tt 0 EmptyString)
      = Some (rows, w1)
      ∧ Forall (λ r, 0 ≤ Bench.collisions r < Bench.size r)%Z rows.
Proof.
  assert (∀ lo hi g, (lo ≤ hi → lo ≤ (stuck_uniform lo hi g).1 ≤ hi)%Z) as H.
  { intros lo hi g Hle. cbn. lia. }
  split; [exact H|].
  destruct (main_collisions_below_size stuck_next stuck_uniform true
              (λ i, Z.of_nat i * 1000)%Z pretty
              (Bench.mkWorld tt 0 EmptyString) H)
    as (rows & w1 & H1 & _ & H2).
  exists rows, w1. split; [exact H1|exact H2].
Defined.
